(** * Valentine page: animation engine and rigged wheel

    A shallow embedding of [src/app.js]: the ambient emoji rain, the
    confetti particle pool, the easing functions and the wheel-spin click
    handler, followed by the properties established about them.

    Modelling conventions.
    - A JavaScript number is an exact rational ([Q]); the operators
      [%], [| 0], [Math.floor], [Math.round], [Math.max], [Math.min],
      [Math.abs] and [Math.pow] (with a literal integer exponent) are
      written out in module [JS].  Rounding of IEEE doubles is not modelled.
    - [Math.random] is a tape [rnd : nat -> Q] read through a cursor that
      every draw advances; the contract of the host function (a value in
      the interval from 0 inclusive to 1 exclusive) is the section
      hypothesis [rnd_unit] and is assumed only where a proof needs it.
    - [Math.cos], [Math.sin] and [Math.PI] are host functions and stay
      abstract.
    - Canvas drawing, DOM styling and audio synthesis are not state of the
      program; a sound request is recorded in a log so that its absence can
      be stated.
    - An array is a list; an out-of-range or undefined read is [None]. *)

From Stdlib Require Import QArith Qround Qabs Qpower Lqa ZArith Lia List String.
From stdpp Require Import base list gmap strings.
Import ListNotations.
Open Scope Q_scope.

(** ** JavaScript number primitives *)

Module JS.

Definition ltb (a b : Q) : bool := negb (Qle_bool b a).
Definition leb (a b : Q) : bool := Qle_bool a b.

Definition Math_max (a b : Q) : Q := if Qle_bool a b then b else a.
Definition Math_min (a b : Q) : Q := if Qle_bool a b then a else b.
Definition Math_floor (x : Q) : Q := inject_Z (Qfloor x).
(* Math.round rounds to the nearest integer, ties towards +infinity *)
Definition Math_round (x : Q) : Q := inject_Z (Qfloor (x + (1 # 2))).
Definition Math_abs (x : Q) : Q := Qabs x.
Definition Math_pow (x : Q) (n : positive) : Q := x ^ (Zpos n).

(* truncation towards zero *)
Definition trunc (x : Q) : Z := if Qle_bool 0 x then Qfloor x else Qceiling x.

(* [a % b]: the remainder has the sign of the dividend *)
Definition rem (a b : Q) : Q := a - b * inject_Z (trunc (a / b)).

(* [x | 0]: ToInt32, truncation followed by wrap-around to 32 bits *)
Definition wrap32 (z : Z) : Z := ((z + 2 ^ 31) mod 2 ^ 32 - 2 ^ 31)%Z.
Definition toInt32 (x : Q) : Z := wrap32 (trunc x).

(* [arr[i]] for an integer-valued index; [None] is [undefined] *)
Definition get {A : Type} (arr : list A) (i : Z) : option A :=
  if (i <? 0)%Z then None else arr !! Z.to_nat i.

End JS.

Import JS.

(** ** Data *)

Inductive Side : Set := Left | Right.

Inductive Kind : Set := heart | rect.

Module Drop.
Record t : Type := mk {
  icon : option string;
  size : Q;
  side : option Side;
  x : Q;
  y : Q;
  vy : Q;
  vx : Q;
  phase : Q;
  vphase : Q;
  alpha : Q
}.
(* the object literal [{}] handed to resetDrop; resetDrop overwrites every
   numeric field before anything reads it, only [side] is inspected *)
Definition empty : t := mk None 0 None 0 0 0 0 0 0 0.
Definition with_side (d : t) (s : option Side) : t :=
  mk (icon d) (size d) s (x d) (y d) (vy d) (vx d) (phase d) (vphase d) (alpha d).
Definition with_x (d : t) (x' : Q) : t :=
  mk (icon d) (size d) (side d) x' (y d) (vy d) (vx d) (phase d) (vphase d) (alpha d).
Definition with_vx (d : t) (vx' : Q) : t :=
  mk (icon d) (size d) (side d) (x d) (y d) (vy d) vx' (phase d) (vphase d) (alpha d).
End Drop.

Module Particle.
Record t : Type := mk {
  kind : Kind;
  x : Q;
  y : Q;
  vx : Q;
  vy : Q;
  g : Q;
  r : Q;
  rot : Q;
  vr : Q;
  a : Q;
  va : Q;
  color : option string
}.
End Particle.

(* the arguments of one clickSound call *)
Record Sound : Type := mkSound { freq : Q; dur : Q; gain : Q }.

(* what the page reads from the browser *)
Record Host : Type := mkHost {
  prefersReducedMotion : bool;
  fxCtx : bool;                 (* a 2D canvas context was obtained *)
  innerWidth : Z;
  innerHeight : Z;
  wheelDiscRect : Q * Q * Q     (* left, top, width of the wheel's box *)
}.

Record Fx : Type := mkFx {
  fxRunning : bool;
  fxLastTs : Q;
  rainEnabled : bool;
  rainDrops : list Drop.t;
  fxParticles : list Particle.t
}.

Record Animation : Type := mkAnimation {
  start : Q;
  from : Q;
  to : Q;
  prev : Q;
  durationMs : Q;
  easingFn : Q -> Q
}.

(* where the asynchronous click handler is suspended *)
Inductive Stage : Type :=
  | NotRunning
  | Animating (anim : Animation) (targetFinal : Q)  (* await animateWheelToWithEasing *)
  | FirstPaint                                      (* outer requestAnimationFrame *)
  | SecondPaint                                     (* inner requestAnimationFrame *)
  | SettlePause.                                    (* setTimeout(resolve, 650) *)

Record Wheel : Type := mkWheel {
  wheelRotation : Q;
  spinning : bool;
  spinBtnDisabled : bool;
  isSpinningClass : bool;
  prizeModalOpen : bool;
  stage : Stage
}.

Record App : Type := mkApp {
  fx : Fx;
  wheel : Wheel;
  sounds : list Sound
}.

(** ** The random source as a state monad over the tape cursor *)

Definition Rand (A : Type) : Type := nat -> A * nat.

Definition ret {A : Type} (v : A) : Rand A := fun k => (v, k).

Definition bind {A B : Type} (m : Rand A) (f : A -> Rand B) : Rand B :=
  fun k => let (v, k') := m k in f v k'.

Notation "'do' v <- m ;; f" := (bind m (fun v => f))
  (at level 10, v name, m at level 99, f at level 200, only parsing).

Fixpoint mapM {A B : Type} (f : A -> Rand B) (l : list A) : Rand (list B) :=
  match l with
  | [] => ret []
  | v :: l' => do w <- f v ;; do ws <- mapM f l' ;; ret (w :: ws)
  end.

Definition clamp (n min max : Q) : Q := Math_max min (Math_min max n).

(** ** Data of the dialogs and of the YES/NO game *)

Module Element.
Record t : Type := mk {
  id : nat;                    (* which DOM node it is *)
  disabled : bool;             (* hasAttribute("disabled") *)
  ariaHidden : option string   (* getAttribute("aria-hidden"); None is null *)
}.
End Element.

Record KeyEvent : Type := mkKeyEvent { key : string; shiftKey : bool }.

(* what a keydown handler did: preventDefault() and the node given focus *)
Record FocusEffect : Type := mkFocusEffect {
  defaultPrevented : bool;
  focusTarget : option Element.t
}.

(* getBoundingClientRect(): right is left + width, bottom is top + height *)
Record Rect : Type := mkRect {
  rectLeft : Q;
  rectTop : Q;
  rectWidth : Q;
  rectHeight : Q
}.

Record Love : Type := mkLove {
  noClicks : Z;
  yesScale : Q;
  noScale : Q;
  loveLocked : bool;
  yesDisabled : bool;
  noDisabled : bool;
  noOpacityZero : bool;         (* noBtn.style.opacity is "0" *)
  noPointerEventsNone : bool;   (* noBtn.style.pointerEvents is "none" *)
  noText : option string;       (* noBtn.textContent as last written *)
  loveAfterHidden : bool
}.

Record Choco : Type := mkChoco {
  chocoIndex : Q;
  chocoOpenToken : Z;
  chocoMsg : option string;     (* chocoMsg.textContent as last written *)
  chocoGif : option string;     (* the src attribute of chocoGif as last written *)
  chocoSelected : list bool;    (* data-selected of each .choco__piece, in order *)
  chocoModalHidden : bool;
  chocoPreloaded : bool
}.

(* how the oEmbed request ended: fetch rejected, or a response with its ok
   flag and the outcome of res.json() (None when it rejects, otherwise
   thumbnail_url when it is a string) *)
Inductive FetchResponse : Type :=
  | NetworkError
  | HttpResponse (ok : bool) (json : option (option string)).

Inductive ChocoOp : Type :=
  | ChocoOpen (index : Q)
  | ChocoClose.

(** ** Concrete inputs for the examples *)

Module Sample.

(* a tape that cycles through 0, 1/7, ..., 6/7, and a constant one *)
Definition tape : nat -> Q := fun k => Z.of_nat (k mod 7) # 7.
Definition half : nat -> Q := fun _ => 1 # 2.

(* stand-ins for the host's cosine, sine and pi *)
Definition cos : Q -> Q := fun _ => 3 # 5.
Definition sin : Q -> Q := fun _ => 4 # 5.
Definition PI : Q := 355 # 113.

(* a 1000 x 800 viewport, with and without the reduced-motion preference,
   and a viewport 15 wide *)
Definition desktop : Host := mkHost false true 1000 800 (350, 100, 300).
Definition reduced : Host := mkHost true true 1000 800 (350, 100, 300).
Definition narrow : Host := mkHost false true 15 800 (0, 100, 15).

Definition idleWheel : Wheel := mkWheel 0 false false false false NotRunning.
Definition emptyFx : Fx := mkFx false 0 false [] [].
Definition rainFx : Fx := mkFx false 0 true [] [].
Definition idleApp : App := mkApp emptyFx idleWheel [].

(* a particle at rest at the origin with gravity 1 and decay 1/10 *)
Definition p0 : Particle.t := Particle.mk rect 0 0 1 0 1 2 0 0 1 (1 # 10) None.
Definition oneParticle : Fx := mkFx true 0 false [] [p0].

(* a drop on the right side, where resetDrop puts it for u = 1/2 when the
   viewport is 15 wide: x = 10 + (5 - 10) / 2 *)
Definition rightDrop : Drop.t :=
  Drop.mk (Some "✨"%string) 24 (Some Right) (15 # 2) 100 90 3 0 1 (3 # 10).

End Sample.

(** ** The program *)

Section App.

Variable host : Host.
Variable rnd : nat -> Q.
Variables Math_cos Math_sin : Q -> Q.
Variable Math_PI : Q.

(* the contract of Math.random *)
Hypothesis rnd_unit : forall k : nat, 0 <= rnd k /\ rnd k < 1.

Definition Math_random : Rand Q := fun k => (rnd k, S k).

Definition W : Q := inject_Z (innerWidth host).
Definition H : Q := inject_Z (innerHeight host).

(** *** Emoji rain *)

Definition rainIcons : list string :=
  ["🍫"; "🌹"; "💗"; "🍬"; "✨"; "💝"; "🍓"]%string.

Definition sideBandWidth : Q := clamp (Math_round (W * 0.22)) 140 280.

(* every value other than "right" takes the left branch *)
Definition sideBounds (side : option Side) : Q * Q :=
  let pad := 10 in
  let band := sideBandWidth in
  match side with
  | Some Right => (Math_max pad (W - band + pad), W - pad)
  | _ => (pad, Math_max (pad + 1) (band - pad))
  end.

Definition rand (min max : Q) : Rand Q :=
  do u <- Math_random ;; ret (min + u * (max - min)).

(* t = arr[i]; arr[i] = arr[j]; arr[j] = t.  With a draw in the unit
   interval both indices are in range; outside it the list is left as it
   is (the source would then store undefined). *)
Definition swap {A : Type} (arr : list A) (i : nat) (j : Z) : list A :=
  match arr !! i, JS.get arr j with
  | Some ai, Some aj => <[Z.to_nat j := ai]> (<[i := aj]> arr)
  | _, _ => arr
  end.

(* for (let i = arr.length - 1; i > 0; i--) *)
Fixpoint shuffleLoop {A : Type} (i : nat) (arr : list A) : Rand (list A) :=
  match i with
  | O => ret arr
  | S i' =>
      do u <- Math_random ;;
      let j := toInt32 (u * (inject_Z (Z.of_nat i) + 1)) in
      shuffleLoop i' (swap arr i j)
  end.

Definition shuffleInPlace {A : Type} (arr : list A) : Rand (list A) :=
  shuffleLoop (length arr - 1) arr.

Definition desiredRainCount : Q :=
  let byWidth := Math_floor (W / 44) in
  clamp byWidth 12 30.

Definition resetDrop (drop : Drop.t) (startAbove keepSide : bool)
  : Rand Drop.t :=
  do u <- Math_random ;;
  let icon := JS.get rainIcons (toInt32 (u * inject_Z (Z.of_nat (length rainIcons)))) in
  do size <- rand 18 30 ;;
  do side <-
    (if negb keepSide || (match Drop.side drop with None => true | Some _ => false end)
     then do v <- Math_random ;; ret (Some (if JS.ltb v 0.5 then Left else Right))
     else ret (Drop.side drop)) ;;
  let (minX, maxX) := sideBounds side in
  do x <- rand minX maxX ;;
  do y <- (if startAbove then rand (-120) (H * 0.35) else rand 0 H) ;;
  do vy <- rand 55 140 ;;
  do vx <- rand (-6) 6 ;;
  do phase <- rand 0 (Math_PI * 2) ;;
  do vphase <- rand 0.8 1.6 ;;
  do alpha <- rand 0.22 0.42 ;;
  ret (Drop.mk icon size side x y vy vx phase vphase alpha).

(* while (rainDrops.length < target) { ... push(d) }; each turn makes the
   array one longer, so [fuel] turns are enough once fuel >= target *)
Fixpoint growRain (fuel : nat) (target : Q) (drops : list Drop.t)
  : Rand (list Drop.t) :=
  match fuel with
  | O => ret drops
  | S fuel' =>
      if JS.ltb (inject_Z (Z.of_nat (length drops))) target
      then do d <- resetDrop Drop.empty true false ;;
           growRain fuel' target (drops ++ [d])
      else ret drops
  end.

(* the body of for (let i = 0; i < n; i++) in syncRainDrops, from index i *)
Fixpoint assignSides (sides : list Side) (i : nat) (drops : list Drop.t)
  : Rand (list Drop.t) :=
  match drops with
  | [] => ret []
  | d :: rest =>
      let d1 := Drop.with_side d (sides !! i) in
      let (minX, maxX) := sideBounds (Drop.side d1) in
      do d2 <-
        (if JS.ltb (Drop.x d1) minX || JS.ltb maxX (Drop.x d1)
         then do x <- rand minX maxX ;; ret (Drop.with_x d1 x)
         else ret d1) ;;
      do rest' <- assignSides sides (S i) rest ;;
      ret (d2 :: rest')
  end.

Definition syncRainDrops (reseed : bool) (s : Fx) : Rand Fx :=
  if negb (rainEnabled s) then ret s
  else
    let target := desiredRainCount in
    do grown <- growRain (Z.to_nat (Qceiling target)) target (rainDrops s) ;;
    let sized :=
      if JS.ltb target (inject_Z (Z.of_nat (length grown)))
      then take (Z.to_nat (Qfloor target)) grown
      else grown in
    do balanced <-
      (if (0 <? length sized)%nat
       then
         let n := length sized in
         let leftWanted := (n / 2)%nat in
         let rightWanted := (n - leftWanted)%nat in
         do sides <- shuffleInPlace
                      (replicate leftWanted Left ++ replicate rightWanted Right) ;;
         assignSides sides 0 sized
       else ret sized) ;;
    do final <-
      (if reseed
       then mapM (fun d => resetDrop d true true) balanced
       else ret balanced) ;;
    ret (mkFx (fxRunning s) (fxLastTs s) (rainEnabled s) final (fxParticles s)).

(* one turn of for (const d of rainDrops) in renderFxFrame; the drawing
   between the two [if (advance)] blocks changes no state *)
Definition advanceDrop (dt : Q) (d : Drop.t) : Drop.t :=
  let y := Drop.y d + Drop.vy d * dt in
  let x := Drop.x d + Drop.vx d * dt in
  let phase := Drop.phase d + Drop.vphase d * dt in
  let d0 := Drop.mk (Drop.icon d) (Drop.size d) (Drop.side d) x y
              (Drop.vy d) (Drop.vx d) phase (Drop.vphase d) (Drop.alpha d) in
  let (minX, maxX) :=
    sideBounds (match Drop.side d0 with None => Some Left | s => s end) in
  let d1 :=
    if JS.ltb (Drop.x d0) minX
    then Drop.with_vx (Drop.with_x d0 minX) (Math_abs (Drop.vx d0))
    else d0 in
  if JS.ltb maxX (Drop.x d1)
  then Drop.with_vx (Drop.with_x d1 maxX) (- Math_abs (Drop.vx d1))
  else d1.

Definition renderDrop (dt : Q) (advance : bool) (d : Drop.t) : Rand Drop.t :=
  let d1 := if advance then advanceDrop dt d else d in
  if advance && JS.ltb (H + 36) (Drop.y d1)
  then resetDrop d1 true true
  else ret d1.

(** *** Confetti particles *)

(* the statements of the particle loop body before the drawing *)
Definition updateParticle (p : Particle.t) : Particle.t :=
  let vy := Particle.vy p + Particle.g p in
  let x := Particle.x p + Particle.vx p in
  let y := Particle.y p + vy in
  let rot := Particle.rot p + Particle.vr p in
  let a := Math_max 0 (Particle.a p - Particle.va p) in
  Particle.mk (Particle.kind p) x y (Particle.vx p) vy (Particle.g p)
    (Particle.r p) rot (Particle.vr p) a (Particle.va p) (Particle.color p).

(* p.a <= 0 || p.y > window.innerHeight + 120 *)
Definition expired (p : Particle.t) : bool :=
  JS.leb (Particle.a p) 0 || JS.ltb (H + 120) (Particle.y p).

(* for (let i = fxParticles.length - 1; i >= 0; i--): the tail is visited
   first, and splice(i, 1) leaves the lower indices where they are *)
Fixpoint stepParticles (ps : list Particle.t) : list Particle.t :=
  match ps with
  | [] => []
  | p :: rest =>
      let rest' := stepParticles rest in
      let p' := updateParticle p in
      if expired p' then rest' else p' :: rest'
  end.

Definition renderFxFrame (dt : Q) (advance : bool) (s : Fx) : Rand Fx :=
  if negb (fxCtx host) then ret s
  else
    do drops <-
      (if rainEnabled s && (0 <? length (rainDrops s))%nat
       then mapM (renderDrop dt advance) (rainDrops s)
       else ret (rainDrops s)) ;;
    ret (mkFx (fxRunning s) (fxLastTs s) (rainEnabled s) drops
           (stepParticles (fxParticles s))).

Definition resizeFx (s : Fx) : Rand Fx :=
  if negb (fxCtx host) then ret s else syncRainDrops false s.

Definition palette : list string :=
  ["#E63946"; "#FF7FA3"; "#FFD9A6"; "#FFFFFF"]%string.

(* the object literal pushed by spawnConfetti; the draws are taken in the
   order in which the source evaluates them *)
Definition newParticle (x y spread : Q) : Rand Particle.t :=
  do u_ang <- Math_random ;;
  let ang := u_ang * Math_PI * 2 in
  do u_spd <- Math_random ;;
  let spd := (1.2 + u_spd * 4.0) * spread in
  do u_kind <- Math_random ;;
  do u_r <- Math_random ;;
  do u_rot <- Math_random ;;
  do u_vr <- Math_random ;;
  do u_va <- Math_random ;;
  do u_color <- Math_random ;;
  ret (Particle.mk
         (if JS.ltb u_kind 0.18 then heart else rect)
         x
         y
         (Math_cos ang * spd)
         (Math_sin ang * spd - 2.0 * spread)
         (0.12 * spread)
         (2 + u_r * 4)
         (u_rot * Math_PI * 2)
         ((-0.12 + u_vr * 0.24) * spread)
         1
         (0.012 + u_va * 0.02)
         (JS.get palette (toInt32 (u_color * inject_Z (Z.of_nat (length palette)))))).

(* for (let i = 0; i < count; i++) fxParticles.push({...}) *)
Fixpoint spawnLoop (count : nat) (x y spread : Q) (pool : list Particle.t)
  : Rand (list Particle.t) :=
  match count with
  | O => ret pool
  | S count' =>
      do p <- newParticle x y spread ;;
      spawnLoop count' x y spread (pool ++ [p])
  end.

Definition spawnConfetti (x y : Q) (count : nat) (spread : Q) (s : Fx)
  : Rand Fx :=
  if negb (fxCtx host) || prefersReducedMotion host then ret s
  else
    do pool <- spawnLoop count x y spread (fxParticles s) ;;
    ret (mkFx (fxRunning s) (fxLastTs s) (rainEnabled s) (rainDrops s) pool).

(* requestAnimationFrame(fxTick) is the flag fxRunning staying set *)
Definition startFxLoop (now : Q) (s : Fx) : Fx :=
  if negb (fxCtx host) then s
  else if fxRunning s then s
  else mkFx true now (rainEnabled s) (rainDrops s) (fxParticles s).

Definition fxTick (ts : Q) (s : Fx) : Rand Fx :=
  if negb (fxCtx host) then ret s
  else
    let dtMs := clamp (ts - fxLastTs s) 0 34 in
    let s1 := mkFx (fxRunning s) ts (rainEnabled s) (rainDrops s) (fxParticles s) in
    let dt := dtMs / 1000 in
    do s2 <- renderFxFrame dt true s1 ;;
    if (rainEnabled s2 && (0 <? length (rainDrops s2))%nat)
       || (0 <? length (fxParticles s2))%nat
    then ret s2
    else ret (mkFx false (fxLastTs s2) (rainEnabled s2) (rainDrops s2) (fxParticles s2)).

Definition ensureFxLoop (now : Q) (s : Fx) : Fx :=
  if negb (fxCtx host) then s else startFxLoop now s.

(* the start-up block: if (fxCtx) { rainEnabled = true; ... } *)
Definition initFx (now : Q) : Rand Fx :=
  let s0 := mkFx false 0 false [] [] in
  do s1 <- resizeFx s0 ;;
  if fxCtx host
  then
    do s2 <- syncRainDrops true
               (mkFx (fxRunning s1) (fxLastTs s1) true (rainDrops s1) (fxParticles s1)) ;;
    ret (startFxLoop now s2)
  else ret s1.

(** *** Sound *)

(* clickSound: the guard, then one request to the audio back end *)
Definition clickSound (freq dur gain : Q) (log : list Sound) : list Sound :=
  if prefersReducedMotion host then log
  else log ++ [mkSound freq dur gain].

(** *** Easing *)

Definition easeInOutCubic (t : Q) : Q :=
  if JS.ltb t 0.5 then 4 * t * t * t else 1 - Math_pow (-2 * t + 2) 3 / 2.

Definition easeInCubic (t : Q) : Q := t * t * t.

Definition easeOutCubic (t : Q) : Q := 1 - Math_pow (1 - t) 3.

Definition easeOutPower (t : Q) (p : positive) : Q := 1 - Math_pow (1 - t) p.

Definition spinProfile (t : Q) : Q :=
  let accelT := 0.18 in
  let cruiseT := 0.72 in
  let accelP := 0.12 in
  let cruiseP := 0.86 in
  if JS.leb t 0 then 0
  else if JS.leb 1 t then 1
  else if JS.ltb t accelT then
    let u := t / accelT in
    accelP * easeInCubic u
  else if JS.ltb t cruiseT then
    let u := (t - accelT) / (cruiseT - accelT) in
    accelP + (cruiseP - accelP) * u
  else
    let u := (t - cruiseT) / (1 - cruiseT) in
    cruiseP + (1 - cruiseP) * easeOutCubic u.

(** *** Rigged wheel *)

Definition sectorCount : Q := 5.
Definition sectorSize : Q := 360 / sectorCount.
Definition prizeIndex : Q := 2.

Definition sectorCenterAngle (index : Q) : Q :=
  index * sectorSize + sectorSize / 2.

Definition computeRiggedStopAngle : Rand Q :=
  let center := sectorCenterAngle prizeIndex in
  do u <- Math_random ;;
  let within := u * (sectorSize * 0.6) - sectorSize * 0.3 in
  ret (JS.rem (360 - (center + within) + 360) 360).

(* ((deg % 360) + 360) % 360, the idiom the source uses three times *)
Definition normDeg (deg : Q) : Q := JS.rem (JS.rem deg 360 + 360) 360.

(* Math.floor((((deg % 360) + 360) % 360) / sectorSize) *)
Definition sectorIndexAt (deg : Q) : Q :=
  Math_floor (normDeg deg / sectorSize).

Definition playTickIfCrossed (prevDeg nextDeg : Q) (log : list Sound)
  : list Sound :=
  let prev := sectorIndexAt prevDeg in
  let next := sectorIndexAt nextDeg in
  if negb (Qeq_bool prev next) then clickSound 980 0.015 0.045 log else log.

(* the synchronous part of the Promise executor *)
Definition animateWheelToWithEasing (now : Q) (w : Wheel) (targetDeg durationMs : Q)
    (easingFn : Q -> Q) : Animation :=
  mkAnimation now (wheelRotation w) targetDeg (wheelRotation w) durationMs easingFn.

Definition setWheelRotation (deg : Q) (w : Wheel) : Wheel :=
  mkWheel deg (spinning w) (spinBtnDisabled w) (isSpinningClass w)
    (prizeModalOpen w) (stage w).

(* the closure [step]: the new angle, the sound log, the updated closure
   state, and whether the promise resolved *)
Definition step (now : Q) (anim : Animation) (log : list Sound)
  : Q * list Sound * Animation * bool :=
  let t := clamp ((now - start anim) / durationMs anim) 0 1 in
  let eased := if prefersReducedMotion host then t else easingFn anim t in
  let deg := from anim + (to anim - from anim) * eased in
  let log' :=
    if negb (prefersReducedMotion host)
    then playTickIfCrossed (prev anim) deg log
    else log in
  let anim' := mkAnimation (start anim) (from anim) (to anim) deg
                 (durationMs anim) (easingFn anim) in
  (deg, log', anim', negb (JS.ltb t 1)).

(* finalOffset, extraSpins, currentMod, deltaToOffset, targetFinal *)
Definition spinTarget (rotation : Q) : Rand Q :=
  do finalOffset <- computeRiggedStopAngle ;;
  do u <- Math_random ;;
  let extraSpins := 7 + Math_floor (u * 3) in
  let currentMod := normDeg rotation in
  let deltaToOffset := JS.rem (finalOffset - currentMod + 360) 360 in
  ret (rotation + extraSpins * 360 + deltaToOffset).

(* the click handler of spinBtn up to its first suspension *)
Definition spinClick (now : Q) (s : App) : Rand App :=
  let w := wheel s in
  if spinning w then ret s
  else
    do targetFinal <- spinTarget (wheelRotation w) ;;
    let anim :=
      if prefersReducedMotion host
      then animateWheelToWithEasing now w targetFinal 2500
             (fun t => easeOutPower t 4)
      else
        let totalDegrees := Math_max 0 (targetFinal - wheelRotation w) in
        let durationMs := clamp ((totalDegrees / 360) * 2400) 14000 26000 in
        animateWheelToWithEasing now w targetFinal durationMs
          (fun t => easeOutPower t 7) in
    ret (mkApp (fx s)
           (mkWheel (wheelRotation w) true true true (prizeModalOpen w)
              (Animating anim targetFinal))
           (sounds s)).

(* the tail of the handler: open the prize modal, confetti, release *)
Definition finishSpin (now : Q) (s : App) : Rand App :=
  let w := wheel s in
  let '(r_left, r_top, r_width) := wheelDiscRect host in
  do fx1 <- spawnConfetti (r_left + r_width / 2) (r_top + 40) 140 3.6 (fx s) ;;
  let fx2 := ensureFxLoop now fx1 in
  ret (mkApp fx2
         (mkWheel (wheelRotation w) false false (isSpinningClass w) true NotRunning)
         (sounds s)).

(* the handler's pending requestAnimationFrame callback *)
Definition wheelFrame (now : Q) (s : App) : Rand App :=
  let w := wheel s in
  match stage w with
  | NotRunning => ret s
  | Animating anim targetFinal =>
      let '(deg, log, anim', resolved) := step now anim (sounds s) in
      if resolved
      then ret (mkApp (fx s)
                  (mkWheel targetFinal (spinning w) (spinBtnDisabled w) false
                     (prizeModalOpen w) FirstPaint)
                  log)
      else ret (mkApp (fx s)
                  (mkWheel deg (spinning w) (spinBtnDisabled w) (isSpinningClass w)
                     (prizeModalOpen w) (Animating anim' targetFinal))
                  log)
  | FirstPaint =>
      ret (mkApp (fx s)
             (mkWheel (wheelRotation w) (spinning w) (spinBtnDisabled w)
                (isSpinningClass w) (prizeModalOpen w) SecondPaint)
             (sounds s))
  | SecondPaint =>
      if negb (prefersReducedMotion host)
      then ret (mkApp (fx s)
                  (mkWheel (wheelRotation w) (spinning w) (spinBtnDisabled w)
                     (isSpinningClass w) (prizeModalOpen w) SettlePause)
                  (sounds s))
      else finishSpin now s
  | SettlePause => ret s
  end.

Definition settleTimeout (now : Q) (s : App) : Rand App :=
  match stage (wheel s) with
  | SettlePause => finishSpin now s
  | _ => ret s
  end.

(** *** Events delivered by the browser *)

Inductive Event : Type :=
  | SpinClick (now : Q)
  | AnimationFrame (ts : Q)
  | SettleTimeout (now : Q)
  | Resize.

Definition handle (e : Event) (s : App) : Rand App :=
  match e with
  | SpinClick now => spinClick now s
  | AnimationFrame ts =>
      do fx1 <- (if fxRunning (fx s) then fxTick ts (fx s) else ret (fx s)) ;;
      wheelFrame ts (mkApp fx1 (wheel s) (sounds s))
  | SettleTimeout now => settleTimeout now s
  | Resize =>
      do fx1 <- resizeFx (fx s) ;;
      ret (mkApp fx1 (wheel s) (sounds s))
  end.

Fixpoint run (events : list Event) (s : App) : Rand App :=
  match events with
  | [] => ret s
  | e :: rest => do s' <- handle e s ;; run rest s'
  end.

(* the page right after the script has run *)
Definition initApp (now : Q) : Rand App :=
  do fx0 <- initFx now ;;
  ret (mkApp fx0 (mkWheel 0 false false false false NotRunning) []).

(** *** Focus trap of the modals *)

(* a string or null in a boolean context *)
Definition truthy (v : option string) : bool :=
  match v with
  | None => false
  | Some str => negb (String.eqb str "")
  end.

(* the filter of trapFocus over the nodes the selector matched *)
Definition focusables (matched : list Element.t) : list Element.t :=
  List.filter
    (fun el => negb (Element.disabled el) && negb (truthy (Element.ariaHidden el)))
    matched.

Definition isActive (active : option nat) (el : Element.t) : bool :=
  match active with
  | Some a => Nat.eqb a (Element.id el)
  | None => false
  end.

(* [matched]: modal.querySelectorAll(...); [active]: document.activeElement;
   [contains]: modal.contains(active) *)
Definition trapFocus (matched : list Element.t) (active : option nat)
    (contains : bool) (event : KeyEvent) : FocusEffect :=
  if negb (String.eqb (key event) "Tab") then mkFocusEffect false None
  else
    match focusables matched with
    | [] => mkFocusEffect false None
    | first :: rest =>
        let last := List.last rest first in
        if shiftKey event
        then
          if isActive active first || negb contains
          then mkFocusEffect true (Some last)
          else mkFocusEffect false None
        else
          if isActive active last
          then mkFocusEffect true (Some first)
          else mkFocusEffect false None
    end.

(** *** Chocolate modal *)

Definition chocolateMessages : list string :=
  ["Happy Valentine! Em là thanh socola ngọt nhất trên cuộc đời này đó hihi.";
   "Mỗi ngày bên em là anh lại đc thêm 1 viên socola ngọt ngào.";
   "Em làm tim mình tan chảy <3";
   "Cảm ơn em vì luôn ở đây với anh.";
   "Gửi em một nụ hunn và một cái ôm.";
   "Chúc em Valentine năm nào cx có anh hihi!";
   "Sự đáng iuu của em ... 💥💥💥";
   "Hãy cùng nhau ăn hết hộp này nhé :)💥💥💥";
   "Moazz moazz!";
   "Yêu em nhiều."]%string.

Definition chocoGiphyPageUrls : list string :=
  ["https://media3.giphy.com/media/v1.Y2lkPTc5MGI3NjExajQwcDhzdTFzZm82NXhjd2t4aXZlZmQ2ZjdtencwdGg3b3I5bnQ1ZiZlcD12MV9pbnRlcm5hbF9naWZfYnlfaWQmY3Q9Zw/D2t94jSqtrVe0/giphy.gif";
   "https://media3.giphy.com/media/v1.Y2lkPTc5MGI3NjExY29tNTFrZXcwMDRybjI4NHlrcnl0YTJ6MHc4a3Bic2h1cHEzYjJxMyZlcD12MV9pbnRlcm5hbF9naWZfYnlfaWQmY3Q9Zw/k6SImaefvartv71xUc/giphy.gif";
   "https://media1.giphy.com/media/v1.Y2lkPTc5MGI3NjExMHJoc28xbGpsbDNlYXY0OWxwY3RiN21oOWVzd3M3NXFsc2pwdzB3ZiZlcD12MV9pbnRlcm5hbF9naWZfYnlfaWQmY3Q9Zw/d37mEpcaGP3pudPoho/giphy.gif";
   "https://media2.giphy.com/media/v1.Y2lkPTc5MGI3NjExeXVpdTk2dHVnNm1lZ291ODM3Ymg2bXg5dnozbGdvaHI5Njg1MHUyZSZlcD12MV9pbnRlcm5hbF9naWZfYnlfaWQmY3Q9Zw/KEf7gXqvQ8B3SWnUid/giphy.gif";
   "https://media2.giphy.com/media/v1.Y2lkPTc5MGI3NjExbXVtN2lvNnNlZ21lbGlodDAyMTVmMDFtbmd3YzA0MWd1NGM4aXQwYiZlcD12MV9pbnRlcm5hbF9naWZfYnlfaWQmY3Q9Zw/DdJ9RsY88uBarMvVsb/giphy.gif";
   "https://media4.giphy.com/media/v1.Y2lkPTc5MGI3NjExejY1bW4xNDFiNTU2MHo5bWNrcTh5OWZuMzVlaDF2c2JmbGdiZDNqNCZlcD12MV9pbnRlcm5hbF9naWZfYnlfaWQmY3Q9Zw/nE59vl2e7rWzbskQZ9/giphy.gif";
   "https://media2.giphy.com/media/v1.Y2lkPTc5MGI3NjExNmtvbGM1NzNhdzB1ajFoYTZhend1eTl1MmR0dWxscDh3eGRnZDRsOCZlcD12MV9pbnRlcm5hbF9naWZfYnlfaWQmY3Q9Zw/5aLrlDiJPMPFS/giphy.gif";
   "https://media0.giphy.com/media/v1.Y2lkPTc5MGI3NjExYWY0Zmp2ZnQxYXduYmIyYWF5Z2Z6czBlbDF0cHdybTV6Mjd5Y2ozdSZlcD12MV9pbnRlcm5hbF9naWZfYnlfaWQmY3Q9Zw/Xxe4icuwQFnlCKJRgB/giphy.gif";
   "https://media2.giphy.com/media/v1.Y2lkPTc5MGI3NjExbG1qczlxNDNzdGZqejhyNHIyZG4xdWVkNjF1c2JxYm9jbGhua2MzeCZlcD12MV9pbnRlcm5hbF9naWZfYnlfaWQmY3Q9Zw/R26ERFVcOuANi3EWfT/giphy.gif";
   "https://media1.giphy.com/media/v1.Y2lkPTc5MGI3NjExNTB5Nmp5anI3ZjZiNG1kMDBzeGIzNjN4OTJ0cnlraWRhYmtqd2g2NSZlcD12MV9pbnRlcm5hbF9naWZfYnlfaWQmY3Q9Zw/l5HeyboYQp9zdzkrq2/giphy.gif"]%string.

Definition chocoGifs : list string :=
  ["assets/choco-0.svg";
   "assets/choco-1.svg";
   "assets/choco-2.svg";
   "assets/choco-3.svg";
   "assets/choco-4.svg";
   "assets/choco-5.svg";
   "assets/choco-6.svg";
   "assets/choco-7.svg";
   "assets/choco-8.svg";
   "assets/choco-9.svg"]%string.

(* arr[i] for a number i: only an integer index reads a cell *)
Definition arrayAt {A : Type} (arr : list A) (i : Q) : option A :=
  if Qeq_bool i (inject_Z (Qfloor i)) then JS.get arr (Qfloor i) else None.

(* the regular-expression test of resolveGiphyDirectImageUrl: the URL ends
   in .gif, .webp, .png, .jpg or .jpeg, in any letter case, possibly followed
   by a query string *)
Variable directImage : string -> bool.

(* one call of resolveGiphyDirectImageUrl that runs to its end before the
   next call starts; [response] is what the request would bring and is used
   only when the call reaches fetch; the flag tells whether it did *)
Definition resolveGiphyDirectImageUrl (giphyPageUrl : string)
    (response : FetchResponse) (cache : gmap string (option string))
  : option string * gmap string (option string) * bool :=
  if String.eqb giphyPageUrl "" then (None, cache, false)
  else
    match cache !! giphyPageUrl with
    | Some v => (v, cache, false)
    | None =>
        if directImage giphyPageUrl
        then (Some giphyPageUrl, <[giphyPageUrl := Some giphyPageUrl]> cache, false)
        else
          match response with
          | HttpResponse true (Some (Some url)) =>
              if String.eqb url ""
              then (None, <[giphyPageUrl := None]> cache, true)
              else (Some url, <[giphyPageUrl := Some url]> cache, true)
          | _ => (None, <[giphyPageUrl := None]> cache, true)
          end
    end.

Definition selectChocolate (index : Q) (buttons : list bool) : list bool :=
  let cleared := map (fun _ => false) buttons in
  match arrayAt cleared index with
  | Some _ => <[Z.to_nat (Qfloor index) := true]> cleared
  | None => cleared
  end.

(* the new state and, when a Giphy URL is configured for the slot, the
   request the call starts: the token it captured and the URL *)
Definition openChocoModal (index : Q) (s : Choco) : Choco * option (Z * string) :=
  let idx := clamp index 0 (inject_Z (Z.of_nat (length chocolateMessages)) - 1) in
  let selected := selectChocolate idx (chocoSelected s) in
  let token := (chocoOpenToken s + 1)%Z in
  let fallback :=
    if truthy (arrayAt chocoGifs idx) then arrayAt chocoGifs idx
    else Some "assets/heart-loop.svg"%string in
  let request :=
    match arrayAt chocoGiphyPageUrls idx with
    | Some url => if truthy (Some url) then Some (token, url) else None
    | None => None
    end in
  (mkChoco idx token (arrayAt chocolateMessages idx) fallback selected false true,
   request).

(* the callback given to then(): directUrl arrives for the captured token *)
Definition applyResolved (token : Z) (directUrl : option string) (s : Choco)
  : Choco :=
  if negb (token =? chocoOpenToken s)%Z then s
  else if truthy directUrl
  then mkChoco (chocoIndex s) (chocoOpenToken s) (chocoMsg s) directUrl
         (chocoSelected s) (chocoModalHidden s) (chocoPreloaded s)
  else s.

Definition closeChocoModal (s : Choco) : Choco :=
  mkChoco (chocoIndex s) (chocoOpenToken s + 1)%Z (chocoMsg s) (chocoGif s)
    (map (fun _ => false) (chocoSelected s)) true (chocoPreloaded s).

(** *** YES/NO game *)

Definition noTexts : list string :=
  ["Are you sure???";
   "thinkk!!!";
   "stopppp";
   "aaaaaaaaa";
   "pleaseee?";
   "last chance!";
   "ok fine…"]%string.

Definition rectRight (r : Rect) : Q := rectLeft r + rectWidth r.
Definition rectBottom (r : Rect) : Q := rectTop r + rectHeight r.

Definition checkCovered (yesRect noRect : Rect) (s : Love) : Love :=
  let covered :=
    JS.leb (rectLeft yesRect) (rectLeft noRect)
    && JS.leb (rectTop yesRect) (rectTop noRect)
    && JS.leb (rectRight noRect) (rectRight yesRect)
    && JS.leb (rectBottom noRect) (rectBottom yesRect) in
  if covered
  then mkLove (noClicks s) (yesScale s) (noScale s) (loveLocked s) (yesDisabled s)
         true true true (noText s) (loveAfterHidden s)
  else s.

(* the click handler of noBtn; the bounding-box check it schedules is
   checkCovered on the next frame *)
Definition noClick (s : Love) (log : list Sound) : Love * list Sound :=
  if loveLocked s || noDisabled s then (s, log)
  else
    let clicks := (noClicks s + 1)%Z in
    let log' := clickSound 620 0.03 0.05 log in
    let yesScale' := clamp (yesScale s * 1.08) 1 3.2 in
    let noScale' := clamp (noScale s * 0.92) 0.18 1 in
    let text := JS.get noTexts (Z.rem (clicks - 1) (Z.of_nat (length noTexts))) in
    (mkLove clicks yesScale' noScale' (loveLocked s) (yesDisabled s) (noDisabled s)
       (noOpacityZero s) (noPointerEventsNone s) text (loveAfterHidden s),
     log').

(* the click handler of yesBtn; [r] is yesBtn.getBoundingClientRect() *)
Definition yesClick (now : Q) (r : Rect) (s : Love) (f : Fx) : Rand (Love * Fx) :=
  if loveLocked s then ret (s, f)
  else
    let s' := mkLove (noClicks s) (yesScale s) (noScale s) true true true true
                (noPointerEventsNone s) (noText s) false in
    do f1 <- spawnConfetti (rectLeft r + rectWidth r / 2) (rectTop r + rectHeight r / 2)
               160 3.8 f ;;
    ret (s', ensureFxLoop now f1).

(* the variables of the game as the script initialises them *)
Definition initLove : Love := mkLove 0 1 1 false false false false false None true.

(** *** Prize modal *)

Definition closePrizeModal (w : Wheel) : Wheel :=
  mkWheel (wheelRotation w) (spinning w) (spinBtnDisabled w) (isSpinningClass w)
    false (stage w).

(* the click handler of claimBtn; [r] is claimBtn.getBoundingClientRect() *)
Definition claimClick (now : Q) (r : Rect) (s : App) : Rand App :=
  do fx1 <- spawnConfetti (rectLeft r + rectWidth r / 2) (rectTop r + rectHeight r / 2)
              120 3.1 (fx s) ;;
  ret (mkApp (ensureFxLoop now fx1) (closePrizeModal (wheel s)) (sounds s)).

(* the keydown listener of the prize modal *)
Definition prizeKeydown (matched : list Element.t) (active : option nat)
    (contains : bool) (event : KeyEvent) (w : Wheel) : Wheel * FocusEffect :=
  if prizeModalOpen w
  then
    let w' := if String.eqb (key event) "Escape" then closePrizeModal w else w in
    (w', trapFocus matched active contains event)
  else (w, mkFocusEffect false None).

(** *** Vocabulary of the statements *)

Definition onSide (sd : Side) (d : Drop.t) : bool :=
  match Drop.side d, sd with
  | Some Left, Left => true
  | Some Right, Right => true
  | _, _ => false
  end.

Fixpoint sideCount (sd : Side) (drops : list Drop.t) : nat :=
  match drops with
  | [] => O
  | d :: rest => ((if onSide sd d then 1 else 0) + sideCount sd rest)%nat
  end.

(* the x position lies in the band of the drop's side *)
Definition inBand (d : Drop.t) : Prop :=
  fst (sideBounds (Drop.side d)) <= Drop.x d
  /\ Drop.x d <= snd (sideBounds (Drop.side d)).

(* the flag [spinning] is set exactly while the click handler is suspended *)
Definition sessionConsistent (w : Wheel) : Prop :=
  (spinning w = false /\ stage w = NotRunning)
  \/ (spinning w = true /\ stage w <> NotRunning).

(* n consecutive frames of the FX loop with the given time steps *)
Fixpoint renderFrames (dts : list Q) (s : Fx) : Rand Fx :=
  match dts with
  | [] => ret s
  | dt :: rest => do s' <- renderFxFrame dt true s ;; renderFrames rest s'
  end.

(* the particle loop alone, run n times *)
Fixpoint stepParticlesN (n : nat) (ps : list Particle.t) : list Particle.t :=
  match n with
  | O => ps
  | S n' => stepParticlesN n' (stepParticles ps)
  end.

(** The spec's wording of the particle update: every rate is multiplied
    by the elapsed time [dt]. *)
Definition specAdvanceParticle (dt : Q) (p : Particle.t) : Particle.t :=
  let vy := Particle.vy p + Particle.g p * dt in
  let x := Particle.x p + Particle.vx p * dt in
  let y := Particle.y p + vy * dt in
  let rot := Particle.rot p + Particle.vr p * dt in
  let a := Math_max 0 (Particle.a p - Particle.va p * dt) in
  Particle.mk (Particle.kind p) x y (Particle.vx p) vy (Particle.g p)
    (Particle.r p) rot (Particle.vr p) a (Particle.va p) (Particle.color p).

(** The spec's formulas for the rain layout, in integer arithmetic:
    clamp(floor(w / 44), 12, 30) and clamp(round(0.22 * w), 140, 280),
    rounding to nearest being floor((22 w + 50) / 100). *)
Definition specTargetCount (w : Z) : Z := Z.max 12 (Z.min 30 (w / 44)).
Definition specBandWidth (w : Z) : Z :=
  Z.max 140 (Z.min 280 ((22 * w + 50) / 100)).

(* the NO button clicked n times in a row *)
Fixpoint noClicksTimes (n : nat) (s : Love) (log : list Sound) : Love * list Sound :=
  match n with
  | O => (s, log)
  | S n' => let (s', log') := noClick s log in noClicksTimes n' s' log'
  end.

(* what happens to the NO button in a game nobody has answered YES: a
   click, or the bounding-box check a click asked for, which the browser
   runs on a later frame with the rectangles of the two buttons as they are
   then *)
Inductive LoveEvent : Type :=
  | NoClick
  | CoverCheck (yesRect noRect : Rect).

Definition loveStep (st : Love * list Sound) (e : LoveEvent) : Love * list Sound :=
  match e with
  | NoClick => noClick (fst st) (snd st)
  | CoverCheck yesRect noRect => (checkCovered yesRect noRect (fst st), snd st)
  end.

Definition loveRun (events : list LoveEvent) (s : Love) (log : list Sound)
  : Love * list Sound :=
  fold_left loveStep events (s, log).

(* the YES rectangle contains the NO rectangle *)
Definition yesCoversNo (yesRect noRect : Rect) : Prop :=
  rectLeft yesRect <= rectLeft noRect
  /\ rectTop yesRect <= rectTop noRect
  /\ rectRight noRect <= rectRight yesRect
  /\ rectBottom noRect <= rectBottom yesRect.

(* the event is a check that finds NO covered *)
Definition findsNoCovered (e : LoveEvent) : Prop :=
  match e with
  | NoClick => False
  | CoverCheck yesRect noRect => yesCoversNo yesRect noRect
  end.

(* the number of clicks among the events *)
Definition clicksIn (events : list LoveEvent) : nat :=
  length (List.filter (fun e => match e with NoClick => true | _ => false end)
            events).

Definition chocoStep (s : Choco) (op : ChocoOp) : Choco :=
  match op with
  | ChocoOpen index => fst (openChocoModal index s)
  | ChocoClose => closeChocoModal s
  end.

(* a sequence of openings and closings of the chocolate modal *)
Definition chocoRun (ops : list ChocoOp) (s : Choco) : Choco :=
  fold_left chocoStep ops s.

(* consecutive ticks of the FX loop at the given timestamps *)
Fixpoint fxTicks (tss : list Q) (s : Fx) : Rand Fx :=
  match tss with
  | [] => ret s
  | ts :: rest => do s' <- fxTick ts s ;; fxTicks rest s'
  end.

(* the update of the particle loop applied n times to one particle *)
Fixpoint updateParticleN (n : nat) (p : Particle.t) : Particle.t :=
  match n with
  | O => p
  | S n' => updateParticleN n' (updateParticle p)
  end.

(* the time step fxTick computes from a timestamp *)
Definition tickDt (ts : Q) (s : Fx) : Q := clamp (ts - fxLastTs s) 0 34 / 1000.

(* what an animation frame does to the wheel, given the sound log *)
Definition wheelAfterFrame (ts : Q) (w : Wheel) (log : list Sound) : Wheel :=
  match stage w with
  | NotRunning => w
  | Animating anim targetFinal =>
      let '(deg, _, anim', resolved) := step ts anim log in
      if resolved
      then mkWheel targetFinal (spinning w) (spinBtnDisabled w) false
             (prizeModalOpen w) FirstPaint
      else mkWheel deg (spinning w) (spinBtnDisabled w) (isSpinningClass w)
             (prizeModalOpen w) (Animating anim' targetFinal)
  | FirstPaint =>
      mkWheel (wheelRotation w) (spinning w) (spinBtnDisabled w) (isSpinningClass w)
        (prizeModalOpen w) SecondPaint
  | SecondPaint =>
      if negb (prefersReducedMotion host)
      then mkWheel (wheelRotation w) (spinning w) (spinBtnDisabled w)
             (isSpinningClass w) (prizeModalOpen w) SettlePause
      else mkWheel (wheelRotation w) false false (isSpinningClass w) true NotRunning
  | SettlePause => w
  end.

(* the angle the animation step shows at a timestamp *)
Definition angleAt (ts : Q) (anim : Animation) : Q :=
  fst (fst (fst (step ts anim []))).

(** ** Properties *)

(** *** Number primitives *)

Lemma Qle_bool_false (a b : Q) : Qle_bool a b = false -> b < a.
Proof.
  intros E. apply Qnot_le_lt. intros Hle.
  apply Qle_bool_iff in Hle. congruence.
Qed.

Lemma ltb_true (a b : Q) : JS.ltb a b = true <-> a < b.
Proof.
  unfold JS.ltb. destruct (Qle_bool b a) eqn:E; simpl.
  - apply Qle_bool_iff in E. split; [discriminate | intros; lra].
  - apply Qle_bool_false in E. split; auto.
Qed.

Lemma ltb_false (a b : Q) : JS.ltb a b = false <-> b <= a.
Proof.
  unfold JS.ltb. destruct (Qle_bool b a) eqn:E; simpl.
  - apply Qle_bool_iff in E. split; auto.
  - apply Qle_bool_false in E. split; [discriminate | intros; lra].
Qed.

Lemma leb_true (a b : Q) : JS.leb a b = true <-> a <= b.
Proof. apply Qle_bool_iff. Qed.

Lemma leb_false (a b : Q) : JS.leb a b = false <-> b < a.
Proof.
  unfold JS.leb. split.
  - apply Qle_bool_false.
  - intros Hlt. destruct (Qle_bool a b) eqn:E; [|reflexivity].
    apply Qle_bool_iff in E. lra.
Qed.

Lemma Math_max_spec (a b : Q) :
  (a <= b /\ Math_max a b = b) \/ (b < a /\ Math_max a b = a).
Proof.
  unfold Math_max. destruct (Qle_bool a b) eqn:E.
  - left. split; [now apply Qle_bool_iff | reflexivity].
  - right. split; [now apply Qle_bool_false | reflexivity].
Qed.

Lemma Math_min_spec (a b : Q) :
  (a <= b /\ Math_min a b = a) \/ (b < a /\ Math_min a b = b).
Proof.
  unfold Math_min. destruct (Qle_bool a b) eqn:E.
  - left. split; [now apply Qle_bool_iff | reflexivity].
  - right. split; [now apply Qle_bool_false | reflexivity].
Qed.

Lemma clamp_bounds (n lo hi : Q) :
  lo <= hi -> lo <= clamp n lo hi /\ clamp n lo hi <= hi.
Proof.
  intros Hlh. unfold clamp.
  destruct (Math_min_spec hi n) as [[? ->] | [? ->]];
    destruct (Math_max_spec lo hi) as [[? E1] | [? E1]];
    destruct (Math_max_spec lo n) as [[? E2] | [? E2]];
    rewrite ?E1, ?E2; lra.
Qed.

Lemma clamp_inside (n lo hi : Q) :
  lo <= n -> n <= hi -> clamp n lo hi == n.
Proof.
  intros H1 H2. unfold clamp.
  destruct (Math_min_spec hi n) as [[? ->] | [? ->]];
    destruct (Math_max_spec lo hi) as [[? E1] | [? E1]];
    destruct (Math_max_spec lo n) as [[? E2] | [? E2]];
    rewrite ?E1, ?E2; lra.
Qed.

Lemma inject_Z_lt_1 (k : Z) : -1 < inject_Z k -> inject_Z k < 1 -> k = 0%Z.
Proof.
  intros H1 H2.
  assert (A : (-1 < k)%Z) by (rewrite Zlt_Qlt; exact H1).
  assert (B : (k < 1)%Z) by (rewrite Zlt_Qlt; exact H2).
  lia.
Qed.

Lemma Qfloor_unique (x : Q) (z : Z) :
  inject_Z z <= x -> x < inject_Z z + 1 -> Qfloor x = z.
Proof.
  intros Hlo Hhi.
  pose proof (Qfloor_le x) as F1. pose proof (Qlt_floor x) as F2.
  rewrite inject_Z_plus in F2.
  assert (D : inject_Z (Qfloor x - z) == inject_Z (Qfloor x) - inject_Z z).
  { unfold Z.sub. rewrite inject_Z_plus, inject_Z_opp. reflexivity. }
  assert (K : (Qfloor x - z = 0)%Z).
  { apply inject_Z_lt_1; rewrite D; change (inject_Z 1) with 1 in F2; lra. }
  lia.
Qed.

Lemma trunc_nonneg (x : Q) : 0 <= x -> trunc x = Qfloor x.
Proof.
  intros Hx. unfold trunc.
  destruct (Qle_bool 0 x) eqn:E; [reflexivity|].
  apply Qle_bool_false in E. lra.
Qed.

Lemma div_mul_cancel (a b : Q) : 0 < b -> b * (a / b) == a.
Proof. intros Hb. field. lra. Qed.

(* a % b for a positive divisor: the quotient is an integer and the
   remainder is smaller than the divisor in absolute value *)
Lemma rem_spec (a b : Q) :
  0 < b ->
  exists k : Z,
    JS.rem a b == a - b * inject_Z k
    /\ - b < JS.rem a b /\ JS.rem a b < b /\ (0 <= a -> 0 <= JS.rem a b).
Proof.
  intros Hb. unfold JS.rem. exists (trunc (a / b)).
  split; [reflexivity|].
  pose proof (div_mul_cancel a b Hb) as Hq.
  set (q := a / b) in *.
  unfold trunc. destruct (Qle_bool 0 q) eqn:E.
  - apply Qle_bool_iff in E.
    pose proof (Qfloor_le q) as F1. pose proof (Qlt_floor q) as F2.
    rewrite inject_Z_plus in F2. change (inject_Z 1) with 1 in F2.
    assert (0 <= inject_Z (Qfloor q)).
    { change 0 with (inject_Z 0). rewrite <- Zle_Qle.
      apply (Qfloor_resp_le 0 q). exact E. }
    repeat split; try intros _; nra.
  - apply Qle_bool_false in E.
    pose proof (Qle_ceiling q) as F1. pose proof (Qceiling_lt q) as F2.
    unfold Z.sub in F2.
    rewrite inject_Z_plus, inject_Z_opp in F2. change (inject_Z 1) with 1 in F2.
    assert (inject_Z (Qceiling q) <= 0).
    { change 0 with (inject_Z 0). rewrite <- Zle_Qle.
      apply (Qceiling_resp_le q 0). lra. }
    repeat split; try (intros Ha; exfalso); nra.
Qed.

Lemma normDeg_spec (x : Q) :
  exists k : Z,
    normDeg x == x + 360 * inject_Z k /\ 0 <= normDeg x /\ normDeg x < 360.
Proof.
  unfold normDeg.
  destruct (rem_spec x 360 ltac:(lra)) as (k1 & E1 & L1 & U1 & _).
  destruct (rem_spec (JS.rem x 360 + 360) 360 ltac:(lra)) as (k2 & E2 & L2 & U2 & P2).
  exists (- k1 - k2 + 1)%Z. split; [|split; [apply P2; lra | exact U2]].
  rewrite E2, E1.
  unfold Z.sub. rewrite !inject_Z_plus, !inject_Z_opp.
  change (inject_Z 1) with 1. ring.
Qed.

Lemma normDeg_unique (x y : Q) (k : Z) :
  0 <= y -> y < 360 -> x == y + 360 * inject_Z k -> normDeg x == y.
Proof.
  intros Hy0 Hy1 Hx.
  destruct (normDeg_spec x) as (k' & E & L & U).
  assert (D : inject_Z (k + k') == inject_Z k + inject_Z k')
    by (rewrite inject_Z_plus; reflexivity).
  assert (K : (k + k' = 0)%Z).
  { apply inject_Z_lt_1; rewrite D; nra. }
  assert (inject_Z k' == - inject_Z k).
  { assert (Z0 : inject_Z (k + k') == 0) by (rewrite K; reflexivity). lra. }
  lra.
Qed.

(** *** The rigged stop angle *)

Lemma sectorSize_72 : sectorSize == 72.
Proof. reflexivity. Qed.

Lemma sectorCenter_prize : sectorCenterAngle prizeIndex == 180.
Proof. reflexivity. Qed.

(* the offset is the mirror image of the jittered point of the winning
   sector: 180 minus the jitter, the outer [% 360] removing one turn *)
Lemma computeRiggedStopAngle_value (k : nat) :
  fst (computeRiggedStopAngle k) == 180 - (rnd k * 43.2 - 21.6)
  /\ snd (computeRiggedStopAngle k) = S k.
Proof.
  unfold computeRiggedStopAngle, bind, Math_random, ret. simpl.
  split; [|reflexivity].
  destruct (rnd_unit k) as [U0 U1].
  pose proof sectorSize_72 as S72. pose proof sectorCenter_prize as C180.
  set (within := rnd k * (sectorSize * 0.6) - sectorSize * 0.3).
  assert (Hw : within == rnd k * 43.2 - 21.6) by (unfold within; rewrite S72; ring).
  set (X := 360 - (sectorCenterAngle prizeIndex + within) + 360).
  assert (HX : X == 540 - within) by (unfold X; rewrite C180; ring).
  unfold JS.rem.
  pose proof (div_mul_cancel X 360 ltac:(lra)) as Hq.
  set (q := X / 360) in *.
  assert (Hq1 : 1 <= q) by lra.
  assert (Hq2 : q < 2) by lra.
  rewrite trunc_nonneg by lra.
  rewrite (Qfloor_unique q 1) by (change (inject_Z 1) with 1; lra).
  change (inject_Z 1) with 1. lra.
Qed.

Lemma extraSpins_integer (u : Q) :
  0 <= u -> u < 1 ->
  exists e : Z, 7 + Math_floor (u * 3) == inject_Z e /\ (7 <= e <= 9)%Z.
Proof.
  intros U0 U1. unfold Math_floor.
  exists (7 + Qfloor (u * 3))%Z. split.
  - rewrite inject_Z_plus. reflexivity.
  - assert (A : (Qfloor 0 <= Qfloor (u * 3))%Z) by (apply Qfloor_resp_le; lra).
    assert (B : (Qfloor (u * 3) <= Qfloor 3)%Z) by (apply Qfloor_resp_le; lra).
    assert (C : Qfloor (u * 3) <> 3%Z).
    { intros E. pose proof (Qfloor_le (u * 3)) as L. rewrite E in L.
      change (inject_Z 3) with 3 in L. lra. }
    change (Qfloor 0) with 0%Z in A. change (Qfloor 3) with 3%Z in B. lia.
Qed.

(* targetFinal decomposed: whole turns plus the forward delta, and its
   residue modulo 360 is exactly the rigged offset *)
Lemma spinTarget_shape (rotation : Q) (k : nat) :
  let target := fst (spinTarget rotation k) in
  let offset := fst (computeRiggedStopAngle k) in
  7 * 360 <= target - rotation
  /\ target - rotation < 10 * 360
  /\ normDeg target == offset
  /\ snd (spinTarget rotation k) = S (S k).
Proof.
  unfold spinTarget, bind.
  pose proof (computeRiggedStopAngle_value k) as [Hoff Hk].
  destruct (computeRiggedStopAngle k) as [offset k1]. simpl in Hoff, Hk. subst k1.
  unfold Math_random, ret. simpl.
  destruct (rnd_unit k) as [U0 U1].
  destruct (rnd_unit (S k)) as [V0 V1].
  destruct (extraSpins_integer (rnd (S k)) V0 V1) as (e & He & Hrange).
  destruct (normDeg_spec rotation) as (kc & Ec & Lc & Uc).
  set (cm := normDeg rotation) in *.
  destruct (rem_spec (offset - cm + 360) 360 ltac:(lra)) as (kd & Ed & _ & Ud & Pd).
  set (delta := JS.rem (offset - cm + 360) 360) in *.
  assert (Pd' : 0 <= delta) by (apply Pd; lra).
  set (extra := 7 + Math_floor (rnd (S k) * 3)) in *.
  assert (E7 : 7 <= inject_Z e) by (change 7 with (inject_Z 7); rewrite <- Zle_Qle; lia).
  assert (E9 : inject_Z e <= 9) by (change 9 with (inject_Z 9); rewrite <- Zle_Qle; lia).
  repeat split; try lra.
  apply (normDeg_unique _ offset (e - kc - kd + 1)); try lra.
  unfold Z.sub. rewrite !inject_Z_plus, !inject_Z_opp.
  change (inject_Z 1) with 1. lra.
Qed.

(* the target lies ahead of the start, its residue modulo 360 is within 0.3
   sector sizes of the centre of the prize sector, and both the sector index
   of the target and the sector met at angle 0 are the prize index *)
Lemma spinTarget_on_prize_sector (rotation : Q) (k : nat) :
  let target := fst (spinTarget rotation k) in
  let lo := prizeIndex * sectorSize in
  let hi := (prizeIndex + 1) * sectorSize in
  let jitter := 0.3 * sectorSize in
  0 < target - rotation
  /\ (sectorCenterAngle prizeIndex - jitter < normDeg target
      /\ normDeg target <= sectorCenterAngle prizeIndex + jitter)
  /\ (lo <= normDeg target /\ normDeg target < hi)
  /\ (lo - jitter <= normDeg target /\ normDeg target < hi + jitter)
  /\ sectorIndexAt target == prizeIndex
  /\ sectorIndexAt (- target) == prizeIndex.
Proof.
  intros target lo hi jitter.
  destruct (spinTarget_shape rotation k) as (Hfwd & _ & Hnorm & _).
  destruct (computeRiggedStopAngle_value k) as [Hoff _].
  destruct (rnd_unit k) as [U0 U1].
  fold target in Hfwd, Hnorm.
  assert (S72 : sectorSize == 72) by reflexivity.
  assert (C180 : sectorCenterAngle prizeIndex == 180) by reflexivity.
  assert (Hlo : lo == 144) by reflexivity.
  assert (Hhi : hi == 216) by reflexivity.
  assert (Hj : jitter == 21.6) by reflexivity.
  assert (N1 : 158.4 < normDeg target) by lra.
  assert (N2 : normDeg target <= 201.6) by lra.
  assert (Idx : forall m : Q, 158.4 <= m -> m <= 201.6 ->
                Math_floor (m / sectorSize) == prizeIndex).
  { intros m M1 M2. unfold Math_floor.
    pose proof (div_mul_cancel m sectorSize ltac:(lra)) as Hq.
    set (q := m / sectorSize) in *.
    rewrite (Qfloor_unique q 2); [reflexivity | |];
      change (inject_Z 2) with 2; nra. }
  repeat split; try lra.
  - unfold sectorIndexAt. apply Idx; lra.
  - unfold sectorIndexAt. apply Idx.
    + destruct (normDeg_spec target) as (k1 & E1 & _ & _).
      assert (E : normDeg (- target) == 360 - normDeg target).
      { apply (normDeg_unique _ _ (k1 - 1)); try lra.
        unfold Z.sub. rewrite inject_Z_plus, inject_Z_opp.
        change (inject_Z 1) with 1. lra. }
      lra.
    + destruct (normDeg_spec target) as (k1 & E1 & _ & _).
      assert (E : normDeg (- target) == 360 - normDeg target).
      { apply (normDeg_unique _ _ (k1 - 1)); try lra.
        unfold Z.sub. rewrite inject_Z_plus, inject_Z_opp.
        change (inject_Z 1) with 1. lra. }
      lra.
Qed.

(** *** The three-segment spin profile *)

Lemma spinProfile_accel (t : Q) :
  0 < t -> t < 0.18 -> spinProfile t == 0.12 * easeInCubic (t / 0.18).
Proof.
  intros T0 T1. unfold spinProfile.
  destruct (JS.leb t 0) eqn:E0; [apply leb_true in E0; lra|].
  destruct (JS.leb 1 t) eqn:E1; [apply leb_true in E1; lra|].
  destruct (JS.ltb t 0.18) eqn:E2; [reflexivity|].
  apply ltb_false in E2. lra.
Qed.

Lemma spinProfile_cruise (t : Q) :
  0.18 <= t -> t < 0.72 ->
  spinProfile t == 0.12 + (0.86 - 0.12) * ((t - 0.18) / (0.72 - 0.18)).
Proof.
  intros T0 T1. unfold spinProfile.
  destruct (JS.leb t 0) eqn:E0; [apply leb_true in E0; lra|].
  destruct (JS.leb 1 t) eqn:E1; [apply leb_true in E1; lra|].
  destruct (JS.ltb t 0.18) eqn:E2; [apply ltb_true in E2; lra|].
  destruct (JS.ltb t 0.72) eqn:E3; [reflexivity|].
  apply ltb_false in E3. lra.
Qed.

Lemma spinProfile_decel (t : Q) :
  0.72 <= t -> t < 1 ->
  spinProfile t == 0.86 + (1 - 0.86) * easeOutCubic ((t - 0.72) / (1 - 0.72)).
Proof.
  intros T0 T1. unfold spinProfile.
  destruct (JS.leb t 0) eqn:E0; [apply leb_true in E0; lra|].
  destruct (JS.leb 1 t) eqn:E1; [apply leb_true in E1; lra|].
  destruct (JS.ltb t 0.18) eqn:E2; [apply ltb_true in E2; lra|].
  destruct (JS.ltb t 0.72) eqn:E3; [apply ltb_true in E3; lra|].
  reflexivity.
Qed.


(** *** Rain layout arithmetic *)

Lemma Qle_bool_inject_Z (a b : Z) :
  Qle_bool (inject_Z a) (inject_Z b) = (a <=? b)%Z.
Proof.
  destruct (a <=? b)%Z eqn:E.
  - apply Qle_bool_iff. rewrite <- Zle_Qle. lia.
  - destruct (Qle_bool (inject_Z a) (inject_Z b)) eqn:E'; [|reflexivity].
    apply Qle_bool_iff in E'. rewrite <- Zle_Qle in E'. lia.
Qed.

Lemma Math_max_inject_Z (a b : Z) :
  Math_max (inject_Z a) (inject_Z b) = inject_Z (Z.max a b).
Proof.
  unfold Math_max. rewrite Qle_bool_inject_Z.
  destruct (a <=? b)%Z eqn:E; f_equal; lia.
Qed.

Lemma Math_min_inject_Z (a b : Z) :
  Math_min (inject_Z a) (inject_Z b) = inject_Z (Z.min a b).
Proof.
  unfold Math_min. rewrite Qle_bool_inject_Z.
  destruct (a <=? b)%Z eqn:E; f_equal; lia.
Qed.

Lemma clamp_inject_Z (n lo hi : Z) :
  clamp (inject_Z n) (inject_Z lo) (inject_Z hi)
  = inject_Z (Z.max lo (Z.min hi n)).
Proof.
  unfold clamp. rewrite Math_min_inject_Z, Math_max_inject_Z. reflexivity.
Qed.

Lemma desiredRainCount_int :
  desiredRainCount = inject_Z (specTargetCount (innerWidth host)).
Proof.
  unfold desiredRainCount, specTargetCount, Math_floor, W.
  change 44 with (inject_Z 44). rewrite <- Zdiv_Qdiv.
  apply (clamp_inject_Z _ 12 30).
Qed.

Lemma round_22_percent (w : Z) :
  Qfloor (inject_Z w * 0.22 + (1 # 2)) = ((22 * w + 50) / 100)%Z.
Proof.
  rewrite Zdiv_Qdiv. apply Qfloor_comp.
  rewrite inject_Z_plus, inject_Z_mult.
  change (inject_Z 22) with 22. change (inject_Z 50) with 50.
  change (inject_Z 100) with 100. field.
Qed.

Lemma sideBandWidth_int :
  sideBandWidth = inject_Z (specBandWidth (innerWidth host)).
Proof.
  unfold sideBandWidth, specBandWidth, Math_round, W.
  rewrite round_22_percent.
  apply (clamp_inject_Z _ 140 280).
Qed.

Lemma specTargetCount_range (w : Z) :
  (12 <= specTargetCount w <= 30)%Z.
Proof. unfold specTargetCount. lia. Qed.

Lemma specBandWidth_range (w : Z) :
  (140 <= specBandWidth w <= 280)%Z.
Proof. unfold specBandWidth. lia. Qed.

(** *** The random-state monad *)

Lemma bind_run {A B : Type} (m : Rand A) (f : A -> Rand B) (k : nat) :
  bind m f k = f (fst (m k)) (snd (m k)).
Proof. unfold bind. destruct (m k). reflexivity. Qed.

Lemma mapM_length {A B : Type} (f : A -> Rand B) (l : list A) (k : nat) :
  length (fst (mapM f l k)) = length l.
Proof.
  revert k. induction l as [|v l IH]; intros k; simpl; [reflexivity|].
  rewrite !bind_run. simpl. rewrite IH. reflexivity.
Qed.

(* a property that every single step establishes holds of every element
   of the mapped list *)
Lemma mapM_Forall {A B : Type} (f : A -> Rand B) (P : A -> Prop) (R : B -> Prop)
    (l : list A) (k : nat) :
  (forall v j, P v -> R (fst (f v j))) ->
  Forall P l -> Forall R (fst (mapM f l k)).
Proof.
  intros Hf. revert k. induction l as [|v l IH]; intros k HP; simpl.
  - constructor.
  - rewrite !bind_run. simpl. inversion HP; subst.
    constructor; [apply Hf; assumption | apply IH; assumption].
Qed.

(** *** Growing and trimming the rain pool *)

Lemma ltb_nat (a b : nat) :
  JS.ltb (inject_Z (Z.of_nat a)) (inject_Z (Z.of_nat b)) = (a <? b)%nat.
Proof.
  destruct (a <? b)%nat eqn:E.
  - apply ltb_true. rewrite <- Zlt_Qlt. apply Nat.ltb_lt in E. lia.
  - apply ltb_false. rewrite <- Zle_Qle. apply Nat.ltb_ge in E. lia.
Qed.

Lemma growRain_length (fuel n : nat) (drops : list Drop.t) (k : nat) :
  (n <= length drops + fuel)%nat ->
  length (fst (growRain fuel (inject_Z (Z.of_nat n)) drops k))
  = Nat.max (length drops) n.
Proof.
  revert drops k. induction fuel as [|fuel IH]; intros drops k Hfuel; simpl.
  - lia.
  - rewrite ltb_nat. destruct (length drops <? n)%nat eqn:E.
    + apply Nat.ltb_lt in E. rewrite bind_run.
      rewrite IH; rewrite length_app; simpl; lia.
    + apply Nat.ltb_ge in E. simpl. lia.
Qed.

(* the drops already in the pool stay at the front, untouched *)
Lemma growRain_prefix (fuel : nat) (target : Q) (drops : list Drop.t) (k : nat) :
  exists added, fst (growRain fuel target drops k) = drops ++ added.
Proof.
  revert drops k. induction fuel as [|fuel IH]; intros drops k; simpl.
  - exists []. rewrite app_nil_r. reflexivity.
  - destruct (JS.ltb _ target).
    + rewrite bind_run.
      destruct (IH (drops ++ [fst (resetDrop Drop.empty true false k)])
                  (snd (resetDrop Drop.empty true false k))) as [added E].
      rewrite E. rewrite <- app_assoc. eexists. reflexivity.
    + exists []. rewrite app_nil_r. reflexivity.
Qed.

(** *** Random indices and the shuffle *)

(* (x | 0) is the floor of x for a non-negative x below 2^31 *)
Lemma toInt32_range (x : Q) (n : Z) :
  0 <= x -> x < inject_Z n -> (n <= 2 ^ 31)%Z ->
  (0 <= toInt32 x < n)%Z.
Proof.
  intros X0 X1 Hn. unfold toInt32. rewrite trunc_nonneg by assumption.
  assert (A : (0 <= Qfloor x)%Z) by (apply (Qfloor_resp_le 0 x); assumption).
  assert (B : (Qfloor x < n)%Z).
  { rewrite Zlt_Qlt. pose proof (Qfloor_le x). lra. }
  unfold wrap32. rewrite Z.mod_small; lia.
Qed.

Lemma random_index (k : nat) (n : Z) :
  (0 < n <= 2 ^ 31)%Z -> (0 <= toInt32 (rnd k * inject_Z n) < n)%Z.
Proof.
  intros Hn. destruct (rnd_unit k) as [U0 U1].
  assert (N : 0 < inject_Z n).
  { change 0 with (inject_Z 0). rewrite <- Zlt_Qlt. lia. }
  apply toInt32_range; [nra | nra | lia].
Qed.

Lemma get_in_range {A : Type} (arr : list A) (j : Z) :
  (0 <= j < Z.of_nat (length arr))%Z ->
  exists v, JS.get arr j = Some v /\ arr !! Z.to_nat j = Some v.
Proof.
  intros Hj. unfold JS.get.
  destruct (j <? 0)%Z eqn:E; [apply Z.ltb_lt in E; lia|].
  destruct (lookup_lt_is_Some_2 arr (Z.to_nat j)) as [v Hv]; [lia|].
  exists v. split; assumption.
Qed.

(* with a draw from the unit interval the exchange of arr[i] and arr[j]
   reads two existing cells *)
Lemma swap_in_range {A : Type} (arr : list A) (i k : nat) :
  (i < length arr)%nat -> (Z.of_nat i < 2 ^ 31)%Z ->
  let j := toInt32 (rnd k * (inject_Z (Z.of_nat i) + 1)) in
  exists ai aj,
    arr !! i = Some ai /\ arr !! Z.to_nat j = Some aj
    /\ swap arr i j = <[Z.to_nat j := ai]> (<[i := aj]> arr).
Proof.
  intros Hi Hbig j.
  assert (Hj : (0 <= j < Z.of_nat i + 1)%Z).
  { unfold j. destruct (rnd_unit k) as [U0 U1].
    assert (0 <= inject_Z (Z.of_nat i)).
    { change 0 with (inject_Z 0). rewrite <- Zle_Qle. lia. }
    apply toInt32_range; [nra | | lia].
    rewrite inject_Z_plus. change (inject_Z 1) with 1. nra. }
  destruct (lookup_lt_is_Some_2 arr i Hi) as [ai Hai].
  destruct (get_in_range arr j) as (aj & Hg & Haj); [lia|].
  exists ai, aj. unfold swap. rewrite Hai, Hg. auto.
Qed.

Lemma shuffleLoop_Permutation {A : Type} (i : nat) (arr : list A) (k : nat) :
  (i < length arr)%nat -> (Z.of_nat i < 2 ^ 31)%Z ->
  fst (shuffleLoop i arr k) ≡ₚ arr.
Proof.
  revert arr k. induction i as [|i IH]; intros arr k Hi Hbig; simpl.
  - reflexivity.
  - rewrite bind_run. unfold Math_random at 1 2. simpl fst. simpl snd.
    destruct (swap_in_range arr (S i) k Hi Hbig) as (ai & aj & Hai & Haj & Hsw).
    cbv zeta in Hsw. rewrite Hsw.
    rewrite IH.
    + apply Permutation_insert_swap; assumption.
    + rewrite !length_insert. lia.
    + lia.
Qed.

Lemma shuffleInPlace_Permutation {A : Type} (arr : list A) (k : nat) :
  (Z.of_nat (length arr) <= 2 ^ 31)%Z ->
  fst (shuffleInPlace arr k) ≡ₚ arr.
Proof.
  intros Hbig. unfold shuffleInPlace.
  destruct arr as [|v arr]; [reflexivity|].
  apply shuffleLoop_Permutation; simpl in *; lia.
Qed.

(** *** Side assignment *)

Lemma Side_eq_dec (a b : Side) : {a = b} + {a <> b}.
Proof. decide equality. Defined.

Lemma count_occ_replicate (sd v : Side) (n : nat) :
  count_occ Side_eq_dec (replicate n v) sd = if Side_eq_dec v sd then n else O.
Proof.
  induction n as [|n IH]; simpl.
  - destruct (Side_eq_dec v sd); reflexivity.
  - rewrite IH. destruct (Side_eq_dec v sd); reflexivity.
Qed.

Lemma lookups_seq {A : Type} (l : list A) :
  map (fun j => l !! j) (seq 0 (length l)) = map Some l.
Proof.
  induction l as [|v l IH]; simpl; [reflexivity|].
  f_equal. rewrite <- seq_shift, map_map. exact IH.
Qed.

Lemma resetDrop_side (d : Drop.t) (startAbove keepSide : bool) (k : nat) :
  Drop.side (fst (resetDrop d startAbove keepSide k))
  = if negb keepSide || (match Drop.side d with None => true | Some _ => false end)
    then Some (if JS.ltb (rnd (S (S k))) 0.5 then Left else Right)
    else Drop.side d.
Proof.
  unfold resetDrop, rand, bind, Math_random, ret.
  destruct startAbove, keepSide, (Drop.side d) as [sd|]; cbn [negb orb];
    match goal with |- context [sideBounds ?s] => destruct (sideBounds s) end;
    reflexivity.
Qed.

(* the fresh x is a convex combination of the band edges of the new side *)
Lemma resetDrop_x (d : Drop.t) (startAbove keepSide : bool) (k : nat) :
  let d' := fst (resetDrop d startAbove keepSide k) in
  exists u : Q,
    0 <= u /\ u < 1
    /\ Drop.x d' = fst (sideBounds (Drop.side d'))
                   + u * (snd (sideBounds (Drop.side d')) - fst (sideBounds (Drop.side d'))).
Proof.
  unfold resetDrop, rand, bind, Math_random, ret.
  destruct startAbove, keepSide, (Drop.side d) as [sd|]; cbn [negb orb];
    match goal with |- context [sideBounds ?s] => destruct (sideBounds s) eqn:E end;
    cbn [fst snd Drop.x Drop.side]; rewrite E; cbn [fst snd];
    eexists; (split; [|split; [|reflexivity]]); apply rnd_unit.
Qed.

Lemma resetDrop_keeps_side (d : Drop.t) (startAbove : bool) (k : nat) (sd : Side) :
  Drop.side d = Some sd ->
  Drop.side (fst (resetDrop d startAbove true k)) = Some sd.
Proof. intros E. rewrite resetDrop_side, E. reflexivity. Qed.

Lemma assignSides_sides (sides : list Side) (i : nat) (drops : list Drop.t)
    (k : nat) :
  map Drop.side (fst (assignSides sides i drops k))
  = map (fun j => sides !! j) (seq i (length drops)).
Proof.
  revert i k. induction drops as [|d rest IH]; intros i k; simpl.
  - reflexivity.
  - destruct (sideBounds (sides !! i)) as [minX maxX].
    rewrite !bind_run. simpl. rewrite IH. f_equal.
    destruct (JS.ltb _ minX || JS.ltb maxX _).
    + rewrite bind_run. reflexivity.
    + reflexivity.
Qed.

Lemma assignSides_length (sides : list Side) (i : nat) (drops : list Drop.t)
    (k : nat) :
  length (fst (assignSides sides i drops k)) = length drops.
Proof.
  rewrite <- (length_map Drop.side), assignSides_sides, length_map, length_seq.
  reflexivity.
Qed.

Lemma sideCount_of_sides (sd : Side) (drops : list Drop.t) (sides : list Side) :
  map Drop.side drops = map Some sides ->
  sideCount sd drops = count_occ Side_eq_dec sides sd.
Proof.
  revert sides. induction drops as [|d rest IH]; intros [|s sides] E;
    simpl in E; try discriminate; simpl; [reflexivity|].
  injection E as E1 E2. rewrite (IH sides E2).
  unfold onSide. rewrite E1.
  destruct s, sd; destruct (Side_eq_dec _ _); congruence || reflexivity.
Qed.

Lemma sideCount_same_sides (sd : Side) (l1 l2 : list Drop.t) :
  map Drop.side l1 = map Drop.side l2 -> sideCount sd l1 = sideCount sd l2.
Proof.
  revert l2. induction l1 as [|d1 l1 IH]; intros [|d2 l2] E;
    simpl in E; try discriminate; simpl; [reflexivity|].
  injection E as E1 E2. rewrite (IH l2 E2). unfold onSide. rewrite E1.
  reflexivity.
Qed.

(* reseeding with keepSide leaves every assigned side as it is *)
Lemma reseed_sides (drops : list Drop.t) (k : nat) :
  Forall (fun d => Drop.side d <> None) drops ->
  map Drop.side (fst (mapM (fun d => resetDrop d true true) drops k))
  = map Drop.side drops.
Proof.
  revert k. induction drops as [|d rest IH]; intros k HF; simpl; [reflexivity|].
  inversion HF; subst. rewrite !bind_run. simpl.
  rewrite IH by assumption. f_equal.
  destruct (Drop.side d) as [sd|] eqn:E; [|congruence].
  apply resetDrop_keeps_side. exact E.
Qed.

(* what the balancing block of syncRainDrops does to a non-empty pool *)
Lemma balance_counts (sized : list Drop.t) (k : nat) :
  (length sized <= 30)%nat ->
  let n := length sized in
  let sides := fst (shuffleInPlace
                      (replicate (n / 2) Left ++ replicate (n - n / 2) Right) k) in
  let balanced := fst (assignSides sides 0 sized
                         (snd (shuffleInPlace
                                 (replicate (n / 2) Left ++ replicate (n - n / 2) Right) k))) in
  map Drop.side balanced = map Some sides
  /\ sideCount Left balanced = (n / 2)%nat
  /\ sideCount Right balanced = (n - n / 2)%nat.
Proof.
  intros Hn n sides balanced.
  set (init := replicate (n / 2) Left ++ replicate (n - n / 2) Right) in *.
  assert (Li : length init = n).
  { unfold init. rewrite length_app, !length_replicate.
    pose proof (Nat.Div0.div_le_upper_bound n 2 n ltac:(lia)). lia. }
  assert (P : sides ≡ₚ init).
  { apply shuffleInPlace_Permutation. rewrite Li. unfold n. lia. }
  assert (Ls : length sides = n).
  { rewrite (Permutation_length P). exact Li. }
  assert (M : map Drop.side balanced = map Some sides).
  { unfold balanced. rewrite assignSides_sides. fold n. rewrite <- Ls.
    apply lookups_seq. }
  split; [exact M|].
  pose proof (proj1 (Permutation_count_occ Side_eq_dec sides init) P) as C.
  split; rewrite (sideCount_of_sides _ _ _ M), C; unfold init;
    rewrite count_occ_app, !count_occ_replicate;
    repeat match goal with |- context [Side_eq_dec ?a ?b] =>
                          destruct (Side_eq_dec a b); try congruence end; lia.
Qed.

(** *** The rain pool after a sync *)

Lemma syncRainDrops_drops (reseed : bool) (s : Fx) (k : nat) :
  rainEnabled s = true ->
  let drops := rainDrops (fst (syncRainDrops reseed s k)) in
  length drops = Z.to_nat (specTargetCount (innerWidth host))
  /\ sideCount Left drops = (length drops / 2)%nat
  /\ sideCount Right drops = (length drops - length drops / 2)%nat.
Proof.
  intros Hen. unfold syncRainDrops. rewrite Hen. cbn [negb].
  pose proof (specTargetCount_range (innerWidth host)) as Hr.
  set (n := Z.to_nat (specTargetCount (innerWidth host))).
  assert (Ht : desiredRainCount = inject_Z (Z.of_nat n)).
  { rewrite desiredRainCount_int. unfold n. rewrite Z2Nat.id by lia. reflexivity. }
  rewrite Ht. rewrite Qceiling_Z, Qfloor_Z, Nat2Z.id.
  rewrite bind_run.
  set (g := growRain n (inject_Z (Z.of_nat n)) (rainDrops s) k).
  assert (Lg : length (fst g) = Nat.max (length (rainDrops s)) n).
  { unfold g. apply growRain_length. lia. }
  rewrite ltb_nat.
  set (sized := if (n <? length (fst g))%nat then take n (fst g) else fst g).
  assert (Lz : length sized = n).
  { unfold sized. destruct (n <? length (fst g))%nat eqn:E.
    - apply Nat.ltb_lt in E. rewrite length_take. lia.
    - apply Nat.ltb_ge in E. lia. }
  assert (Hpos : (0 <? length sized)%nat = true).
  { apply Nat.ltb_lt. rewrite Lz. unfold n. lia. }
  rewrite Hpos. rewrite !bind_run.
  destruct (balance_counts sized (snd g)) as (M & CL & CR).
  { rewrite Lz. unfold n. lia. }
  set (sh := shuffleInPlace
               (replicate (length sized / 2) Left
                ++ replicate (length sized - length sized / 2) Right) (snd g)) in *.
  set (bal := assignSides (fst sh) 0 sized (snd sh)) in *.
  assert (Lb : length (fst bal) = n).
  { unfold bal. rewrite assignSides_length. exact Lz. }
  destruct reseed.
  - cbn [ret fst rainDrops].
    set (fin := mapM (fun d => resetDrop d true true) (fst bal) (snd bal)).
    assert (Lf : length (fst fin) = n).
    { unfold fin. rewrite mapM_length. exact Lb. }
    assert (Sf : map Drop.side (fst fin) = map Drop.side (fst bal)).
    { unfold fin. apply reseed_sides.
      apply List.Forall_forall. intros d Hd.
      apply (in_map Drop.side) in Hd. rewrite M in Hd.
      apply in_map_iff in Hd. destruct Hd as (sd & E & _).
      rewrite <- E. discriminate. }
    rewrite Lf, !(sideCount_same_sides _ _ _ Sf), CL, CR, Lz. auto.
  - cbn [ret fst snd rainDrops].
    rewrite Lb, CL, CR, Lz. auto.
Qed.

(** C6. After a sync with rain enabled, whatever pool and cursor it
    started from and with or without reseeding, the pool has exactly the
    target count of drops, every drop is on one of the two sides, and the
    left and right counts are floor(n/2) and n - floor(n/2), so they differ
    by at most one. *)
Theorem sync_reaches_target_and_balances_sides (reseed : bool) (s : Fx) (k : nat) :
  rainEnabled s = true ->
  let drops := rainDrops (fst (syncRainDrops reseed s k)) in
  inject_Z (Z.of_nat (length drops)) == desiredRainCount
  /\ (sideCount Left drops + sideCount Right drops = length drops)%nat
  /\ (sideCount Left drops <= sideCount Right drops)%nat
  /\ (sideCount Right drops <= sideCount Left drops + 1)%nat.
Proof.
  intros Hen drops.
  destruct (syncRainDrops_drops reseed s k Hen) as (L & CL & CR).
  fold drops in L, CL, CR.
  pose proof (specTargetCount_range (innerWidth host)) as Hr.
  split.
  - rewrite desiredRainCount_int, L, Z2Nat.id by lia. reflexivity.
  - rewrite CL, CR.
    pose proof (Nat.div_mod_eq (length drops) 2) as D.
    pose proof (Nat.mod_upper_bound (length drops) 2 ltac:(lia)) as B.
    lia.
Qed.

(** C5. For every viewport width the target pool size is
    clamp(floor(w / 44), 12, 30) and the band width is
    clamp(round(0.22 w), 140, 280); the pool a sync leaves has that target
    size, and at width 1000 this is 22 drops, a band 220 wide, 11 drops on
    the left and 11 on the right. *)
Theorem rain_layout_follows_viewport_width (reseed : bool) (s : Fx) (k : nat) :
  rainEnabled s = true ->
  let w := innerWidth host in
  let drops := rainDrops (fst (syncRainDrops reseed s k)) in
  desiredRainCount == inject_Z (specTargetCount w)
  /\ sideBandWidth == inject_Z (specBandWidth w)
  /\ Z.of_nat (length drops) = specTargetCount w
  /\ (w = 1000%Z ->
      length drops = 22%nat /\ sideBandWidth == 220
      /\ sideCount Left drops = 11%nat /\ sideCount Right drops = 11%nat).
Proof.
  intros Hen w drops.
  destruct (syncRainDrops_drops reseed s k Hen) as (L & CL & CR).
  fold drops in L, CL, CR. fold w in L.
  pose proof (specTargetCount_range w) as Hr.
  split; [rewrite desiredRainCount_int; reflexivity|].
  split; [rewrite sideBandWidth_int; reflexivity|].
  split; [rewrite L, Z2Nat.id by lia; reflexivity|].
  intros Hw.
  assert (L22 : length drops = 22%nat) by (rewrite L, Hw; reflexivity).
  split; [exact L22|].
  split; [rewrite sideBandWidth_int; fold w; rewrite Hw; reflexivity|].
  rewrite CL, CR, L22. split; reflexivity.
Qed.

(** *** Band confinement of the rain *)

Lemma sideBounds_default (s : option Side) :
  sideBounds (match s with None => Some Left | _ => s end) = sideBounds s.
Proof. destruct s as [[|]|]; reflexivity. Qed.

(* the left band is never empty; the right band is non-empty exactly
   when the viewport is at least 20 wide *)
Lemma sideBounds_ordered (s : option Side) :
  (20 <= innerWidth host)%Z ->
  fst (sideBounds s) <= snd (sideBounds s).
Proof.
  intros Hw.
  pose proof (specBandWidth_range (innerWidth host)) as Hb.
  assert (B1 : 140 <= sideBandWidth).
  { rewrite sideBandWidth_int. change 140 with (inject_Z 140).
    rewrite <- Zle_Qle. lia. }
  assert (W20 : 20 <= W).
  { unfold W. change 20 with (inject_Z 20). rewrite <- Zle_Qle. exact Hw. }
  unfold sideBounds.
  destruct s as [[|]|]; cbn [fst snd];
    match goal with
    | |- context [Math_max ?a ?b] =>
        destruct (Math_max_spec a b) as [[? ->] | [? ->]]
    end; lra.
Qed.

Lemma advanceDrop_side (dt : Q) (d : Drop.t) :
  Drop.side (advanceDrop dt d) = Drop.side d.
Proof.
  unfold advanceDrop. cbn [Drop.side].
  destruct (sideBounds _) as [minX maxX].
  repeat match goal with |- context [if ?c then _ else _] => destruct c end;
    reflexivity.
Qed.

(* after the two edge tests the position is inside the band; a drop that
   would have left the band sits on the edge it crossed, with its
   horizontal velocity pointing back inside; any other drop just moved *)
Lemma advanceDrop_inBand (dt : Q) (d : Drop.t) :
  fst (sideBounds (Drop.side d)) <= snd (sideBounds (Drop.side d)) ->
  let d' := advanceDrop dt d in
  let x1 := Drop.x d + Drop.vx d * dt in
  let minX := fst (sideBounds (Drop.side d)) in
  let maxX := snd (sideBounds (Drop.side d)) in
  inBand d'
  /\ (x1 < minX -> Drop.x d' = minX /\ Drop.vx d' = Math_abs (Drop.vx d))
  /\ (maxX < x1 -> Drop.x d' = maxX /\ Drop.vx d' = - Math_abs (Drop.vx d))
  /\ (minX <= x1 -> x1 <= maxX -> Drop.x d' = x1 /\ Drop.vx d' = Drop.vx d).
Proof.
  intros Hord d' x1 minX maxX. unfold inBand.
  assert (Sd : Drop.side d' = Drop.side d) by apply advanceDrop_side.
  rewrite Sd. fold minX maxX.
  unfold d', advanceDrop. clear Sd d'.
  destruct d as [icon size side x y vy vx phase vphase alpha].
  cbn [Drop.side Drop.x Drop.vx] in *.
  replace (sideBounds (match side with Some s0 => Some s0 | None => Some Left end))
    with (sideBounds side) by (destruct side as [[|]|]; reflexivity).
  destruct (sideBounds side) as [lo hi]. cbn [fst snd] in *.
  subst minX maxX. fold x1.
  destruct (JS.ltb x1 lo) eqn:E1.
  - apply ltb_true in E1.
    unfold Drop.with_vx, Drop.with_x; cbn [Drop.x].
    destruct (JS.ltb hi lo) eqn:E2.
    + apply ltb_true in E2. lra.
    + apply ltb_false in E2. cbn [Drop.x Drop.vx].
      repeat split; try lra; try reflexivity; try (exfalso; lra).
  - apply ltb_false in E1. cbn [Drop.x].
    destruct (JS.ltb hi x1) eqn:E2.
    + apply ltb_true in E2.
      unfold Drop.with_vx, Drop.with_x; cbn [Drop.x Drop.vx].
      repeat split; try lra; try reflexivity; try (exfalso; lra).
    + apply ltb_false in E2. cbn [Drop.x Drop.vx].
      repeat split; try lra; try reflexivity; try (exfalso; lra).
Qed.

(* below width 20 the right band has its upper edge under its lower
   edge, and every advance leaves a right-side drop on the upper edge,
   outside the band *)
Lemma right_band_inverted_below_20 (dt : Q) (d : Drop.t) :
  (innerWidth host < 20)%Z ->
  Drop.side d = Some Right ->
  snd (sideBounds (Some Right)) < fst (sideBounds (Some Right))
  /\ Drop.x (advanceDrop dt d) = snd (sideBounds (Some Right))
  /\ ~ inBand (advanceDrop dt d).
Proof.
  intros Hw Hs.
  assert (Hinv : snd (sideBounds (Some Right)) < fst (sideBounds (Some Right))).
  { assert (W20 : W < 20).
    { unfold W. change 20 with (inject_Z 20). rewrite <- Zlt_Qlt. exact Hw. }
    unfold sideBounds. cbn [fst snd].
    destruct (Math_max_spec 10 (W - sideBandWidth + 10)) as [[? ->] | [? ->]]; lra. }
  assert (Hx : Drop.x (advanceDrop dt d) = snd (sideBounds (Some Right))).
  { unfold advanceDrop.
    destruct d as [icon size side x y vy vx phase vphase alpha].
    cbn [Drop.side Drop.x Drop.vx] in *. subst side.
    destruct (sideBounds (Some Right)) as [lo hi]. cbn [fst snd] in *.
    destruct (JS.ltb (x + vx * dt) lo) eqn:E1.
    - unfold Drop.with_vx, Drop.with_x; cbn [Drop.x].
      destruct (JS.ltb hi lo) eqn:E2; [reflexivity|].
      apply ltb_false in E2. lra.
    - apply ltb_false in E1. cbn [Drop.x].
      destruct (JS.ltb hi (x + vx * dt)) eqn:E2; [reflexivity|].
      apply ltb_false in E2. lra. }
  split; [exact Hinv|]. split; [exact Hx|].
  unfold inBand. rewrite advanceDrop_side, Hs, Hx. lra.
Qed.

Lemma renderDrop_inBand (dt : Q) (d : Drop.t) (k : nat) :
  (20 <= innerWidth host)%Z ->
  inBand (fst (renderDrop dt true d k)).
Proof.
  intros Hw. unfold renderDrop. cbn [andb].
  destruct (JS.ltb (H + 36) (Drop.y (advanceDrop dt d))).
  - destruct (resetDrop_x (advanceDrop dt d) true true k) as (u & U0 & U1 & E).
    unfold inBand. rewrite E.
    pose proof (sideBounds_ordered
                  (Drop.side (fst (resetDrop (advanceDrop dt d) true true k))) Hw).
    nra.
  - cbn [ret fst].
    apply (advanceDrop_inBand dt d). apply sideBounds_ordered. exact Hw.
Qed.

(* a drop keeps its side through a frame, recycled or not *)
Lemma renderDrop_side (dt : Q) (advance : bool) (d : Drop.t) (k : nat) (sd : Side) :
  Drop.side d = Some sd ->
  Drop.side (fst (renderDrop dt advance d k)) = Some sd.
Proof.
  intros E. unfold renderDrop. destruct advance; cbn [andb].
  - destruct (JS.ltb _ _).
    + apply resetDrop_keeps_side. rewrite advanceDrop_side. exact E.
    + cbn [ret fst]. rewrite advanceDrop_side. exact E.
  - exact E.
Qed.

(* confinement holds at every viewport width from 20 upwards: a frame
   that advances the rain leaves every drop inside the band of its side,
   and so does any number of further frames *)
Lemma rain_confined_from_width_20 (dts : list Q) (s : Fx) (k : nat) :
  (20 <= innerWidth host)%Z ->
  Forall inBand (rainDrops s) ->
  Forall inBand (rainDrops (fst (renderFrames dts s k))).
Proof.
  intros Hw. revert s k. induction dts as [|dt dts IH]; intros s k Hin.
  - exact Hin.
  - cbn [renderFrames]. rewrite bind_run. apply IH.
    unfold renderFxFrame. destruct (negb (fxCtx host)); [exact Hin|].
    rewrite bind_run. cbn [ret fst rainDrops].
    destruct (rainEnabled s && (0 <? length (rainDrops s))%nat); [|exact Hin].
    apply (mapM_Forall _ (fun _ => True)).
    + intros d j _. apply renderDrop_inBand. exact Hw.
    + apply List.Forall_forall. intros; exact I.
Qed.

(** *** The particle loop *)

Lemma stepParticles_origin (ps : list Particle.t) (q : Particle.t) :
  In q (stepParticles ps) ->
  exists p, In p ps /\ q = updateParticle p /\ expired q = false.
Proof.
  induction ps as [|p rest IH]; simpl; [intros []|].
  destruct (expired (updateParticle p)) eqn:E.
  - intros Hq. destruct (IH Hq) as (p0 & Hin & Hq0 & Hx).
    exists p0. split; [right; exact Hin | split; assumption].
  - intros [<- | Hq].
    + exists p. split; [left; reflexivity | split; [reflexivity | exact E]].
    + destruct (IH Hq) as (p0 & Hin & Hq0 & Hx).
      exists p0. split; [right; exact Hin | split; assumption].
Qed.

Lemma not_expired_alive (q : Particle.t) :
  expired q = false -> 0 < Particle.a q.
Proof.
  unfold expired. intros E. apply orb_false_iff in E as [E _].
  apply leb_false in E. exact E.
Qed.

(* a particle that survives a frame lost exactly its decay rate *)
Lemma survivor_opacity (p : Particle.t) :
  expired (updateParticle p) = false ->
  Particle.a (updateParticle p) = Particle.a p - Particle.va p
  /\ Particle.va (updateParticle p) = Particle.va p.
Proof.
  intros E. apply not_expired_alive in E. split; [|reflexivity].
  cbn [updateParticle Particle.a] in *.
  destruct (Math_max_spec 0 (Particle.a p - Particle.va p)) as [[_ M] | [L M]];
    rewrite M in *; [reflexivity | lra].
Qed.

Lemma stepParticles_alive (ps : list Particle.t) :
  Forall (fun p => 0 < Particle.a p) (stepParticles ps).
Proof.
  apply List.Forall_forall. intros q Hq.
  destruct (stepParticles_origin ps q Hq) as (_ & _ & _ & E).
  apply not_expired_alive. exact E.
Qed.

Lemma stepParticlesN_alive (n : nat) (ps : list Particle.t) :
  (1 <= n)%nat -> Forall (fun p => 0 < Particle.a p) (stepParticlesN n ps).
Proof.
  revert ps. induction n as [|n IH]; intros ps Hn; [lia|].
  cbn [stepParticlesN]. destruct n as [|n].
  - apply stepParticles_alive.
  - apply IH. lia.
Qed.

Lemma stepParticlesN_nonneg (n : nat) (ps : list Particle.t) :
  Forall (fun p => 0 <= Particle.a p) ps ->
  Forall (fun p => 0 <= Particle.a p) (stepParticlesN n ps).
Proof.
  destruct n as [|n]; [auto|]. intros _.
  eapply Forall_impl; [apply (stepParticlesN_alive (S n) ps); lia|].
  cbn beta. intros p Hp. lra.
Qed.

(* once n decay steps exhaust the opacity of every particle, n frames
   empty the pool *)
Lemma stepParticlesN_drains (n : nat) (ps : list Particle.t) :
  (1 <= n)%nat ->
  Forall (fun p => Particle.a p - inject_Z (Z.of_nat n) * Particle.va p <= 0) ps ->
  stepParticlesN n ps = [].
Proof.
  revert ps. induction n as [|n IH]; intros ps Hn HF; [lia|].
  cbn [stepParticlesN]. destruct n as [|n].
  - cbn [stepParticlesN].
    destruct (stepParticles ps) as [|q rest] eqn:Es; [reflexivity|].
    exfalso.
    destruct (stepParticles_origin ps q) as (p & Hin & -> & E);
      [rewrite Es; left; reflexivity|].
    destruct (survivor_opacity p E) as [Ea _].
    apply not_expired_alive in E. rewrite Ea in E.
    rewrite List.Forall_forall in HF. specialize (HF p Hin).
    change (inject_Z (Z.of_nat 1)) with 1 in HF. lra.
  - apply IH; [lia|].
    apply List.Forall_forall. intros q Hq.
    destruct (stepParticles_origin ps q Hq) as (p & Hin & -> & E).
    destruct (survivor_opacity p E) as [Ea Eva]. rewrite Ea, Eva.
    rewrite List.Forall_forall in HF. specialize (HF p Hin).
    rewrite Nat2Z.inj_succ in HF. unfold Z.succ in HF.
    rewrite inject_Z_plus in HF. change (inject_Z 1) with 1 in HF.
    lra.
Qed.

(* the bounds spawnConfetti gives every particle survive the frames *)
Lemma stepParticles_spawn_bounds (ps : list Particle.t) :
  Forall (fun p => Particle.a p <= 1 /\ 0.012 <= Particle.va p) ps ->
  Forall (fun p => Particle.a p <= 1 /\ 0.012 <= Particle.va p) (stepParticles ps).
Proof.
  intros HF. apply List.Forall_forall. intros q Hq.
  destruct (stepParticles_origin ps q Hq) as (p & Hin & -> & E).
  destruct (survivor_opacity p E) as [Ea Eva]. rewrite Ea, Eva.
  rewrite List.Forall_forall in HF. specialize (HF p Hin). lra.
Qed.

(* the particle pool ignores the time steps: only their number counts *)
Lemma renderFrames_particles (dts : list Q) (s : Fx) (k : nat) :
  fxCtx host = true ->
  fxParticles (fst (renderFrames dts s k))
  = stepParticlesN (length dts) (fxParticles s).
Proof.
  intros Hctx. revert s k. induction dts as [|dt dts IH]; intros s k.
  - reflexivity.
  - cbn [renderFrames length stepParticlesN]. rewrite bind_run, IH.
    f_equal. unfold renderFxFrame. rewrite Hctx. cbn [negb].
    rewrite bind_run. reflexivity.
Qed.

(* the loop keeps, in order, the updated particles that are not expired *)
Lemma stepParticles_filter (ps : list Particle.t) :
  stepParticles ps
  = List.filter (fun q => negb (expired q)) (map updateParticle ps).
Proof.
  induction ps as [|p rest IH]; simpl; [reflexivity|].
  rewrite IH. destruct (expired (updateParticle p)); reflexivity.
Qed.

(* whatever is in the pool after n frames is the n-fold update of a
   particle that was in it before *)
Lemma stepParticlesN_origin (n : nat) (ps : list Particle.t) (q : Particle.t) :
  In q (stepParticlesN n ps) -> exists p, In p ps /\ q = updateParticleN n p.
Proof.
  revert ps. induction n as [|n IH]; intros ps Hq.
  - exists q. split; [exact Hq | reflexivity].
  - cbn [stepParticlesN] in Hq. destruct (IH _ Hq) as (p' & Hin & ->).
    destruct (stepParticles_origin ps p' Hin) as (p & Hp & -> & _).
    exists p. split; [exact Hp | reflexivity].
Qed.

(** C9. With a rendering surface, after any number of frames (at least
    one) every particle kept in the pool has positive opacity, and a pool
    that starts without negative opacities never holds one; a frame
    removes exactly the updated particles whose opacity is at most 0 or
    whose y exceeds the viewport height by more than 120; every particle
    in the pool after n frames is the n-fold update of a particle that was
    in it before, and once the opacity the update itself computes for every
    particle has reached 0 after n steps, the pool is empty after n frames.
    The number of steps is the one the program's own subtraction takes to
    reach 0, not the quotient of opacity and decay rate; for particles with
    the opacity and decay bounds of spawnConfetti (opacity at most 1, decay
    at least 0.012 per frame) 84 frames are enough, with 0.008 to spare. *)
Theorem particle_opacity_nonnegative_and_pool_drains
    (dts : list Q) (s : Fx) (k : nat) :
  fxCtx host = true ->
  let pool := fxParticles s in
  let pool' := fxParticles (fst (renderFrames dts s k)) in
  let n := length dts in
  ((1 <= n)%nat -> Forall (fun p => 0 < Particle.a p) pool')
  /\ (Forall (fun p => 0 <= Particle.a p) pool ->
      Forall (fun p => 0 <= Particle.a p) pool')
  /\ (stepParticles pool
      = List.filter
          (fun q => negb (JS.leb (Particle.a q) 0
                          || JS.ltb (inject_Z (innerHeight host) + 120) (Particle.y q)))
          (map updateParticle pool))
  /\ (forall q, In q pool' -> exists p, In p pool /\ q = updateParticleN n p)
  /\ ((1 <= n)%nat ->
      Forall (fun p => Particle.a (updateParticleN n p) <= 0) pool ->
      pool' = [])
  /\ ((84 <= n)%nat ->
      Forall (fun p => Particle.a p <= 1 /\ 0.012 <= Particle.va p) pool ->
      pool' = []).
Proof.
  intros Hctx pool pool' n.
  unfold pool'. rewrite (renderFrames_particles dts s k Hctx). fold pool n.
  split; [apply stepParticlesN_alive|].
  split; [apply stepParticlesN_nonneg|].
  split; [apply stepParticles_filter|].
  split; [apply stepParticlesN_origin|].
  split.
  { intros Hn HF. destruct (stepParticlesN n pool) as [|q rest] eqn:E; [reflexivity|].
    assert (Hq : In q (stepParticlesN n pool)) by (rewrite E; left; reflexivity).
    destruct (stepParticlesN_origin n pool q Hq) as (p & Hp & ->).
    pose proof (stepParticlesN_alive n pool Hn) as Alive.
    rewrite List.Forall_forall in Alive, HF.
    specialize (Alive _ Hq). specialize (HF _ Hp). lra. }
  intros Hn HF. apply stepParticlesN_drains; [lia|].
  eapply Forall_impl; [exact HF|]. cbn beta. intros p [Ha Hva].
  assert (N : 84 <= inject_Z (Z.of_nat n)).
  { change 84 with (inject_Z 84). rewrite <- Zle_Qle. lia. }
  nra.
Qed.

(** C2, as the program has it. The particle update ignores the elapsed
    time: one frame changes every particle by one fixed step (the velocity
    gains the gravity, the position gains the new velocity, the rotation
    gains the angular velocity, the opacity loses the decay rate and is
    floored at 0), whatever [dt] is, also through fxTick with any
    timestamp; after several frames the pool depends on how many frames
    were processed and not on the time they took. *)
Theorem particle_step_is_per_frame (dt dt' ts ts' : Q) (dts dts' : list Q)
    (s : Fx) (k : nat) :
  fxCtx host = true ->
  fxParticles (fst (renderFxFrame dt true s k)) = stepParticles (fxParticles s)
  /\ fxParticles (fst (renderFxFrame dt true s k))
     = fxParticles (fst (renderFxFrame dt' true s k))
  /\ fxParticles (fst (fxTick ts s k)) = fxParticles (fst (fxTick ts' s k))
  /\ (forall q, In q (stepParticles (fxParticles s)) ->
      exists p, In p (fxParticles s)
        /\ Particle.vy q = Particle.vy p + Particle.g p
        /\ Particle.x q = Particle.x p + Particle.vx p
        /\ Particle.y q = Particle.y p + (Particle.vy p + Particle.g p)
        /\ Particle.rot q = Particle.rot p + Particle.vr p
        /\ Particle.a q = Math_max 0 (Particle.a p - Particle.va p))
  /\ (length dts = length dts' ->
      fxParticles (fst (renderFrames dts s k))
      = fxParticles (fst (renderFrames dts' s k))).
Proof.
  intros Hctx.
  assert (F : forall d, fxParticles (fst (renderFxFrame d true s k))
                        = stepParticles (fxParticles s)).
  { intros d. unfold renderFxFrame. rewrite Hctx. cbn [negb].
    rewrite bind_run. reflexivity. }
  assert (T : forall t, fxParticles (fst (fxTick t s k))
                        = stepParticles (fxParticles s)).
  { intros t. unfold fxTick. rewrite Hctx. cbn [negb]. rewrite bind_run.
    match goal with |- context [if ?c then _ else _] => destruct c end;
      cbn [ret fst fxParticles];
      unfold renderFxFrame; rewrite Hctx; cbn [negb];
      rewrite bind_run; reflexivity. }
  split; [apply F|]. split; [rewrite !F; reflexivity|].
  split; [rewrite !T; reflexivity|]. split.
  - intros q Hq. destruct (stepParticles_origin _ q Hq) as (p & Hin & -> & _).
    exists p. repeat split; auto.
  - intros Hlen. rewrite !renderFrames_particles, Hlen by assumption.
    reflexivity.
Qed.

(** *** Spawning confetti *)

Lemma newParticle_run (x y spread : Q) (k : nat) :
  newParticle x y spread k
  = (Particle.mk
       (if JS.ltb (rnd (k + 2)) 0.18 then heart else rect)
       x y
       (Math_cos (rnd k * Math_PI * 2) * ((1.2 + rnd (k + 1) * 4.0) * spread))
       (Math_sin (rnd k * Math_PI * 2) * ((1.2 + rnd (k + 1) * 4.0) * spread)
        - 2.0 * spread)
       (0.12 * spread)
       (2 + rnd (k + 3) * 4)
       (rnd (k + 4) * Math_PI * 2)
       ((-0.12 + rnd (k + 5) * 0.24) * spread)
       1
       (0.012 + rnd (k + 6) * 0.02)
       (JS.get palette (toInt32 (rnd (k + 7) * 4))),
     (k + 8)%nat).
Proof.
  unfold newParticle, bind, Math_random, ret.
  replace (k + 1)%nat with (S k) by lia.
  replace (k + 2)%nat with (S (S k)) by lia.
  replace (k + 3)%nat with (S (S (S k))) by lia.
  replace (k + 4)%nat with (S (S (S (S k)))) by lia.
  replace (k + 5)%nat with (S (S (S (S (S k))))) by lia.
  replace (k + 6)%nat with (S (S (S (S (S (S k)))))) by lia.
  replace (k + 7)%nat with (S (S (S (S (S (S (S k))))))) by lia.
  replace (k + 8)%nat with (S (S (S (S (S (S (S (S k)))))))) by lia.
  reflexivity.
Qed.

(* the i-th particle of a burst is built from the eight draws that start
   at cursor k + 8 i *)
Lemma spawnLoop_run (count : nat) (x y spread : Q) (pool : list Particle.t)
    (k : nat) :
  spawnLoop count x y spread pool k
  = (pool ++ map (fun i : nat => fst (newParticle x y spread (k + 8 * i)%nat))
               (seq 0 count),
     (k + 8 * count)%nat).
Proof.
  revert pool k. induction count as [|count IH]; intros pool k.
  - cbn [spawnLoop seq map ret]. rewrite app_nil_r. f_equal. lia.
  - cbn [spawnLoop]. rewrite bind_run, IH.
    rewrite newParticle_run. cbn [fst snd seq map].
    rewrite <- app_assoc. cbn [app]. f_equal.
    + f_equal. rewrite newParticle_run. cbn [fst].
      replace (k + 8 * 0)%nat with k by lia. f_equal.
      rewrite <- seq_shift, map_map. apply map_ext. intros i.
      f_equal. f_equal. lia.
    + lia.
Qed.

Lemma palette_pick (k : nat) :
  exists c, JS.get palette (toInt32 (rnd k * 4)) = Some c /\ In c palette.
Proof.
  pose proof (random_index k 4 ltac:(lia)) as Hj.
  change (inject_Z 4) with 4 in Hj.
  destruct (get_in_range palette (toInt32 (rnd k * 4))) as (c & Hg & Hl).
  { cbn [palette length]. lia. }
  exists c. split; [exact Hg|].
  apply list_elem_of_In. apply list_elem_of_lookup. eauto.
Qed.

(** C3. With a rendering surface and without the reduced-motion
    preference, spawnConfetti appends exactly [count] particles to the
    pool and changes nothing else; the i-th of them is built from eight
    consecutive draws: it sits at the origin, its velocity is the unit
    vector of the angle 2 pi u0 times the speed (1.2 + 4 u1) spread, less
    an upward kick of 2 spread on the vertical component, its gravity is
    0.12 spread, its opacity 1, its decay 0.012 + 0.02 u6, its colour one
    of the four of the palette, and it is a heart exactly when the draw u2
    is below 0.18 and a rectangle otherwise.  With the reduced-motion
    preference, or without a surface, the call changes nothing and
    consumes no draw. *)
Theorem spawnConfetti_appends_count_particles
    (x y : Q) (count : nat) (spread : Q) (s : Fx) (k : nat) :
  let s' := fst (spawnConfetti x y count spread s k) in
  let k' := snd (spawnConfetti x y count spread s k) in
  (fxCtx host = true -> prefersReducedMotion host = false ->
     exists fresh : list Particle.t,
       fxParticles s' = fxParticles s ++ fresh
       /\ length fresh = count
       /\ rainDrops s' = rainDrops s
       /\ k' = (k + 8 * count)%nat
       /\ forall (i : nat) (p : Particle.t), fresh !! i = Some p ->
            let u := fun j : nat => rnd (k + 8 * i + j)%nat in
            Particle.x p = x /\ Particle.y p = y
            /\ Particle.vx p
               = Math_cos (u 0%nat * Math_PI * 2) * ((1.2 + u 1%nat * 4.0) * spread)
            /\ Particle.vy p
               = Math_sin (u 0%nat * Math_PI * 2) * ((1.2 + u 1%nat * 4.0) * spread)
                 - 2.0 * spread
            /\ Particle.g p = 0.12 * spread
            /\ Particle.a p = 1
            /\ Particle.va p = 0.012 + u 6%nat * 0.02
            /\ (Particle.kind p = heart <-> u 2%nat < 0.18)
            /\ (Particle.kind p = rect <-> 0.18 <= u 2%nat)
            /\ exists c, Particle.color p = Some c /\ In c palette)
  /\ (prefersReducedMotion host = true -> s' = s /\ k' = k)
  /\ (fxCtx host = false -> s' = s /\ k' = k).
Proof.
  intros s' k'. unfold s', k', spawnConfetti. split; [|split].
  - intros Hctx Hprm. rewrite Hctx, Hprm. cbn [negb orb].
    rewrite bind_run, spawnLoop_run. cbn [ret fst snd fxParticles rainDrops].
    eexists. split; [reflexivity|].
    split; [rewrite length_map, length_seq; reflexivity|].
    split; [reflexivity|]. split; [reflexivity|].
    intros i p Hp.
    apply list_lookup_fmap_Some_1 in Hp. destruct Hp as (j & Hp & Hj).
    apply lookup_seq in Hj. destruct Hj as [-> _]. cbn [Nat.add] in Hp.
    rewrite newParticle_run in Hp. cbn [fst] in Hp. subst p.
    cbn [Particle.x Particle.y Particle.vx Particle.vy Particle.g Particle.a
         Particle.va Particle.kind Particle.color].
    rewrite !Nat.add_0_r.
    repeat split; try reflexivity.
    + destruct (JS.ltb _ _) eqn:E; [intros _; now apply ltb_true | discriminate].
    + intros Hlt. apply ltb_true in Hlt. rewrite Hlt. reflexivity.
    + destruct (JS.ltb _ _) eqn:E; [discriminate | intros _; now apply ltb_false].
    + intros Hge. apply ltb_false in Hge. rewrite Hge. reflexivity.
    + apply palette_pick.
  - intros Hprm. rewrite Hprm, orb_true_r. split; reflexivity.
  - intros Hctx. rewrite Hctx. cbn [negb orb]. split; reflexivity.
Qed.

(** *** The spin session *)

Lemma spinTarget_cursor (rotation : Q) (k : nat) :
  snd (spinTarget rotation k) = S (S k).
Proof. reflexivity. Qed.

Lemma spinClick_run (now : Q) (s : App) (k : nat) :
  spinning (wheel s) = false ->
  exists anim,
    spinClick now s k
    = (mkApp (fx s)
         (mkWheel (wheelRotation (wheel s)) true true true
            (prizeModalOpen (wheel s))
            (Animating anim (fst (spinTarget (wheelRotation (wheel s)) k))))
         (sounds s),
       S (S k))
    /\ start anim = now
    /\ from anim = wheelRotation (wheel s)
    /\ prev anim = wheelRotation (wheel s)
    /\ to anim = fst (spinTarget (wheelRotation (wheel s)) k).
Proof.
  intros Hs. unfold spinClick. rewrite Hs. rewrite bind_run.
  rewrite spinTarget_cursor. unfold ret.
  destruct (prefersReducedMotion host); eexists; repeat split; reflexivity.
Qed.

Lemma spinClick_spinning (now : Q) (s : App) (k : nat) :
  spinning (wheel s) = true -> spinClick now s k = (s, k).
Proof. intros Hs. unfold spinClick. rewrite Hs. reflexivity. Qed.

(* a frame at or after the end of the animation resolves the promise *)
Lemma step_resolved (ts : Q) (anim : Animation) (log : list Sound) :
  0 < durationMs anim ->
  start anim + durationMs anim <= ts ->
  snd (step ts anim log) = true.
Proof.
  intros Hd Hts. unfold step. cbn [snd].
  pose proof (div_mul_cancel (ts - start anim) (durationMs anim) Hd) as Hq.
  set (q := (ts - start anim) / durationMs anim) in *.
  assert (Q1 : 1 <= q) by nra.
  unfold clamp.
  destruct (Math_min_spec 1 q) as [[_ ->] | [L _]]; [|lra].
  reflexivity.
Qed.

Lemma spinClick_duration (now : Q) (s : App) (k : nat) (anim : Animation)
    (target : Q) :
  spinning (wheel s) = false ->
  stage (wheel (fst (spinClick now s k))) = Animating anim target ->
  0 < durationMs anim /\ start anim = now
  /\ target = fst (spinTarget (wheelRotation (wheel s)) k).
Proof.
  intros Hs. unfold spinClick. rewrite Hs, bind_run. cbn [ret fst wheel stage].
  destruct (prefersReducedMotion host); intros E; injection E as <- <-;
    cbn [animateWheelToWithEasing durationMs start].
  - split; [lra | split; reflexivity].
  - split; [|split; reflexivity].
    match goal with |- 0 < clamp ?n 14000 26000 =>
      pose proof (clamp_bounds n 14000 26000 ltac:(lra)) end.
    lra.
Qed.

(* the frame that resolves the animation leaves the wheel on targetFinal *)
Lemma wheelFrame_snaps (ts : Q) (s : App) (k : nat) (anim : Animation)
    (target : Q) :
  stage (wheel s) = Animating anim target ->
  snd (step ts anim (sounds s)) = true ->
  wheelRotation (wheel (fst (wheelFrame ts s k))) = target
  /\ stage (wheel (fst (wheelFrame ts s k))) = FirstPaint.
Proof.
  intros Hst Hres. unfold wheelFrame. rewrite Hst.
  destruct (step ts anim (sounds s)) as [[[deg log] anim'] resolved].
  cbn [snd] in Hres. subst resolved. cbn [ret fst wheel wheelRotation stage].
  auto.
Qed.

(** C1. For every spin, whatever the random source draws, the target
    angle lies strictly ahead of the start angle, and the target modulo
    360 lies in the winning sector (index 2 of five sectors of 72
    degrees): no further than 0.3 sector sizes from the sector centre,
    hence inside the sector and inside the sector widened by the jitter
    bound; the sector index the program computes for the target is the
    prize index, and so is the sector found under the pointer at angle 0.
    A click on the idle wheel starts an animation towards that target, and
    the first frame at or after the end of its duration leaves the wheel
    exactly on the target, that is, on the prize sector. *)
Theorem spin_target_is_forward_and_on_prize_sector
    (rotation : Q) (k : nat) (now ts : Q) (s : App) (k' : nat) :
  let target := fst (spinTarget rotation k) in
  let lo := prizeIndex * sectorSize in
  let hi := (prizeIndex + 1) * sectorSize in
  let jitter := 0.3 * sectorSize in
  0 < target - rotation
  /\ (sectorCenterAngle prizeIndex - jitter < normDeg target
      /\ normDeg target <= sectorCenterAngle prizeIndex + jitter)
  /\ (lo <= normDeg target /\ normDeg target < hi)
  /\ (lo - jitter <= normDeg target /\ normDeg target < hi + jitter)
  /\ sectorIndexAt target == prizeIndex
  /\ sectorIndexAt (- target) == prizeIndex
  /\ (spinning (wheel s) = false ->
      let s1 := fst (spinClick now s k) in
      exists anim,
        stage (wheel s1)
        = Animating anim (fst (spinTarget (wheelRotation (wheel s)) k))
        /\ (start anim + durationMs anim <= ts ->
            let s2 := fst (wheelFrame ts s1 k') in
            wheelRotation (wheel s2) = fst (spinTarget (wheelRotation (wheel s)) k)
            /\ sectorIndexAt (wheelRotation (wheel s2)) == prizeIndex)).
Proof.
  intros target lo hi jitter.
  destruct (spinTarget_on_prize_sector rotation k) as (A & B & C & D & E & F).
  repeat (split; [assumption|]).
  intros Hs s1.
  destruct (spinClick_run now s k Hs) as (anim & Er & _).
  assert (Hst : stage (wheel s1)
                = Animating anim (fst (spinTarget (wheelRotation (wheel s)) k))).
  { unfold s1. rewrite Er. reflexivity. }
  exists anim. split; [exact Hst|].
  intros Hts s2.
  destruct (spinClick_duration now s k anim _ Hs Hst) as (Hd & _ & _).
  destruct (wheelFrame_snaps ts s1 k' anim _ Hst
              (step_resolved ts anim (sounds s1) Hd Hts)) as [Hrot _].
  fold s2 in Hrot. split; [exact Hrot|].
  rewrite Hrot.
  apply (spinTarget_on_prize_sector (wheelRotation (wheel s)) k).
Qed.

Lemma finishSpin_wheel (now : Q) (s : App) (k : nat) :
  spinning (wheel (fst (finishSpin now s k))) = false
  /\ stage (wheel (fst (finishSpin now s k))) = NotRunning
  /\ sounds (fst (finishSpin now s k)) = sounds s
  /\ wheelRotation (wheel (fst (finishSpin now s k))) = wheelRotation (wheel s).
Proof.
  unfold finishSpin. destruct (wheelDiscRect host) as [[r_left r_top] r_width].
  rewrite bind_run. cbn [ret fst wheel spinning stage sounds wheelRotation].
  auto.
Qed.

Lemma handle_consistent (e : Event) (s : App) (k : nat) :
  sessionConsistent (wheel s) ->
  sessionConsistent (wheel (fst (handle e s k))).
Proof.
  intros Hc. destruct e as [now | ts | now |]; cbn [handle].
  - destruct (spinning (wheel s)) eqn:Hs.
    + rewrite spinClick_spinning by exact Hs. exact Hc.
    + destruct (spinClick_run now s k Hs) as (anim & E & _). rewrite E.
      right. cbn [fst wheel spinning stage]. split; [reflexivity | discriminate].
  - rewrite bind_run.
    set (f := fst ((if fxRunning (fx s) then fxTick ts (fx s) else ret (fx s)) k)).
    set (k1 := snd ((if fxRunning (fx s) then fxTick ts (fx s) else ret (fx s)) k)).
    unfold wheelFrame. cbn [wheel sounds fx].
    destruct Hc as [[H1 H2] | [H1 H2]].
    + rewrite H2. left. cbn [ret fst wheel]. auto.
    + destruct (stage (wheel s)) as [|anim target| | |] eqn:Hst; [congruence| | | |].
      * destruct (step ts anim (sounds s)) as [[[deg log] anim'] resolved].
        destruct resolved; right; cbn [ret fst wheel spinning stage];
          (split; [exact H1 | discriminate]).
      * right. cbn [ret fst wheel spinning stage]. split; [exact H1 | discriminate].
      * destruct (negb (prefersReducedMotion host)).
        -- right. cbn [ret fst wheel spinning stage].
           split; [exact H1 | discriminate].
        -- left. destruct (finishSpin_wheel ts (mkApp f (wheel s) (sounds s)) k1)
             as (F1 & F2 & _). auto.
      * right. cbn [ret fst wheel]. rewrite Hst. split; [exact H1 | discriminate].
  - unfold settleTimeout.
    destruct (stage (wheel s)) eqn:Hst; try exact Hc.
    left. destruct (finishSpin_wheel now s k) as (F1 & F2 & _). auto.
  - rewrite bind_run. cbn [ret fst wheel]. exact Hc.
Qed.

Lemma run_app (e : Event) (rest : list Event) (s : App) (k : nat) :
  run (e :: rest) s k = run rest (fst (handle e s k)) (snd (handle e s k)).
Proof. cbn [run]. apply bind_run. Qed.

Lemma run_consistent (events : list Event) (s : App) (k : nat) :
  sessionConsistent (wheel s) ->
  sessionConsistent (wheel (fst (run events s k))).
Proof.
  revert s k. induction events as [|e rest IH]; intros s k Hc.
  - exact Hc.
  - rewrite run_app. apply IH. apply handle_consistent. exact Hc.
Qed.

(** C8. A click while a spin is active changes nothing: the state and the
    cursor of the random source come back as they went in.  Hence of two
    clicks in immediate succession the first leaves the flag set and the
    second returns the very state the first produced (same animation, same
    target angle, no further draw), and so does any number of further
    clicks; from a consistent page the flag stays set for as long as the
    handler is suspended, whatever events arrive, so every click during a
    session is such a no-op. *)
Theorem spin_click_while_spinning_is_noop
    (now1 now2 : Q) (nows : list Q) (events : list Event) (s : App) (k : nat) :
  (spinning (wheel s) = true -> spinClick now2 s k = (s, k))
  /\ (let r := spinClick now1 s k in
      spinning (wheel (fst r)) = true
      /\ spinClick now2 (fst r) (snd r) = r
      /\ run (map SpinClick nows) (fst r) (snd r) = r)
  /\ (spinning (wheel s) = false ->
      let r := spinClick now1 s k in
      exists anim,
        stage (wheel (fst r))
        = Animating anim (fst (spinTarget (wheelRotation (wheel s)) k))
        /\ stage (wheel (fst (spinClick now2 (fst r) (snd r))))
           = Animating anim (fst (spinTarget (wheelRotation (wheel s)) k))
        /\ snd (spinClick now2 (fst r) (snd r)) = S (S k))
  /\ (sessionConsistent (wheel s) ->
      let r := run events s k in
      stage (wheel (fst r)) <> NotRunning ->
      handle (SpinClick now2) (fst r) (snd r) = r).
Proof.
  assert (Sp : spinning (wheel (fst (spinClick now1 s k))) = true).
  { destruct (spinning (wheel s)) eqn:Hs.
    - rewrite spinClick_spinning by exact Hs. exact Hs.
    - destruct (spinClick_run now1 s k Hs) as (anim & E & _). rewrite E.
      reflexivity. }
  assert (Again : forall now,
             spinClick now (fst (spinClick now1 s k)) (snd (spinClick now1 s k))
             = spinClick now1 s k).
  { intros now. rewrite spinClick_spinning by exact Sp.
    destruct (spinClick now1 s k); reflexivity. }
  split; [apply spinClick_spinning|]. split; [|split].
  - cbv zeta. split; [exact Sp|]. split; [apply Again|].
    induction nows as [|now nows IH].
    + cbn [map run ret]. destruct (spinClick now1 s k); reflexivity.
    + cbn [map]. rewrite run_app. cbn [handle]. rewrite Again. exact IH.
  - intros Hs. cbv zeta. rewrite Again.
    destruct (spinClick_run now1 s k Hs) as (anim & E & _). rewrite E.
    exists anim. cbn [fst snd wheel stage]. auto.
  - intros Hc. cbv zeta. intros Hst.
    pose proof (run_consistent events s k Hc) as [[_ H2] | [H1 _]];
      [congruence|].
    cbn [handle]. rewrite spinClick_spinning by exact H1.
    destruct (run events s k); reflexivity.
Qed.

(** *** Ticks *)

Lemma step_silent (now : Q) (anim : Animation) (log : list Sound) :
  prefersReducedMotion host = true ->
  snd (fst (fst (step now anim log))) = log.
Proof. intros Hprm. unfold step. rewrite Hprm. reflexivity. Qed.

Lemma handle_silent (e : Event) (s : App) (k : nat) :
  prefersReducedMotion host = true ->
  sounds (fst (handle e s k)) = sounds s.
Proof.
  intros Hprm. destruct e as [now | ts | now |]; cbn [handle].
  - unfold spinClick. destruct (spinning (wheel s)); [reflexivity|].
    rewrite bind_run. reflexivity.
  - rewrite bind_run.
    set (f := fst ((if fxRunning (fx s) then fxTick ts (fx s) else ret (fx s)) k)).
    set (k1 := snd ((if fxRunning (fx s) then fxTick ts (fx s) else ret (fx s)) k)).
    unfold wheelFrame. cbn [wheel sounds fx].
    destruct (stage (wheel s)) as [|anim target| | |]; try reflexivity.
    + pose proof (step_silent ts anim (sounds s) Hprm) as Hq.
      destruct (step ts anim (sounds s)) as [[[deg log] anim'] resolved].
      cbn [fst snd] in Hq. subst log.
      destruct resolved; reflexivity.
    + rewrite Hprm. cbn [negb].
      apply (finishSpin_wheel ts (mkApp f (wheel s) (sounds s)) k1).
  - unfold settleTimeout. destruct (stage (wheel s)); try reflexivity.
    apply finishSpin_wheel.
  - rewrite bind_run. reflexivity.
Qed.

(** C10. Under the reduced-motion preference no event sequence (clicks,
    animation frames, the settle timer, resizes) adds a sound request to
    the log, however many sector boundaries the wheel angle crosses: the
    animation step never calls the crossing check. *)
Theorem no_tick_under_reduced_motion (events : list Event) (s : App) (k : nat) :
  prefersReducedMotion host = true ->
  sounds (fst (run events s k)) = sounds s
  /\ (forall (now : Q) (anim : Animation) (log : list Sound),
        snd (fst (fst (step now anim log))) = log).
Proof.
  intros Hprm. split.
  - revert s k. induction events as [|e rest IH]; intros s k.
    + reflexivity.
    + rewrite run_app, IH. apply handle_silent. exact Hprm.
  - intros now anim log. apply step_silent. exact Hprm.
Qed.

(* without the preference the same step does tick on a crossing *)
Lemma step_ticks_on_crossing (now : Q) (anim : Animation) (log : list Sound) :
  prefersReducedMotion host = false ->
  let '(deg, log', _, _) := step now anim log in
  ~ sectorIndexAt (prev anim) == sectorIndexAt deg ->
  log' = log ++ [mkSound 980 0.015 0.045].
Proof.
  intros Hprm. unfold step. rewrite Hprm. cbn [negb].
  intros Hne. unfold playTickIfCrossed, clickSound. rewrite Hprm.
  destruct (Qeq_bool _ _) eqn:E; [|reflexivity].
  apply Qeq_bool_iff in E. contradiction.
Qed.

(** ** Further properties of the program *)

(** *** Easing functions *)

Lemma Qpower_pos_nonneg (a : Q) (p : positive) : 0 <= a -> 0 <= a ^ Zpos p.
Proof. intros Ha. apply Qpower_0_le. exact Ha. Qed.

Lemma Qpower_pos_succ (a : Q) (p : positive) :
  a ^ Zpos (Pos.succ p) == a ^ Zpos p * a.
Proof.
  rewrite Pos2Z.inj_succ. unfold Z.succ.
  rewrite Qpower_plus' by lia. change (a ^ 1) with a. reflexivity.
Qed.

Lemma Qpower_pos_mono (a b : Q) (p : positive) :
  0 <= a -> a <= b -> a ^ Zpos p <= b ^ Zpos p.
Proof.
  intros Ha Hab. induction p as [|p IH] using Pos.peano_ind.
  - exact Hab.
  - rewrite !Qpower_pos_succ.
    pose proof (Qpower_pos_nonneg a p Ha) as Pa.
    set (x := a ^ Zpos p) in *. set (y := b ^ Zpos p) in *. nra.
Qed.

(* powers with a positive exponent are midpoint convex on the non-negative
   rationals *)
Lemma Qpower_pos_midpoint (a b : Q) (p : positive) :
  0 <= a -> 0 <= b ->
  2 * ((a + b) / 2) ^ Zpos p <= a ^ Zpos p + b ^ Zpos p.
Proof.
  intros Ha Hb.
  assert (Hh : 2 * ((a + b) / 2) == a + b) by field.
  set (c := (a + b) / 2) in *.
  assert (Hc : 0 <= c) by lra.
  induction p as [|p IH] using Pos.peano_ind.
  - change (c ^ 1) with c. change (a ^ 1) with a. change (b ^ 1) with b. lra.
  - rewrite !Qpower_pos_succ.
    pose proof (Qpower_pos_nonneg a p Ha) as Pa.
    pose proof (Qpower_pos_nonneg b p Hb) as Pb.
    pose proof (Qpower_pos_nonneg c p Hc) as Pm.
    assert (Hcross : a ^ Zpos p * b + b ^ Zpos p * a
                     <= a ^ Zpos p * a + b ^ Zpos p * b).
    { destruct (Qlt_le_dec a b) as [L | L].
      - pose proof (Qpower_pos_mono a b p Ha ltac:(lra)).
        set (x := a ^ Zpos p) in *. set (y := b ^ Zpos p) in *. nra.
      - pose proof (Qpower_pos_mono b a p Hb L).
        set (x := a ^ Zpos p) in *. set (y := b ^ Zpos p) in *. nra. }
    set (x := a ^ Zpos p) in *. set (y := b ^ Zpos p) in *.
    set (m := c ^ Zpos p) in *.
    assert (H1 : 2 * (m * c) <= (x + y) * c) by nra.
    nra.
Qed.

(** X1. The power easing of the spin runs from 0 at time 0 to 1 at time 1,
    stays between 0 and 1 on the unit interval, never decreases, and
    decelerates: of two consecutive time steps of equal length the later one
    gains no more progress than the earlier one. *)
Theorem easeOutPower_rises_and_decelerates (p : positive) (s t h : Q) :
  0 <= s -> s <= t -> t <= 1 ->
  0 <= h -> h <= t -> t + h <= 1 ->
  easeOutPower 0 p == 0
  /\ easeOutPower 1 p == 1
  /\ 0 <= easeOutPower s p
  /\ easeOutPower s p <= easeOutPower t p
  /\ easeOutPower t p <= 1
  /\ easeOutPower (t + h) p - easeOutPower t p
     <= easeOutPower t p - easeOutPower (t - h) p.
Proof.
  intros Hs Hst Ht Hh Hht Hth. unfold easeOutPower, Math_pow.
  assert (E0 : (1 - 0) ^ Zpos p == 1).
  { assert (E : 1 - 0 == 1) by ring. rewrite E. apply Qpower_1. }
  assert (E1 : (1 - 1) ^ Zpos p == 0).
  { assert (E : 1 - 1 == 0) by ring. rewrite E. apply Qpower_0. discriminate. }
  assert (One : 1 ^ Zpos p == 1) by apply Qpower_1.
  pose proof (Qpower_pos_nonneg (1 - t) p ltac:(lra)) as Pt.
  pose proof (Qpower_pos_mono (1 - t) (1 - s) p ltac:(lra) ltac:(lra)) as Pst.
  pose proof (Qpower_pos_mono (1 - s) 1 p ltac:(lra) ltac:(lra)) as Ps1.
  pose proof (Qpower_pos_midpoint (1 - (t + h)) (1 - (t - h)) p
                ltac:(lra) ltac:(lra)) as Mid.
  assert (Em : ((1 - (t + h) + (1 - (t - h))) / 2) ^ Zpos p == (1 - t) ^ Zpos p).
  { apply Qpower_comp; [field | reflexivity]. }
  rewrite Em in Mid.
  repeat split; lra.
Qed.

Lemma easeOutPower_rises_and_decelerates_witness :
  easeOutPower (1 # 4) 7 <= easeOutPower (1 # 2) 7
  /\ easeOutPower (3 # 4) 7 - easeOutPower (1 # 2) 7
     <= easeOutPower (1 # 2) 7 - easeOutPower (1 # 4) 7.
Proof.
  destruct (easeOutPower_rises_and_decelerates 7 (1 # 4) (1 # 2) (1 # 4))
    as (_ & _ & _ & A & _ & B); try lra.
  split; [exact A|].
  assert (E1 : (1 # 2) + (1 # 4) == 3 # 4) by reflexivity.
  assert (E2 : (1 # 2) - (1 # 4) == 1 # 4) by reflexivity.
  unfold easeOutPower, Math_pow in *.
  assert (P1 : (1 - ((1 # 2) + (1 # 4))) ^ 7 == (1 - (3 # 4)) ^ 7)
    by (apply Qpower_comp; [lra | reflexivity]).
  assert (P2 : (1 - ((1 # 2) - (1 # 4))) ^ 7 == (1 - (1 # 4)) ^ 7)
    by (apply Qpower_comp; [lra | reflexivity]).
  lra.
Defined.

(* the shape of the spin profile on each of its five pieces *)
Lemma spinProfile_cases (t : Q) :
  (t <= 0 /\ spinProfile t == 0)
  \/ (0 < t /\ t < 0.18
      /\ exists u, 0.18 * u == t /\ spinProfile t == 0.12 * (u * u * u))
  \/ (0.18 <= t /\ t < 0.72
      /\ exists u, 0.54 * u == t - 0.18 /\ spinProfile t == 0.12 + 0.74 * u)
  \/ (0.72 <= t /\ t < 1
      /\ exists v, 0.28 * v == 1 - t /\ spinProfile t == 1 - 0.14 * (v * (v * v)))
  \/ (1 <= t /\ spinProfile t == 1).
Proof.
  destruct (Qlt_le_dec 0 t) as [T0 | T0].
  2:{ left. split; [exact T0|]. unfold spinProfile.
      destruct (JS.leb t 0) eqn:E; [reflexivity | apply leb_false in E; lra]. }
  destruct (Qlt_le_dec t 1) as [T1 | T1].
  2:{ do 4 right. split; [exact T1|]. unfold spinProfile.
      destruct (JS.leb t 0) eqn:E; [apply leb_true in E; lra|].
      destruct (JS.leb 1 t) eqn:E'; [reflexivity | apply leb_false in E'; lra]. }
  destruct (Qlt_le_dec t 0.18) as [A | A].
  { right; left. repeat split; try assumption.
    exists (t / 0.18). split; [apply div_mul_cancel; lra|].
    rewrite (spinProfile_accel t T0 A). reflexivity. }
  destruct (Qlt_le_dec t 0.72) as [B | B].
  { do 2 right; left. repeat split; try assumption.
    exists ((t - 0.18) / (0.72 - 0.18)). split.
    - pose proof (div_mul_cancel (t - 0.18) (0.72 - 0.18) ltac:(lra)). lra.
    - rewrite (spinProfile_cruise t A B). ring. }
  do 3 right; left. repeat split; try assumption.
  exists (1 - (t - 0.72) / (1 - 0.72)). split.
  - pose proof (div_mul_cancel (t - 0.72) (1 - 0.72) ltac:(lra)). lra.
  - rewrite (spinProfile_decel t B T1). unfold easeOutCubic, Math_pow.
    assert (P : forall x : Q, x ^ 3 == x * (x * x)) by (intros x; simpl; ring).
    rewrite P. ring.
Qed.

Lemma cube_mono (a b : Q) : 0 <= a -> a <= b -> a * (a * a) <= b * (b * b).
Proof.
  intros Ha Hab.
  assert (0 <= a * a) by nra. assert (a * a <= b * b) by nra. nra.
Qed.

(** X2. The three-segment spin profile is a progress curve on the whole
    time axis: its value always lies between 0 and 1, and it never
    decreases as time grows, inside a segment or across the joins. *)
Theorem spinProfile_is_monotone_progress (s t : Q) :
  s <= t ->
  0 <= spinProfile s
  /\ spinProfile s <= spinProfile t
  /\ spinProfile t <= 1.
Proof.
  intros Hst.
  assert (C3 : forall a b : Q, 0 <= a -> a <= b -> a * (a * a) <= b * (b * b))
    by apply cube_mono.
  assert (C3' : forall a b : Q, 0 <= a -> a <= b -> a * a * a <= b * b * b).
  { intros a b Ha Hab. pose proof (C3 a b Ha Hab). lra. }
  destruct (spinProfile_cases s)
    as [(S0 & Es) | [(S0 & S1 & us & Hus & Es) | [(S0 & S1 & us & Hus & Es)
        | [(S0 & S1 & vs & Hvs & Es) | (S0 & Es)]]]];
    destruct (spinProfile_cases t)
      as [(T0 & Et) | [(T0 & T1 & ut & Hut & Et) | [(T0 & T1 & ut & Hut & Et)
          | [(T0 & T1 & vt & Hvt & Et) | (T0 & Et)]]]];
    rewrite Es, Et; try (exfalso; lra);
    try (pose proof (C3' 0 us ltac:(lra) ltac:(lra)));
    try (pose proof (C3' 0 ut ltac:(lra) ltac:(lra)));
    try (pose proof (C3' us 1 ltac:(lra) ltac:(lra)));
    try (pose proof (C3' ut 1 ltac:(lra) ltac:(lra)));
    try (pose proof (C3' us ut ltac:(lra) ltac:(lra)));
    try (pose proof (C3 0 vs ltac:(lra) ltac:(lra)));
    try (pose proof (C3 0 vt ltac:(lra) ltac:(lra)));
    try (pose proof (C3 vs 1 ltac:(lra) ltac:(lra)));
    try (pose proof (C3 vt 1 ltac:(lra) ltac:(lra)));
    try (pose proof (C3 vt vs ltac:(lra) ltac:(lra)));
    repeat split; lra.
Qed.

Lemma spinProfile_is_monotone_progress_witness :
  spinProfile (1 # 10) <= spinProfile (9 # 10).
Proof.
  apply (spinProfile_is_monotone_progress (1 # 10) (9 # 10)). lra.
Defined.

(** X3. The cubic in-out easing is point-symmetric about (1/2, 1/2): the
    progress at 1 - t is 1 minus the progress at t, for every t; its two
    formulas meet at 1/2, and it goes from 0 to 1.  The cubic ease-out is
    the mirror image of the cubic ease-in, and the power easing with
    exponent 3 is the cubic ease-out. *)
Theorem cubic_easings_are_mirror_images (t : Q) :
  easeInOutCubic (1 - t) == 1 - easeInOutCubic t
  /\ 4 * (1 # 2) * (1 # 2) * (1 # 2) == easeInOutCubic (1 # 2)
  /\ easeInOutCubic 0 == 0
  /\ easeInOutCubic 1 == 1
  /\ easeOutCubic t == 1 - easeInCubic (1 - t)
  /\ easeOutPower t 3 == easeOutCubic t.
Proof.
  assert (P : forall x : Q, x ^ 3 == x * (x * x)) by (intros x; simpl; ring).
  split; [|repeat split; try reflexivity].
  - unfold easeInOutCubic, Math_pow.
    destruct (JS.ltb (1 - t) 0.5) eqn:E1; destruct (JS.ltb t 0.5) eqn:E2;
      [apply ltb_true in E1 | apply ltb_true in E1
       | apply ltb_false in E1 | apply ltb_false in E1];
      [apply ltb_true in E2 | apply ltb_false in E2
       | apply ltb_true in E2 | apply ltb_false in E2];
      rewrite ?P; try (exfalso; lra).
    + field.
    + field.
    + assert (Et : t == 1 # 2) by lra. rewrite Et. reflexivity.
  - unfold easeOutCubic, easeInCubic, Math_pow. rewrite P. ring.
Qed.

(** *** Sectors and ticks *)

Lemma normDeg_periodic (deg : Q) (k : Z) :
  normDeg (deg + 360 * inject_Z k) == normDeg deg.
Proof.
  destruct (normDeg_spec deg) as (k0 & E & L & U).
  apply (normDeg_unique _ _ (k - k0)); try assumption.
  unfold Z.sub. rewrite inject_Z_plus, inject_Z_opp. lra.
Qed.

(** X4. The sector index computed for any angle, negative or beyond a full
    turn, is one of the integers 0, 1, 2, 3, 4, and it does not change when
    whole turns are added to or taken from the angle. *)
Theorem sectorIndexAt_in_range_and_periodic (deg : Q) (k : Z) :
  (exists i : Z, sectorIndexAt deg = inject_Z i /\ (0 <= i <= 4)%Z)
  /\ sectorIndexAt (deg + 360 * inject_Z k) = sectorIndexAt deg.
Proof.
  split.
  - unfold sectorIndexAt, Math_floor.
    destruct (normDeg_spec deg) as (k0 & _ & L & U).
    pose proof (div_mul_cancel (normDeg deg) sectorSize ltac:(reflexivity)) as Hq.
    assert (S72 : sectorSize == 72) by reflexivity.
    set (q := normDeg deg / sectorSize) in *.
    exists (Qfloor q). split; [reflexivity|].
    assert (A : (Qfloor 0 <= Qfloor q)%Z) by (apply Qfloor_resp_le; nra).
    assert (B : (Qfloor q <= Qfloor 5)%Z) by (apply Qfloor_resp_le; nra).
    assert (C : Qfloor q <> 5%Z).
    { intros E. pose proof (Qfloor_le q) as F. rewrite E in F.
      change (inject_Z 5) with 5 in F. nra. }
    change (Qfloor 0) with 0%Z in A. change (Qfloor 5) with 5%Z in B. lia.
  - unfold sectorIndexAt, Math_floor. f_equal. apply Qfloor_comp.
    rewrite (normDeg_periodic deg k). reflexivity.
Qed.


Lemma handle_frame (ts : Q) (s : App) (k : nat) :
  handle (AnimationFrame ts) s k
  = wheelFrame ts
      (mkApp (fst ((if fxRunning (fx s) then fxTick ts (fx s) else ret (fx s)) k))
         (wheel s) (sounds s))
      (snd ((if fxRunning (fx s) then fxTick ts (fx s) else ret (fx s)) k)).
Proof. cbn [handle]. rewrite bind_run. reflexivity. Qed.

Lemma wheelFrame_wheel (ts : Q) (s : App) (k : nat) :
  wheel (fst (wheelFrame ts s k)) = wheelAfterFrame ts (wheel s) (sounds s).
Proof.
  unfold wheelFrame, wheelAfterFrame.
  destruct (stage (wheel s)) as [|anim target| | |]; try reflexivity.
  - destruct (step ts anim (sounds s)) as [[[deg log] anim'] resolved].
    destruct resolved; reflexivity.
  - destruct (negb (prefersReducedMotion host)); [reflexivity|].
    unfold finishSpin. destruct (wheelDiscRect host) as [[a b] c].
    rewrite bind_run. reflexivity.
Qed.

Lemma handle_frame_wheel (ts : Q) (s : App) (k : nat) :
  wheel (fst (handle (AnimationFrame ts) s k))
  = wheelAfterFrame ts (wheel s) (sounds s).
Proof. rewrite handle_frame, wheelFrame_wheel. reflexivity. Qed.



(** *** The course of a spin *)

Lemma clamp_mono (a b lo hi : Q) :
  lo <= hi -> a <= b -> clamp a lo hi <= clamp b lo hi.
Proof.
  intros Hlh Hab. unfold clamp.
  destruct (Math_min_spec hi a) as [[? ->] | [? ->]];
    destruct (Math_min_spec hi b) as [[? ->] | [? ->]];
    repeat match goal with
           | |- context [Math_max ?x ?y] =>
               destruct (Math_max_spec x y) as [[? ->] | [? ->]]
           end; lra.
Qed.

Lemma easeOutPower_mono (p : positive) (a b : Q) :
  0 <= a -> a <= b -> b <= 1 ->
  0 <= easeOutPower a p /\ easeOutPower a p <= easeOutPower b p
  /\ easeOutPower b p <= 1.
Proof.
  intros Ha Hab Hb. unfold easeOutPower, Math_pow.
  pose proof (Qpower_pos_nonneg (1 - b) p ltac:(lra)).
  pose proof (Qpower_pos_mono (1 - b) (1 - a) p ltac:(lra) ltac:(lra)).
  pose proof (Qpower_pos_mono (1 - a) 1 p ltac:(lra) ltac:(lra)) as P1.
  rewrite Qpower_1 in P1. lra.
Qed.

(* the animation a click starts: where it begins and ends, how long it
   lasts and which easing it was given *)
Lemma spinClick_animation (now : Q) (s : App) (k : nat) (anim : Animation)
    (target : Q) :
  spinning (wheel s) = false ->
  stage (wheel (fst (spinClick now s k))) = Animating anim target ->
  start anim = now
  /\ from anim = wheelRotation (wheel s)
  /\ to anim = target
  /\ target = fst (spinTarget (wheelRotation (wheel s)) k)
  /\ (prefersReducedMotion host = true -> durationMs anim = 2500)
  /\ (prefersReducedMotion host = false ->
      durationMs anim
      = clamp (Math_max 0 (target - wheelRotation (wheel s)) / 360 * 2400)
          14000 26000
      /\ easingFn anim = (fun t => easeOutPower t 7)).
Proof.
  intros Hs. unfold spinClick. rewrite Hs, bind_run. cbn [ret fst wheel stage].
  destruct (prefersReducedMotion host); intros E; injection E as <- <-;
    cbn [animateWheelToWithEasing durationMs start from to easingFn];
    repeat split; try reflexivity; intros; try discriminate;
    split; reflexivity.
Qed.

(** X6. The duration of a spin: with the reduced-motion preference it is
    2500 ms; without it, it is the angle to travel at 2400 ms per turn, which
    always lies between 16800 ms and 24000 ms, so the clamp to the interval
    from 14000 to 26000 never changes it. *)
Theorem spin_duration_is_proportional_to_travel (now : Q) (s : App) (k : nat)
    (anim : Animation) (target : Q) :
  spinning (wheel s) = false ->
  stage (wheel (fst (spinClick now s k))) = Animating anim target ->
  (prefersReducedMotion host = true -> durationMs anim == 2500)
  /\ (prefersReducedMotion host = false ->
      durationMs anim == (target - wheelRotation (wheel s)) / 360 * 2400
      /\ 16800 <= durationMs anim
      /\ durationMs anim < 24000).
Proof.
  intros Hs Hst.
  destruct (spinClick_animation now s k anim target Hs Hst)
    as (_ & _ & _ & Et & Hr & Hf).
  split; [intros Hprm; rewrite (Hr Hprm); reflexivity|].
  intros Hprm. destruct (Hf Hprm) as [Ed _]. rewrite Ed.
  destruct (spinTarget_shape (wheelRotation (wheel s)) k) as (Lo & Hi & _).
  rewrite <- Et in Lo, Hi.
  set (travel := target - wheelRotation (wheel s)) in *.
  destruct (Math_max_spec 0 travel) as [[_ ->] | [L _]]; [|lra].
  pose proof (div_mul_cancel travel 360 ltac:(lra)) as Hq.
  set (q := travel / 360) in *.
  rewrite clamp_inside by nra.
  repeat split; nra.
Qed.

Lemma step_angle (ts : Q) (anim : Animation) (log : list Sound) :
  fst (fst (fst (step ts anim log)))
  = from anim
    + (to anim - from anim)
      * (if prefersReducedMotion host
         then clamp ((ts - start anim) / durationMs anim) 0 1
         else easingFn anim (clamp ((ts - start anim) / durationMs anim) 0 1)).
Proof. reflexivity. Qed.

(** X7. During a spin the wheel never turns backwards: for two timestamps
    in order, the angle shown at the earlier one is at most the angle shown
    at the later one, both lie between the start angle and the target, the
    angle is the start angle up to the starting time and the target from the
    end of the duration on.  This holds with the power easing and, under
    reduced motion, with the linear progress the step uses instead. *)
Theorem wheel_angle_never_turns_back (now ts1 ts2 : Q) (s : App) (k : nat)
    (anim : Animation) (target : Q) :
  spinning (wheel s) = false ->
  stage (wheel (fst (spinClick now s k))) = Animating anim target ->
  ts1 <= ts2 ->
  wheelRotation (wheel s) <= angleAt ts1 anim
  /\ angleAt ts1 anim <= angleAt ts2 anim
  /\ angleAt ts2 anim <= target
  /\ (ts1 <= now -> angleAt ts1 anim == wheelRotation (wheel s))
  /\ (now + durationMs anim <= ts2 -> angleAt ts2 anim == target).
Proof.
  intros Hs Hst Hts.
  destruct (spinClick_animation now s k anim target Hs Hst)
    as (Es & Ef & Eto & Et & Hr & Hf).
  destruct (spinClick_duration now s k anim target Hs Hst) as (Hd & _ & _).
  destruct (spinTarget_shape (wheelRotation (wheel s)) k) as (Lo & _).
  rewrite <- Et in Lo.
  unfold angleAt. rewrite !step_angle, Es, Ef, Eto.
  pose proof (div_mul_cancel (ts1 - now) (durationMs anim) Hd) as Hq1.
  pose proof (div_mul_cancel (ts2 - now) (durationMs anim) Hd) as Hq2.
  set (q1 := (ts1 - now) / durationMs anim) in *.
  set (q2 := (ts2 - now) / durationMs anim) in *.
  assert (Hq : q1 <= q2) by nra.
  pose proof (clamp_bounds q1 0 1 ltac:(lra)) as [A1 B1].
  pose proof (clamp_bounds q2 0 1 ltac:(lra)) as [A2 B2].
  pose proof (clamp_mono q1 q2 0 1 ltac:(lra) Hq) as M.
  assert (Z1 : ts1 <= now -> clamp q1 0 1 == 0).
  { intros H1. assert (q1 <= 0) by nra. unfold clamp.
    destruct (Math_min_spec 1 q1) as [[? ->] | [? ->]];
      repeat match goal with
             | |- context [Math_max ?x ?y] =>
                 destruct (Math_max_spec x y) as [[? ->] | [? ->]]
             end; lra. }
  assert (Z2 : now + durationMs anim <= ts2 -> clamp q2 0 1 = 1).
  { intros H2. assert (1 <= q2) by nra. unfold clamp.
    destruct (Math_min_spec 1 q2) as [[_ ->] | [L _]]; [reflexivity | lra]. }
  set (t1 := clamp q1 0 1) in *. set (t2 := clamp q2 0 1) in *.
  set (r0 := wheelRotation (wheel s)) in *.
  destruct (prefersReducedMotion host) eqn:Hprm.
  - split; [nra|]. split; [nra|]. split; [nra|]. split.
    + intros H1. rewrite (Z1 H1). ring.
    + intros H2. rewrite (Z2 H2). ring.
  - destruct (Hf eq_refl) as [_ Ee]. rewrite Ee.
    destruct (easeOutPower_mono 7 t1 t2 A1 M B2) as (P1 & P2 & P3).
    destruct (easeOutPower_mono 7 t1 t1 A1 ltac:(lra) B1) as (_ & _ & P4).
    split; [nra|]. split; [nra|]. split; [nra|]. split.
    + intros H1.
      assert (E0 : easeOutPower t1 7 == 0).
      { unfold easeOutPower, Math_pow.
        assert (E : (1 - t1) ^ 7 == 1 ^ 7)
          by (apply Qpower_comp; [rewrite (Z1 H1); ring | reflexivity]).
        rewrite E. reflexivity. }
      rewrite E0. ring.
    + intros H2. rewrite (Z2 H2).
      assert (E1 : easeOutPower 1 7 == 1) by reflexivity.
      rewrite E1. ring.
Qed.

Lemma run_snoc (events : list Event) (e : Event) (s : App) (k : nat) :
  run (events ++ [e]) s k
  = handle e (fst (run events s k)) (snd (run events s k)).
Proof.
  revert s k. induction events as [|e0 rest IH]; intros s k.
  - cbn [app]. rewrite run_app. cbn [run ret fst snd].
    destruct (handle e s k); reflexivity.
  - cbn [app]. rewrite !run_app. apply IH.
Qed.

Lemma spinClick_duration_range (now : Q) (s : App) (k : nat) (anim : Animation)
    (target : Q) :
  spinning (wheel s) = false ->
  stage (wheel (fst (spinClick now s k))) = Animating anim target ->
  0 < durationMs anim /\ durationMs anim <= 24000.
Proof.
  intros Hs Hst.
  destruct (spinClick_animation now s k anim target Hs Hst)
    as (_ & _ & _ & Et & Hr & Hf).
  destruct (prefersReducedMotion host) eqn:Hprm.
  - rewrite (Hr eq_refl). split; lra.
  - destruct (Hf eq_refl) as [Ed _]. rewrite Ed.
    destruct (spinTarget_shape (wheelRotation (wheel s)) k) as (Lo & Hi & _).
    rewrite <- Et in Lo, Hi.
    set (travel := target - wheelRotation (wheel s)) in *.
    destruct (Math_max_spec 0 travel) as [[_ ->] | [L _]]; [|lra].
    pose proof (div_mul_cancel travel 360 ltac:(lra)) as Hq.
    set (q := travel / 360) in *.
    rewrite clamp_inside by nra. split; nra.
Qed.

Lemma finishSpin_run (now : Q) (s : App) (k : nat) :
  let '(r_left, r_top, r_width) := wheelDiscRect host in
  fst (finishSpin now s k)
  = mkApp
      (ensureFxLoop now
         (fst (spawnConfetti (r_left + r_width / 2) (r_top + 40) 140 3.6 (fx s) k)))
      (mkWheel (wheelRotation (wheel s)) false false (isSpinningClass (wheel s)) true
         NotRunning)
      (sounds s).
Proof.
  unfold finishSpin. destruct (wheelDiscRect host) as [[a b] c].
  rewrite bind_run. reflexivity.
Qed.

Lemma ensureFxLoop_fields (now : Q) (f : Fx) :
  fxParticles (ensureFxLoop now f) = fxParticles f
  /\ rainDrops (ensureFxLoop now f) = rainDrops f
  /\ rainEnabled (ensureFxLoop now f) = rainEnabled f
  /\ (fxCtx host = true -> fxRunning (ensureFxLoop now f) = true)
  /\ (fxCtx host = false -> ensureFxLoop now f = f).
Proof.
  unfold ensureFxLoop, startFxLoop.
  destruct (fxCtx host); cbn [negb]; destruct (fxRunning f) eqn:E;
    repeat split; auto; intros; discriminate.
Qed.

Lemma spinClick_duration_floor (now : Q) (s : App) (k : nat) (anim : Animation)
    (target : Q) :
  spinning (wheel s) = false ->
  stage (wheel (fst (spinClick now s k))) = Animating anim target ->
  (if prefersReducedMotion host then 2500 else 16800) <= durationMs anim.
Proof.
  intros Hs Hst.
  destruct (spinClick_animation now s k anim target Hs Hst)
    as (_ & _ & _ & Et & Hr & Hf).
  destruct (prefersReducedMotion host) eqn:Hprm.
  - rewrite (Hr eq_refl). lra.
  - destruct (Hf eq_refl) as [Ed _]. rewrite Ed.
    destruct (spinTarget_shape (wheelRotation (wheel s)) k) as (Lo & Hi & _).
    rewrite <- Et in Lo, Hi.
    set (travel := target - wheelRotation (wheel s)) in *.
    destruct (Math_max_spec 0 travel) as [[_ ->] | [L _]]; [|lra].
    pose proof (div_mul_cancel travel 360 ltac:(lra)) as Hq.
    set (q := travel / 360) in *.
    rewrite clamp_inside by nra. nra.
Qed.

Lemma last_default {A : Type} (l : list A) (b d d' : A) :
  List.last (b :: l) d = List.last (b :: l) d'.
Proof.
  revert b. induction l as [|c l IH]; intros b; [reflexivity|].
  change (List.last (b :: c :: l) d) with (List.last (c :: l) d).
  change (List.last (b :: c :: l) d') with (List.last (c :: l) d').
  apply IH.
Qed.

Lemma last_cons {A : Type} (a : A) (l : list A) (d : A) :
  List.last (a :: l) d = List.last l a.
Proof.
  destruct l as [|b l]; [reflexivity|].
  change (List.last (a :: b :: l) d) with (List.last (b :: l) d).
  apply last_default.
Qed.

(* before the end of the duration the step asks for another frame *)
Lemma step_unresolved (ts : Q) (anim : Animation) (log : list Sound) :
  0 < durationMs anim ->
  ts < start anim + durationMs anim ->
  snd (step ts anim log) = false.
Proof.
  intros Hd Hts. unfold step. cbn [snd].
  pose proof (div_mul_cancel (ts - start anim) (durationMs anim) Hd) as Hq.
  set (q := (ts - start anim) / durationMs anim) in *.
  assert (Q1 : q < 1) by nra.
  apply negb_false_iff, ltb_true. unfold clamp.
  destruct (Math_min_spec 1 q) as [[L _] | [_ ->]]; [lra|].
  destruct (Math_max_spec 0 q) as [[_ ->] | [_ ->]]; lra.
Qed.

(* such a frame shows the angle of its timestamp and keeps the target, the
   duration and the flags of the wheel *)
Lemma frame_before_the_end (ts : Q) (w : Wheel) (log : list Sound)
    (anim : Animation) (target : Q) :
  stage w = Animating anim target ->
  0 < durationMs anim ->
  ts < start anim + durationMs anim ->
  wheelAfterFrame ts w log
  = mkWheel (angleAt ts anim) (spinning w) (spinBtnDisabled w) (isSpinningClass w)
      (prizeModalOpen w)
      (Animating
         (mkAnimation (start anim) (from anim) (to anim) (angleAt ts anim)
            (durationMs anim) (easingFn anim))
         target).
Proof.
  intros Hst Hd Hts. unfold wheelAfterFrame. rewrite Hst.
  pose proof (step_unresolved ts anim log Hd Hts) as Hres.
  unfold angleAt.
  destruct (step ts anim log) as [[[deg l] anim'] resolved] eqn:E.
  cbn [snd] in Hres. subst resolved.
  unfold step in E. injection E as <- _ <-. reflexivity.
Qed.

Lemma run_frames_before_the_end (mids : list Q) (s : App) (k : nat)
    (anim : Animation) (target : Q) :
  stage (wheel s) = Animating anim target ->
  0 < durationMs anim ->
  Forall (fun ts => ts < start anim + durationMs anim) mids ->
  let r := fst (run (map AnimationFrame mids) s k) in
  wheelRotation (wheel r)
  = List.last (map (fun ts => angleAt ts anim) mids) (wheelRotation (wheel s))
  /\ spinning (wheel r) = spinning (wheel s)
  /\ spinBtnDisabled (wheel r) = spinBtnDisabled (wheel s)
  /\ isSpinningClass (wheel r) = isSpinningClass (wheel s)
  /\ prizeModalOpen (wheel r) = prizeModalOpen (wheel s)
  /\ exists p,
       stage (wheel r)
       = Animating
           (mkAnimation (start anim) (from anim) (to anim) p (durationMs anim)
              (easingFn anim))
           target.
Proof.
  revert s k anim. induction mids as [|ts rest IH]; intros s k anim Hst Hd HF r.
  - unfold r. cbn [map run ret fst]. do 5 (split; [reflexivity|]).
    exists (prev anim). rewrite Hst. destruct anim; reflexivity.
  - inversion HF as [|ts' rest' Hts Hrest]; subst ts' rest'.
    unfold r. cbn [map]. rewrite run_app.
    pose proof (handle_frame_wheel ts s k) as W1.
    rewrite (frame_before_the_end ts (wheel s) (sounds s) anim target Hst Hd Hts)
      in W1.
    set (s1 := fst (handle (AnimationFrame ts) s k)) in *.
    set (k1 := snd (handle (AnimationFrame ts) s k)).
    set (anim1 := mkAnimation (start anim) (from anim) (to anim) (angleAt ts anim)
                    (durationMs anim) (easingFn anim)).
    assert (Hst1 : stage (wheel s1) = Animating anim1 target)
      by (rewrite W1; reflexivity).
    destruct (IH s1 k1 anim1 Hst1 Hd Hrest) as (A & B & C & D & E & (p & F)).
    rewrite A, B, C, D, E, W1.
    cbn [wheelRotation spinning spinBtnDisabled isSpinningClass prizeModalOpen].
    split; [cbn [map]; rewrite last_cons; reflexivity|].
    do 4 (split; [reflexivity|]).
    exists p. exact F.
Qed.

(* without the reduced-motion preference no frame releases the wheel or
   opens the modal *)
Lemma frames_keep_the_handler_suspended (tss : list Q) (s : App) (k : nat) :
  prefersReducedMotion host = false ->
  let r := fst (run (map AnimationFrame tss) s k) in
  spinning (wheel r) = spinning (wheel s)
  /\ spinBtnDisabled (wheel r) = spinBtnDisabled (wheel s)
  /\ prizeModalOpen (wheel r) = prizeModalOpen (wheel s).
Proof.
  intros Hprm. revert s k. induction tss as [|ts rest IH]; intros s k r.
  - unfold r. cbn [map run ret fst]. auto.
  - unfold r. cbn [map]. rewrite run_app.
    destruct (IH (fst (handle (AnimationFrame ts) s k))
                (snd (handle (AnimationFrame ts) s k))) as (A & B & C).
    rewrite A, B, C, handle_frame_wheel. unfold wheelAfterFrame.
    destruct (stage (wheel s)) as [|anim target| | |]; try (repeat split; reflexivity).
    + destruct (step ts anim (sounds s)) as [[[deg l] anim'] resolved].
      destruct resolved; repeat split; reflexivity.
    + rewrite Hprm. repeat split; reflexivity.
Qed.

(* the stages of a session: the click, any frames before the end of the
   animation, the first frame at or after the end, and the first paint
   frame; the same with and without the reduced-motion preference *)
Lemma session_stages (now ts1 ts2 : Q) (mids : list Q) (s : App) (k : nat)
    (anim : Animation) (target : Q) :
  spinning (wheel s) = false ->
  stage (wheel (fst (spinClick now s k))) = Animating anim target ->
  Forall (fun ts => ts < now + durationMs anim) mids ->
  now + durationMs anim <= ts1 ->
  let pre := SpinClick now :: map AnimationFrame mids in
  let r1 := fst (run pre s k) in
  let r2 := fst (run (pre ++ [AnimationFrame ts1]) s k) in
  let r3 := fst (run (pre ++ [AnimationFrame ts1; AnimationFrame ts2]) s k) in
  (wheelRotation (wheel r1)
   = List.last (map (fun ts => angleAt ts anim) mids) (wheelRotation (wheel s))
   /\ spinning (wheel r1) = true
   /\ spinBtnDisabled (wheel r1) = true
   /\ isSpinningClass (wheel r1) = true
   /\ prizeModalOpen (wheel r1) = prizeModalOpen (wheel s)
   /\ exists p,
        stage (wheel r1)
        = Animating
            (mkAnimation now (wheelRotation (wheel s)) target p (durationMs anim)
               (easingFn anim))
            target)
  /\ wheel r2 = mkWheel target true true false (prizeModalOpen (wheel s)) FirstPaint
  /\ wheel r3 = mkWheel target true true false (prizeModalOpen (wheel s)) SecondPaint.
Proof.
  intros Hs Hst HF Hts pre r1 r2 r3.
  destruct (spinClick_animation now s k anim target Hs Hst)
    as (Estart & Efrom & Eto & Et & _).
  destruct (spinClick_duration_range now s k anim target Hs Hst) as [D0 _].
  destruct (spinClick_run now s k Hs) as (anim0 & E1 & _).
  set (s0 := fst (spinClick now s k)) in *.
  assert (W0 : wheel s0 = mkWheel (wheelRotation (wheel s)) true true true
                            (prizeModalOpen (wheel s)) (Animating anim target)).
  { assert (E0 : wheel s0
                 = mkWheel (wheelRotation (wheel s)) true true true
                     (prizeModalOpen (wheel s))
                     (Animating anim0 (fst (spinTarget (wheelRotation (wheel s)) k))))
      by (unfold s0; rewrite E1; reflexivity).
    rewrite E0 in Hst. cbn [stage] in Hst. rewrite E0, Hst. reflexivity. }
  assert (R1 : run pre s k
               = run (map AnimationFrame mids) s0 (snd (spinClick now s k))).
  { unfold pre. rewrite run_app. reflexivity. }
  assert (HF' : Forall (fun ts => ts < start anim + durationMs anim) mids)
    by (rewrite Estart; exact HF).
  destruct (run_frames_before_the_end mids s0 (snd (spinClick now s k)) anim target
              Hst D0 HF') as (A & B & C & D & E & (p & F)).
  rewrite <- R1 in A, B, C, D, E, F. fold r1 in A, B, C, D, E, F.
  rewrite W0 in A, B, C, D, E.
  cbn [wheelRotation spinning spinBtnDisabled isSpinningClass prizeModalOpen]
    in A, B, C, D, E.
  rewrite Estart, Efrom, Eto in F.
  assert (W2 : wheel r2 = mkWheel target true true false (prizeModalOpen (wheel s))
                            FirstPaint).
  { unfold r2. rewrite run_snoc, handle_frame_wheel. fold r1.
    unfold wheelAfterFrame. rewrite F, B, C, E.
    set (animp := mkAnimation now (wheelRotation (wheel s)) target p
                    (durationMs anim) (easingFn anim)).
    pose proof (step_resolved ts1 animp (sounds r1) D0 Hts) as Hres.
    destruct (step ts1 animp (sounds r1)) as [[[deg l] anim'] resolved].
    cbn [snd] in Hres. subst resolved. reflexivity. }
  split; [repeat (split; [assumption|]); exists p; exact F|].
  split; [exact W2|].
  unfold r3.
  replace (pre ++ [AnimationFrame ts1; AnimationFrame ts2])
    with ((pre ++ [AnimationFrame ts1]) ++ [AnimationFrame ts2])
    by (rewrite <- app_assoc; reflexivity).
  rewrite run_snoc, handle_frame_wheel. fold r2. rewrite W2. reflexivity.
Qed.

(** X8. A whole spin without the reduced-motion preference: a click on the
    idle wheel, any number of frames before the end of the animation, the
    first frame at or after its end, two paint frames and the settle timer.
    After each intermediate frame the wheel shows the angle of that frame's
    timestamp and the handler still aims at the same target; the first frame
    at or after the end puts the wheel on the target; no frame, however
    many arrive, releases the wheel or opens the modal; when the timer
    fires the page is back to idle with the prize modal open, the button
    released and the wheel on the target, which is on the prize sector, and
    no sound is added.  With a rendering surface that last step adds 140
    particles and leaves the FX loop running.  The source asks for the timer
    650 ms after the second paint frame; when it fires is up to the host and
    does not enter the statement. *)
Theorem full_spin_session_ends_on_the_prize (now ts1 ts2 ts3 ts4 : Q)
    (mids : list Q) (s : App) (k : nat) (anim : Animation) (target : Q) :
  prefersReducedMotion host = false ->
  spinning (wheel s) = false ->
  stage (wheel (fst (spinClick now s k))) = Animating anim target ->
  Forall (fun ts => ts < now + durationMs anim) mids ->
  now + durationMs anim <= ts1 ->
  let pre (tss : list Q) := SpinClick now :: map AnimationFrame tss in
  let frames := pre mids ++ [AnimationFrame ts1; AnimationFrame ts2;
                             AnimationFrame ts3] in
  let r4 := fst (run frames s k) in
  let r5 := fst (run (frames ++ [SettleTimeout ts4]) s k) in
  target = fst (spinTarget (wheelRotation (wheel s)) k)
  /\ (forall n, (n <= length mids)%nat ->
        wheelRotation (wheel (fst (run (pre (take n mids)) s k)))
        = List.last (map (fun ts => angleAt ts anim) (take n mids))
            (wheelRotation (wheel s))
        /\ exists p,
             stage (wheel (fst (run (pre (take n mids)) s k)))
             = Animating
                 (mkAnimation now (wheelRotation (wheel s)) target p
                    (durationMs anim) (easingFn anim))
                 target)
  /\ wheelRotation (wheel (fst (run (pre mids ++ [AnimationFrame ts1]) s k)))
     = target
  /\ (forall tss,
        spinning (wheel (fst (run (pre tss) s k))) = true
        /\ spinBtnDisabled (wheel (fst (run (pre tss) s k))) = true
        /\ prizeModalOpen (wheel (fst (run (pre tss) s k)))
           = prizeModalOpen (wheel s))
  /\ wheel r4 = mkWheel target true true false (prizeModalOpen (wheel s)) SettlePause
  /\ wheel r5 = mkWheel target false false false true NotRunning
  /\ sectorIndexAt (wheelRotation (wheel r5)) == prizeIndex
  /\ sounds r5 = sounds r4
  /\ (fxCtx host = true ->
      fxRunning (fx r5) = true
      /\ rainDrops (fx r5) = rainDrops (fx r4)
      /\ exists fresh,
           fxParticles (fx r5) = fxParticles (fx r4) ++ fresh
           /\ length fresh = 140%nat).
Proof.
  intros Hprm Hs Hst HF Hts pre frames r4 r5.
  destruct (spinClick_animation now s k anim target Hs Hst) as (_ & _ & _ & Et & _).
  destruct (session_stages now ts1 ts2 mids s k anim target Hs Hst HF Hts)
    as (_ & W2 & W3).
  assert (W4 : wheel r4 = mkWheel target true true false (prizeModalOpen (wheel s))
                            SettlePause).
  { unfold r4, frames.
    replace (pre mids ++ [AnimationFrame ts1; AnimationFrame ts2; AnimationFrame ts3])
      with ((pre mids ++ [AnimationFrame ts1; AnimationFrame ts2])
            ++ [AnimationFrame ts3])
      by (rewrite <- app_assoc; reflexivity).
    rewrite run_snoc, handle_frame_wheel. unfold pre. rewrite W3.
    unfold wheelAfterFrame. cbn [stage]. rewrite Hprm. reflexivity. }
  assert (R5 : r5 = fst (finishSpin ts4 r4 (snd (run frames s k)))).
  { unfold r5. rewrite run_snoc. cbn [handle]. unfold settleTimeout.
    fold r4. rewrite W4. reflexivity. }
  pose proof (finishSpin_run ts4 r4 (snd (run frames s k))) as F.
  destruct (wheelDiscRect host) as [[r_left r_top] r_width].
  rewrite <- R5 in F.
  split; [exact Et|].
  split.
  { intros n Hn.
    destruct (session_stages now ts1 ts2 (take n mids) s k anim target Hs Hst
                ltac:(apply Forall_take; exact HF) Hts)
      as ((A & _ & _ & _ & _ & P) & _).
    split; [exact A | exact P]. }
  split; [unfold pre; rewrite W2; reflexivity|].
  split.
  { intros tss. unfold pre. rewrite run_app.
    destruct (frames_keep_the_handler_suspended tss
                (fst (handle (SpinClick now) s k)) (snd (handle (SpinClick now) s k))
                Hprm) as (A & B & C).
    rewrite A, B, C. cbn [handle].
    destruct (spinClick_run now s k Hs) as (anim0 & E1 & _). rewrite E1.
    repeat split; reflexivity. }
  split; [exact W4|].
  split; [rewrite F, W4; reflexivity|].
  split.
  { rewrite F, W4. cbn [wheel wheelRotation]. rewrite Et.
    apply (spinTarget_on_prize_sector (wheelRotation (wheel s)) k). }
  split; [rewrite F; reflexivity|].
  intros Hctx. rewrite F. cbn [fx].
  set (sp := spawnConfetti (r_left + r_width / 2) (r_top + 40) 140 3.6 (fx r4)
               (snd (run frames s k))).
  destruct (ensureFxLoop_fields ts4 (fst sp)) as (Ep & Ed & _ & Er & _).
  rewrite Ep, Ed. split; [apply Er; exact Hctx|].
  unfold sp, spawnConfetti. rewrite Hctx, Hprm. cbn [negb orb].
  rewrite bind_run, spawnLoop_run. cbn [ret fst fxParticles rainDrops].
  split; [reflexivity|].
  eexists. split; [reflexivity|]. rewrite length_map, length_seq. reflexivity.
Qed.

Lemma stepParticles_length (ps : list Particle.t) :
  (length (stepParticles ps) <= length ps)%nat.
Proof.
  induction ps as [|p rest IH]; cbn [stepParticles length]; [lia|].
  destruct (expired (updateParticle p)); cbn [length]; lia.
Qed.

Lemma renderFxFrame_particles (dt : Q) (advance : bool) (f : Fx) (k : nat) :
  fxParticles (fst (renderFxFrame dt advance f k))
  = if fxCtx host then stepParticles (fxParticles f) else fxParticles f.
Proof.
  unfold renderFxFrame. destruct (fxCtx host); cbn [negb]; [|reflexivity].
  rewrite bind_run. reflexivity.
Qed.

Lemma fxTick_particles (ts : Q) (f : Fx) (k : nat) :
  fxParticles (fst (fxTick ts f k))
  = if fxCtx host then stepParticles (fxParticles f) else fxParticles f.
Proof.
  unfold fxTick. destruct (fxCtx host) eqn:Hctx; cbn [negb]; [|reflexivity].
  rewrite bind_run.
  match goal with |- context [if ?c then _ else _] => destruct c end;
    cbn [ret fst fxParticles]; rewrite renderFxFrame_particles, Hctx; reflexivity.
Qed.

Lemma handle_pool_reduced (e : Event) (s : App) (k : nat) :
  prefersReducedMotion host = true ->
  (length (fxParticles (fx (fst (handle e s k)))) <= length (fxParticles (fx s)))%nat.
Proof.
  intros Hprm.
  assert (Tick : forall ts,
             (length (fxParticles
                        (fst ((if fxRunning (fx s) then fxTick ts (fx s)
                               else ret (fx s)) k)))
              <= length (fxParticles (fx s)))%nat).
  { intros ts. destruct (fxRunning (fx s)); [|cbn [ret fst]; lia].
    rewrite fxTick_particles. destruct (fxCtx host); [|lia].
    apply stepParticles_length. }
  destruct e as [now | ts | now |].
  - cbn [handle]. unfold spinClick. destruct (spinning (wheel s)); [cbn; lia|].
    rewrite bind_run. cbn [ret fst fx]. lia.
  - rewrite handle_frame. specialize (Tick ts).
    set (f := fst ((if fxRunning (fx s) then fxTick ts (fx s) else ret (fx s)) k)) in *.
    set (k1 := snd ((if fxRunning (fx s) then fxTick ts (fx s) else ret (fx s)) k)).
    unfold wheelFrame. cbn [wheel sounds fx].
    destruct (stage (wheel s)) as [|anim target| | |]; cbn [ret fst fx]; try exact Tick.
    + destruct (step ts anim (sounds s)) as [[[deg log] anim'] resolved].
      destruct resolved; cbn [ret fst fx]; exact Tick.
    + rewrite Hprm. cbn [negb].
      pose proof (finishSpin_run ts (mkApp f (wheel s) (sounds s)) k1) as F.
      destruct (wheelDiscRect host) as [[a b] c]. rewrite F. cbn [fx].
      destruct (ensureFxLoop_fields ts
                  (fst (spawnConfetti (a + c / 2) (b + 40) 140 3.6 f k1)))
        as (Ep & _). rewrite Ep.
      unfold spawnConfetti. rewrite Hprm, orb_true_r. cbn [ret fst]. exact Tick.
  - cbn [handle]. unfold settleTimeout.
    destruct (stage (wheel s)); cbn [ret fst]; try lia.
    pose proof (finishSpin_run now s k) as F.
    destruct (wheelDiscRect host) as [[a b] c]. rewrite F. cbn [fx].
    destruct (ensureFxLoop_fields now
                (fst (spawnConfetti (a + c / 2) (b + 40) 140 3.6 (fx s) k)))
      as (Ep & _). rewrite Ep.
    unfold spawnConfetti. rewrite Hprm, orb_true_r. cbn [ret fst]. lia.
  - cbn [handle]. rewrite bind_run. cbn [ret fst fx].
    unfold resizeFx. destruct (negb (fxCtx host)); [cbn [ret fst]; lia|].
    unfold syncRainDrops. destruct (negb (rainEnabled (fx s))); [cbn [ret fst]; lia|].
    rewrite !bind_run. cbn [ret fst fxParticles]. lia.
Qed.

Lemma run_pool_reduced (events : list Event) (s : App) (k : nat) :
  prefersReducedMotion host = true ->
  (length (fxParticles (fx (fst (run events s k)))) <= length (fxParticles (fx s)))%nat.
Proof.
  intros Hprm. revert s k.
  induction events as [|e rest IH]; intros s k; [cbn; lia|].
  rewrite run_app.
  etransitivity; [apply IH|]. apply handle_pool_reduced. exact Hprm.
Qed.

Lemma run_silent (events : list Event) (s : App) (k : nat) :
  prefersReducedMotion host = true ->
  sounds (fst (run events s k)) = sounds s.
Proof.
  intros Hprm. revert s k.
  induction events as [|e rest IH]; intros s k; [reflexivity|].
  rewrite run_app, IH. apply handle_silent. exact Hprm.
Qed.

(** X9. A whole spin under the reduced-motion preference needs no timer:
    a click on the idle wheel, any number of frames before 2500 ms have
    passed, the first frame at or after 2500 ms and two paint frames bring
    the page back to idle with the prize modal open and the wheel on the
    target, on the prize sector; a settle timer arriving afterwards changes
    nothing.  After the intermediate frames the wheel is still spinning and
    shows the angle that is linear in the time since the click.  Under this
    preference no event sequence ever makes the particle pool grow or adds a
    sound request. *)
Theorem reduced_motion_session_needs_no_timer (now ts1 ts2 ts3 ts4 : Q)
    (mids : list Q) (events : list Event) (s : App) (k : nat) :
  prefersReducedMotion host = true ->
  spinning (wheel s) = false ->
  Forall (fun ts => ts < now + 2500) mids ->
  now + 2500 <= ts1 ->
  let rot := wheelRotation (wheel s) in
  let target := fst (spinTarget rot k) in
  let pre := SpinClick now :: map AnimationFrame mids in
  let r4 := run (pre ++ [AnimationFrame ts1; AnimationFrame ts2; AnimationFrame ts3])
              s k in
  (wheelRotation (wheel (fst (run pre s k)))
   = List.last
       (map (fun ts => rot + (target - rot) * clamp ((ts - now) / 2500) 0 1) mids)
       rot
   /\ spinning (wheel (fst (run pre s k))) = true
   /\ prizeModalOpen (wheel (fst (run pre s k))) = prizeModalOpen (wheel s))
  /\ wheel (fst r4) = mkWheel target false false false true NotRunning
  /\ sectorIndexAt (wheelRotation (wheel (fst r4))) == prizeIndex
  /\ handle (SettleTimeout ts4) (fst r4) (snd r4) = r4
  /\ (length (fxParticles (fx (fst (run events s k))))
      <= length (fxParticles (fx s)))%nat
  /\ sounds (fst (run events s k)) = sounds s.
Proof.
  intros Hprm Hs HF Hts rot target pre r4.
  destruct (spinClick_run now s k Hs) as (anim & E1 & _).
  assert (Hst : stage (wheel (fst (spinClick now s k))) = Animating anim target)
    by (rewrite E1; reflexivity).
  destruct (spinClick_animation now s k anim target Hs Hst)
    as (Estart & Efrom & Eto & _ & Hd & _).
  specialize (Hd Hprm).
  destruct (session_stages now ts1 ts2 mids s k anim target Hs Hst
              ltac:(rewrite Hd; exact HF) ltac:(rewrite Hd; exact Hts))
    as ((A & B & _ & _ & C & _) & _ & W3).
  assert (W4 : wheel (fst r4) = mkWheel target false false false true NotRunning).
  { unfold r4.
    replace (pre ++ [AnimationFrame ts1; AnimationFrame ts2; AnimationFrame ts3])
      with ((pre ++ [AnimationFrame ts1; AnimationFrame ts2])
            ++ [AnimationFrame ts3])
      by (rewrite <- app_assoc; reflexivity).
    rewrite run_snoc, handle_frame_wheel. unfold pre. rewrite W3.
    unfold wheelAfterFrame. cbn [stage]. rewrite Hprm. reflexivity. }
  split.
  { split; [|split; [exact B | exact C]].
    unfold pre. rewrite A. fold rot. f_equal. apply map_ext. intros ts.
    unfold angleAt. rewrite step_angle, Hprm, Estart, Efrom, Eto, Hd. reflexivity. }
  split; [exact W4|]. split; [|split; [|split]].
  - rewrite W4. cbn [wheelRotation].
    apply (spinTarget_on_prize_sector (wheelRotation (wheel s)) k).
  - cbn [handle]. unfold settleTimeout. rewrite W4. cbn [stage ret].
    destruct r4; reflexivity.
  - apply run_pool_reduced. exact Hprm.
  - apply run_silent. exact Hprm.
Qed.

(** *** The rain layer over the frames *)

Lemma mapM_lookup {A B : Type} (f : A -> Rand B) (l : list A) (k i : nat) (a : A) :
  l !! i = Some a ->
  exists j, fst (mapM f l k) !! i = Some (fst (f a j)).
Proof.
  revert k i. induction l as [|v l IH]; intros k i Hi; [discriminate|].
  cbn [mapM]. rewrite !bind_run. cbn [ret fst].
  destruct i as [|i]; cbn in Hi |- *.
  - injection Hi as ->. exists k. reflexivity.
  - apply (IH _ _ Hi).
Qed.

Lemma mapM_map_Forall {A B C : Type} (f : A -> Rand B) (g : A -> C) (h : B -> C)
    (P : A -> Prop) (l : list A) (k : nat) :
  (forall a j, P a -> h (fst (f a j)) = g a) ->
  Forall P l ->
  map h (fst (mapM f l k)) = map g l.
Proof.
  intros Hf. revert k. induction l as [|v l IH]; intros k HP; [reflexivity|].
  inversion HP; subst. cbn [mapM]. rewrite !bind_run. cbn [ret fst map].
  rewrite IH by assumption. f_equal. apply Hf. assumption.
Qed.

Lemma renderFxFrame_rain (dt : Q) (advance : bool) (f : Fx) (k : nat) :
  rainDrops (fst (renderFxFrame dt advance f k))
  = if fxCtx host && rainEnabled f && (0 <? length (rainDrops f))%nat
    then fst (mapM (renderDrop dt advance) (rainDrops f) k)
    else rainDrops f.
Proof.
  unfold renderFxFrame. destruct (fxCtx host); cbn [negb andb]; [|reflexivity].
  rewrite bind_run. cbn [ret fst rainDrops].
  destruct (rainEnabled f && (0 <? length (rainDrops f))%nat); reflexivity.
Qed.

Lemma renderFxFrame_flags (dt : Q) (advance : bool) (f : Fx) (k : nat) :
  rainEnabled (fst (renderFxFrame dt advance f k)) = rainEnabled f
  /\ fxRunning (fst (renderFxFrame dt advance f k)) = fxRunning f
  /\ fxLastTs (fst (renderFxFrame dt advance f k)) = fxLastTs f.
Proof.
  unfold renderFxFrame. destruct (fxCtx host); cbn [negb]; [|auto].
  rewrite bind_run. cbn [ret fst]. auto.
Qed.

(* what a tick does to each component of the FX state *)
Lemma fxTick_fields (ts : Q) (f : Fx) (k : nat) :
  fxCtx host = true ->
  let f1 := mkFx (fxRunning f) ts (rainEnabled f) (rainDrops f) (fxParticles f) in
  let f' := fst (fxTick ts f k) in
  rainDrops f' = rainDrops (fst (renderFxFrame (tickDt ts f) true f1 k))
  /\ fxParticles f' = stepParticles (fxParticles f)
  /\ rainEnabled f' = rainEnabled f
  /\ fxLastTs f' = ts
  /\ fxRunning f'
     = fxRunning f
       && ((rainEnabled f && (0 <? length (rainDrops f'))%nat)
           || (0 <? length (fxParticles f'))%nat).
Proof.
  intros Hctx f1 f'.
  unfold f', fxTick. rewrite Hctx. cbn [negb]. rewrite bind_run. fold f1.
  change (clamp (ts - fxLastTs f) 0 34 / 1000) with (tickDt ts f).
  destruct (renderFxFrame_flags (tickDt ts f) true f1 k) as (Fe & Fr & Fl).
  pose proof (renderFxFrame_particles (tickDt ts f) true f1 k) as Fp.
  rewrite Hctx in Fp.
  set (r := fst (renderFxFrame (tickDt ts f) true f1 k)) in *.
  cbn [rainEnabled fxRunning fxLastTs fxParticles f1] in Fe, Fr, Fl, Fp.
  rewrite Fe.
  destruct ((rainEnabled f && (0 <? length (rainDrops r))%nat)
            || (0 <? length (fxParticles r))%nat) eqn:Work;
    cbn [ret fst rainDrops fxParticles rainEnabled fxLastTs fxRunning].
  - rewrite Work, andb_true_r. auto.
  - rewrite Work, andb_false_r. auto.
Qed.

Lemma fxTick_no_surface (ts : Q) (f : Fx) (k : nat) :
  fxCtx host = false -> fxTick ts f k = (f, k).
Proof. intros Hctx. unfold fxTick. rewrite Hctx. reflexivity. Qed.

Lemma fxTick_rain_length (ts : Q) (f : Fx) (k : nat) :
  length (rainDrops (fst (fxTick ts f k))) = length (rainDrops f).
Proof.
  destruct (fxCtx host) eqn:Hctx; [|rewrite fxTick_no_surface by exact Hctx; reflexivity].
  destruct (fxTick_fields ts f k Hctx) as (Er & _). rewrite Er.
  rewrite renderFxFrame_rain. cbn [rainEnabled rainDrops].
  destruct (fxCtx host && rainEnabled f && (0 <? length (rainDrops f))%nat);
    [apply mapM_length | reflexivity].
Qed.

Lemma fxTick_rain_sides (ts : Q) (f : Fx) (k : nat) :
  Forall (fun d => Drop.side d <> None) (rainDrops f) ->
  map Drop.side (rainDrops (fst (fxTick ts f k))) = map Drop.side (rainDrops f).
Proof.
  intros HF.
  destruct (fxCtx host) eqn:Hctx; [|rewrite fxTick_no_surface by exact Hctx; reflexivity].
  destruct (fxTick_fields ts f k Hctx) as (Er & _). rewrite Er.
  rewrite renderFxFrame_rain. cbn [rainEnabled rainDrops].
  destruct (fxCtx host && rainEnabled f && (0 <? length (rainDrops f))%nat);
    [|reflexivity].
  apply (mapM_map_Forall _ _ _ (fun d => Drop.side d <> None)); [|exact HF].
  intros d j Hd. destruct (Drop.side d) as [sd|] eqn:E; [|congruence].
  apply renderDrop_side. exact E.
Qed.

Lemma sides_all_set (l1 l2 : list Drop.t) :
  map Drop.side l1 = map Drop.side l2 ->
  Forall (fun d => Drop.side d <> None) l2 ->
  Forall (fun d => Drop.side d <> None) l1.
Proof.
  revert l2. induction l1 as [|d1 l1 IH]; intros [|d2 l2] E HF;
    try discriminate; [constructor|].
  cbn [map] in E. injection E as E1 E2. inversion HF; subst.
  constructor; [congruence | eapply IH; eassumption].
Qed.

(** X10. The rain pool is never thinned out by the frames: after any number
    of ticks of the FX loop, at any timestamps, the pool has as many drops
    as before, each drop is still on the side it had, and so the numbers of
    left and right drops are unchanged; a drop that falls out of view is
    recycled in place. *)
Theorem ticks_keep_every_drop_on_its_side (tss : list Q) (f : Fx) (k : nat) :
  Forall (fun d => Drop.side d <> None) (rainDrops f) ->
  let drops' := rainDrops (fst (fxTicks tss f k)) in
  length drops' = length (rainDrops f)
  /\ map Drop.side drops' = map Drop.side (rainDrops f)
  /\ sideCount Left drops' = sideCount Left (rainDrops f)
  /\ sideCount Right drops' = sideCount Right (rainDrops f).
Proof.
  intros HF drops'.
  assert (M : map Drop.side drops' = map Drop.side (rainDrops f)).
  { unfold drops'. clear drops'. revert f k HF.
    induction tss as [|ts rest IH]; intros f k HF; [reflexivity|].
    cbn [fxTicks]. rewrite bind_run.
    pose proof (fxTick_rain_sides ts f k HF) as E1.
    rewrite IH; [exact E1|]. eapply sides_all_set; eassumption. }
  split; [|split; [exact M | split; apply sideCount_same_sides; exact M]].
  rewrite <- (length_map Drop.side drops'), M, length_map. reflexivity.
Qed.

Ltac draw_bounds :=
  repeat match goal with
         | |- context [rnd ?j] =>
             lazymatch goal with
             | _ : 0 <= rnd j /\ rnd j < 1 |- _ => fail
             | _ => pose proof (rnd_unit j)
             end
         end.

Lemma rainIcons_pick (k : nat) :
  exists icon,
    JS.get rainIcons (toInt32 (rnd k * inject_Z (Z.of_nat (length rainIcons))))
    = Some icon
    /\ In icon rainIcons.
Proof.
  pose proof (random_index k 7 ltac:(lia)) as Hj.
  change (inject_Z (Z.of_nat (length rainIcons))) with (inject_Z 7).
  destruct (get_in_range rainIcons (toInt32 (rnd k * inject_Z 7))) as (c & Hg & Hl).
  { cbn [rainIcons length]. lia. }
  exists c. split; [exact Hg|].
  apply list_elem_of_In. apply list_elem_of_lookup. eauto.
Qed.

Lemma resetDrop_icon (d : Drop.t) (startAbove keepSide : bool) (k : nat) :
  Drop.icon (fst (resetDrop d startAbove keepSide k))
  = JS.get rainIcons (toInt32 (rnd k * inject_Z (Z.of_nat (length rainIcons)))).
Proof.
  unfold resetDrop, rand, bind, Math_random, ret.
  destruct startAbove, keepSide, (Drop.side d) as [sd|]; cbn [negb orb];
    match goal with |- context [sideBounds ?s] => destruct (sideBounds s) end;
    reflexivity.
Qed.

(** X11. Whatever drop resetDrop is given and whatever it draws, the drop it
    returns has an icon from the list, a side, a size from 18 up to 30, a
    downward speed from 55 up to 140, a sideways speed from -6 up to 6, a
    sway rate from 0.8 up to 1.6 and an opacity from 0.22 up to 0.42; started
    above, it lies between 120 above the top edge and 35% of the viewport
    height, otherwise between the top and the bottom edge; and in a viewport
    at least 20 wide its x lies in the band of its side. *)
Theorem resetDrop_output_ranges (d : Drop.t) (startAbove keepSide : bool) (k : nat) :
  (0 <= innerHeight host)%Z ->
  let d' := fst (resetDrop d startAbove keepSide k) in
  (exists icon, Drop.icon d' = Some icon /\ In icon rainIcons)
  /\ (exists sd, Drop.side d' = Some sd)
  /\ (18 <= Drop.size d' /\ Drop.size d' < 30)
  /\ (55 <= Drop.vy d' /\ Drop.vy d' < 140)
  /\ (-6 <= Drop.vx d' /\ Drop.vx d' < 6)
  /\ (0.8 <= Drop.vphase d' /\ Drop.vphase d' < 1.6)
  /\ (0.22 <= Drop.alpha d' /\ Drop.alpha d' < 0.42)
  /\ (if startAbove
      then -120 <= Drop.y d' /\ Drop.y d' <= H * 0.35
      else 0 <= Drop.y d' /\ Drop.y d' <= H)
  /\ ((20 <= innerWidth host)%Z -> inBand d').
Proof.
  intros Hh d'.
  assert (H0 : 0 <= H).
  { unfold H. change 0 with (inject_Z 0). rewrite <- Zle_Qle. exact Hh. }
  split.
  { unfold d'. rewrite resetDrop_icon. apply rainIcons_pick. }
  split.
  { unfold d'. rewrite resetDrop_side.
    destruct (Drop.side d) as [sd|] eqn:E.
    - destruct (negb keepSide || false); eexists; reflexivity.
    - rewrite orb_true_r. eexists; reflexivity. }
  assert (Fields :
    (18 <= Drop.size d' /\ Drop.size d' < 30)
    /\ (55 <= Drop.vy d' /\ Drop.vy d' < 140)
    /\ (-6 <= Drop.vx d' /\ Drop.vx d' < 6)
    /\ (0.8 <= Drop.vphase d' /\ Drop.vphase d' < 1.6)
    /\ (0.22 <= Drop.alpha d' /\ Drop.alpha d' < 0.42)
    /\ (if startAbove
        then -120 <= Drop.y d' /\ Drop.y d' <= H * 0.35
        else 0 <= Drop.y d' /\ Drop.y d' <= H)).
  { unfold d', resetDrop, rand, bind, Math_random, ret.
    destruct startAbove, keepSide, (Drop.side d) as [sd|]; cbn [negb orb];
      match goal with |- context [sideBounds ?s] => destruct (sideBounds s) end;
      cbn [fst Drop.size Drop.vy Drop.vx Drop.vphase Drop.alpha Drop.y];
      draw_bounds; repeat split; nra. }
  destruct Fields as (F1 & F2 & F3 & F4 & F5 & F6).
  repeat (split; [assumption|]).
  intros Hw. unfold inBand.
  destruct (resetDrop_x d startAbove keepSide k) as (u & U0 & U1 & E).
  fold d' in E. rewrite E.
  pose proof (sideBounds_ordered (Drop.side d') Hw). nra.
Qed.

(* a drop recycled by a frame restarts in the top part of the viewport *)
Lemma resetDrop_recycled_y (d : Drop.t) (k : nat) :
  (0 <= innerHeight host)%Z ->
  -120 <= Drop.y (fst (resetDrop d true true k))
  /\ Drop.y (fst (resetDrop d true true k)) <= H * 0.35.
Proof.
  intros Hh.
  assert (H0 : 0 <= H).
  { unfold H. change 0 with (inject_Z 0). rewrite <- Zle_Qle. exact Hh. }
  unfold resetDrop, rand, bind, Math_random, ret.
  destruct (Drop.side d) as [sd|]; cbn [negb orb];
    match goal with |- context [sideBounds ?s] => destruct (sideBounds s) end;
    cbn [fst Drop.y]; draw_bounds; split; nra.
Qed.

Lemma advanceDrop_y (dt : Q) (d : Drop.t) :
  Drop.y (advanceDrop dt d) = Drop.y d + Drop.vy d * dt
  /\ Drop.vy (advanceDrop dt d) = Drop.vy d.
Proof.
  unfold advanceDrop. cbn [Drop.side].
  destruct (sideBounds _) as [minX maxX].
  repeat match goal with |- context [if ?c then _ else _] => destruct c end;
    split; reflexivity.
Qed.

Lemma tickDt_range (ts : Q) (f : Fx) : 0 <= tickDt ts f /\ tickDt ts f <= 0.034.
Proof.
  unfold tickDt.
  pose proof (clamp_bounds (ts - fxLastTs f) 0 34 ltac:(lra)) as [A B].
  pose proof (div_mul_cancel (clamp (ts - fxLastTs f) 0 34) 1000 ltac:(lra)) as Hq.
  set (q := clamp (ts - fxLastTs f) 0 34 / 1000) in *. split; lra.
Qed.

(** X12. However far apart two ticks are, a tick moves the rain by at most
    34 ms of fall, and never back: the time step is between 0 and 0.034
    seconds, a drop that stays in view moves down by its speed times that
    step, and a drop that would pass more than 36 below the bottom edge is
    recycled to the top part of the viewport; so after every tick each drop
    is at most 36 below the bottom edge. *)
Theorem tick_moves_each_drop_by_a_capped_step (ts : Q) (f : Fx) (k i : nat)
    (d : Drop.t) :
  fxCtx host = true ->
  rainEnabled f = true ->
  (0 <= innerHeight host)%Z ->
  rainDrops f !! i = Some d ->
  0 <= Drop.vy d ->
  let dt := tickDt ts f in
  0 <= dt /\ dt <= 0.034
  /\ fxLastTs (fst (fxTick ts f k)) = ts
  /\ exists d',
       rainDrops (fst (fxTick ts f k)) !! i = Some d'
       /\ Drop.y d' <= H + 36
       /\ (Drop.y d + Drop.vy d * dt <= H + 36 ->
           d' = advanceDrop dt d
           /\ Drop.y d <= Drop.y d'
           /\ Drop.y d' - Drop.y d <= Drop.vy d * 0.034)
       /\ (H + 36 < Drop.y d + Drop.vy d * dt ->
           -120 <= Drop.y d' /\ Drop.y d' <= H * 0.35).
Proof.
  intros Hctx Hen Hh Hi Hvy dt.
  destruct (tickDt_range ts f) as [D0 D1]. fold dt in D0, D1.
  destruct (fxTick_fields ts f k Hctx) as (Er & _ & _ & El & _).
  split; [exact D0|]. split; [exact D1|]. split; [exact El|].
  rewrite Er, renderFxFrame_rain. cbn [rainEnabled rainDrops]. rewrite Hctx, Hen.
  assert (Hlen : (0 <? length (rainDrops f))%nat = true).
  { apply Nat.ltb_lt. apply lookup_lt_Some in Hi. lia. }
  rewrite Hlen. cbn [andb].
  destruct (mapM_lookup (renderDrop (tickDt ts f) true) (rainDrops f) k i d Hi)
    as (j & Hj).
  fold dt in Hj |- *. exists (fst (renderDrop dt true d j)). split; [exact Hj|].
  assert (H0 : 0 <= H).
  { unfold H. change 0 with (inject_Z 0). rewrite <- Zle_Qle. exact Hh. }
  destruct (advanceDrop_y dt d) as [Ey _].
  unfold renderDrop. cbn [andb]. rewrite Ey.
  destruct (JS.ltb (H + 36) (Drop.y d + Drop.vy d * dt)) eqn:E.
  - apply ltb_true in E.
    destruct (resetDrop_recycled_y (advanceDrop dt d) j Hh) as [Y0 Y1].
    repeat split; try lra; intros; exfalso; lra.
  - apply ltb_false in E. cbn [ret fst]. rewrite Ey.
    repeat split; try nra; try reflexivity; intros; exfalso; lra.
Qed.

(** *** The FX loop *)

Lemma fxTicks_cons (ts : Q) (rest : list Q) (f : Fx) (k : nat) :
  fxTicks (ts :: rest) f k = fxTicks rest (fst (fxTick ts f k)) (snd (fxTick ts f k)).
Proof. cbn [fxTicks]. rewrite bind_run. reflexivity. Qed.

Lemma fxTicks_particles (tss : list Q) (f : Fx) (k : nat) :
  fxCtx host = true ->
  fxParticles (fst (fxTicks tss f k)) = stepParticlesN (length tss) (fxParticles f)
  /\ rainEnabled (fst (fxTicks tss f k)) = rainEnabled f.
Proof.
  intros Hctx. revert f k. induction tss as [|ts rest IH]; intros f k.
  - split; reflexivity.
  - rewrite fxTicks_cons. destruct (IH (fst (fxTick ts f k)) (snd (fxTick ts f k)))
      as [Ep Ee].
    destruct (fxTick_fields ts f k Hctx) as (_ & P & E & _).
    rewrite Ep, Ee, P, E. split; reflexivity.
Qed.

Lemma fxTicks_keep_running (tss : list Q) (f : Fx) (k : nat) :
  fxCtx host = true ->
  rainEnabled f = true -> rainDrops f <> [] -> fxRunning f = true ->
  fxRunning (fst (fxTicks tss f k)) = true.
Proof.
  intros Hctx. revert f k. induction tss as [|ts rest IH]; intros f k Hen Hne Hrun.
  - exact Hrun.
  - rewrite fxTicks_cons.
    destruct (fxTick_fields ts f k Hctx) as (_ & _ & E & _ & R).
    pose proof (fxTick_rain_length ts f k) as L.
    assert (Hpos : (0 < length (rainDrops f))%nat).
    { destruct (rainDrops f); [congruence | cbn; lia]. }
    apply IH.
    + rewrite E. exact Hen.
    + intros E0. rewrite E0 in L. cbn in L. lia.
    + rewrite R, Hrun, Hen.
      assert (Hl : (0 <? length (rainDrops (fst (fxTick ts f k))))%nat = true)
        by (apply Nat.ltb_lt; lia).
      rewrite Hl. reflexivity.
Qed.

Lemma fxTicks_stop (tss : list Q) (f : Fx) (k : nat) :
  fxCtx host = true ->
  rainEnabled f = false ->
  (1 <= length tss)%nat ->
  stepParticlesN (length tss) (fxParticles f) = [] ->
  fxRunning (fst (fxTicks tss f k)) = false.
Proof.
  intros Hctx. revert f k. induction tss as [|ts rest IH]; intros f k Hen Hn Hempty.
  - cbn in Hn. lia.
  - rewrite fxTicks_cons.
    destruct (fxTick_fields ts f k Hctx) as (_ & P & E & _ & R).
    destruct rest as [|ts' rest'].
    + cbn [fxTicks ret fst]. rewrite R, Hen, P.
      cbn [length stepParticlesN] in Hempty. rewrite Hempty.
      cbn. apply andb_false_r.
    + apply IH.
      * rewrite E. exact Hen.
      * cbn [length]. lia.
      * rewrite P. exact Hempty.
Qed.

(** X13. The FX loop runs exactly as long as there is work.  With a
    rendering surface, a tick leaves the loop running if and only if it was
    running and afterwards the rain is enabled with a non-empty pool or a
    particle is left.  Hence with rain enabled and at least one drop the loop
    never stops, whatever the timestamps; with rain disabled and particles
    within the bounds of spawnConfetti, 84 ticks empty the pool and stop the
    loop; and ensureFxLoop starts it again.  Without a surface a tick does
    nothing. *)
Theorem fx_loop_runs_while_there_is_work (ts now : Q) (tss : list Q) (f : Fx)
    (k : nat) :
  (fxCtx host = true ->
     fxRunning (fst (fxTick ts f k))
     = fxRunning f
       && ((rainEnabled f && (0 <? length (rainDrops f))%nat)
           || (0 <? length (stepParticles (fxParticles f)))%nat))
  /\ (fxCtx host = true -> rainEnabled f = true -> rainDrops f <> [] ->
      fxRunning f = true ->
      fxRunning (fst (fxTicks tss f k)) = true)
  /\ (fxCtx host = true -> rainEnabled f = false ->
      Forall (fun p => Particle.a p <= 1 /\ 0.012 <= Particle.va p) (fxParticles f) ->
      (84 <= length tss)%nat ->
      fxParticles (fst (fxTicks tss f k)) = []
      /\ fxRunning (fst (fxTicks tss f k)) = false
      /\ fxRunning (ensureFxLoop now (fst (fxTicks tss f k))) = true)
  /\ (fxCtx host = false -> fxTick ts f k = (f, k)).
Proof.
  split; [|split; [|split]].
  - intros Hctx. destruct (fxTick_fields ts f k Hctx) as (_ & P & _ & _ & R).
    rewrite R, P, fxTick_rain_length. reflexivity.
  - apply fxTicks_keep_running.
  - intros Hctx Hen HF Hn.
    assert (Hempty : stepParticlesN (length tss) (fxParticles f) = []).
    { apply stepParticlesN_drains; [lia|].
      eapply Forall_impl; [exact HF|]. cbn beta. intros p [Ha Hva].
      assert (N : 84 <= inject_Z (Z.of_nat (length tss))).
      { change 84 with (inject_Z 84). rewrite <- Zle_Qle. lia. }
      nra. }
    destruct (fxTicks_particles tss f k Hctx) as [Ep _].
    split; [rewrite Ep; exact Hempty|].
    split; [apply fxTicks_stop; try assumption; lia|].
    apply ensureFxLoop_fields. exact Hctx.
  - apply fxTick_no_surface.
Qed.

(** *** The shuffle *)

(** X14. For an array shorter than 2^31 and draws from the unit interval,
    shuffleInPlace returns a rearrangement of its argument: the same
    elements with the same multiplicities, hence the same length, and it
    consumes one draw per element but the first. *)
Theorem shuffleInPlace_rearranges {A : Type} (arr : list A) (k : nat) :
  (Z.of_nat (length arr) <= 2 ^ 31)%Z ->
  fst (shuffleInPlace arr k) ≡ₚ arr
  /\ length (fst (shuffleInPlace arr k)) = length arr
  /\ snd (shuffleInPlace arr k) = (k + (length arr - 1))%nat.
Proof.
  intros Hbig.
  pose proof (shuffleInPlace_Permutation arr k Hbig) as P.
  split; [exact P|]. split; [apply Permutation_length; exact P|].
  unfold shuffleInPlace. generalize (length arr - 1)%nat as i.
  intros i. revert arr k Hbig P. induction i as [|i IH]; intros arr k Hbig P.
  - cbn [shuffleLoop ret snd]. lia.
  - cbn [shuffleLoop]. rewrite bind_run. unfold Math_random at 1 2.
    cbn [fst snd].
    assert (Hs : forall j, length (swap arr (S i) j) = length arr).
    { intros j. unfold swap.
      destruct (arr !! S i); [|reflexivity].
      destruct (JS.get arr j); [|reflexivity].
      rewrite !length_insert. reflexivity. }
    rewrite IH.
    + lia.
    + rewrite Hs. exact Hbig.
    + apply shuffleInPlace_Permutation. rewrite Hs. exact Hbig.
Qed.

(** *** What a sync keeps and what it establishes *)

(* the stages of syncRainDrops named: the pool grown and trimmed to the
   target, the shuffled sides, the pool after the side assignment *)
Lemma syncRainDrops_stages (reseed : bool) (s : Fx) (k : nat) :
  rainEnabled s = true ->
  let n := Z.to_nat (specTargetCount (innerWidth host)) in
  exists (sized : list Drop.t) (sides : list Side) (kb kr : nat),
    length sized = n
    /\ (forall i d, rainDrops s !! i = Some d -> (i < n)%nat -> sized !! i = Some d)
    /\ rainDrops (fst (syncRainDrops reseed s k))
       = (if reseed
          then fst (mapM (fun d => resetDrop d true true)
                      (fst (assignSides sides 0 sized kb)) kr)
          else fst (assignSides sides 0 sized kb))
    /\ fxParticles (fst (syncRainDrops reseed s k)) = fxParticles s
    /\ fxRunning (fst (syncRainDrops reseed s k)) = fxRunning s
    /\ fxLastTs (fst (syncRainDrops reseed s k)) = fxLastTs s
    /\ rainEnabled (fst (syncRainDrops reseed s k)) = true.
Proof.
  intros Hen n. unfold syncRainDrops. rewrite Hen. cbn [negb].
  pose proof (specTargetCount_range (innerWidth host)) as Hr.
  assert (Ht : desiredRainCount = inject_Z (Z.of_nat n)).
  { rewrite desiredRainCount_int. unfold n. rewrite Z2Nat.id by lia. reflexivity. }
  rewrite Ht. rewrite Qceiling_Z, Qfloor_Z, Nat2Z.id.
  rewrite bind_run.
  set (g := growRain n (inject_Z (Z.of_nat n)) (rainDrops s) k).
  assert (Lg : length (fst g) = Nat.max (length (rainDrops s)) n).
  { unfold g. apply growRain_length. lia. }
  destruct (growRain_prefix n (inject_Z (Z.of_nat n)) (rainDrops s) k) as [added Eg].
  fold g in Eg.
  rewrite ltb_nat.
  set (sized := if (n <? length (fst g))%nat then take n (fst g) else fst g).
  assert (Lz : length sized = n).
  { unfold sized. destruct (n <? length (fst g))%nat eqn:E.
    - apply Nat.ltb_lt in E. rewrite length_take. lia.
    - apply Nat.ltb_ge in E. lia. }
  assert (Keep : forall i d, rainDrops s !! i = Some d -> (i < n)%nat ->
                             sized !! i = Some d).
  { intros i d Hi Hlt. unfold sized.
    assert (Hg : fst g !! i = Some d).
    { rewrite Eg. rewrite lookup_app_l; [exact Hi|]. apply lookup_lt_Some in Hi. exact Hi. }
    destruct (n <? length (fst g))%nat; [|exact Hg].
    rewrite lookup_take_lt by exact Hlt. exact Hg. }
  assert (Hpos : (0 <? length sized)%nat = true).
  { apply Nat.ltb_lt. rewrite Lz. unfold n. lia. }
  rewrite Hpos. rewrite !bind_run.
  set (sh := shuffleInPlace
               (replicate (length sized / 2) Left
                ++ replicate (length sized - length sized / 2) Right) (snd g)).
  exists sized, (fst sh), (snd sh), (snd (assignSides (fst sh) 0 sized (snd sh))).
  split; [exact Lz|]. split; [exact Keep|].
  destruct reseed; rewrite ?bind_run; cbn [ret fst snd rainDrops fxParticles fxRunning
                                           fxLastTs rainEnabled];
    repeat split; auto.
Qed.

Lemma assignSides_lookup (sides : list Side) (i0 : nat) (drops : list Drop.t)
    (k i : nat) (d : Drop.t) :
  drops !! i = Some d ->
  exists d',
    fst (assignSides sides i0 drops k) !! i = Some d'
    /\ Drop.side d' = sides !! (i0 + i)%nat
    /\ Drop.icon d' = Drop.icon d /\ Drop.size d' = Drop.size d
    /\ Drop.y d' = Drop.y d /\ Drop.vy d' = Drop.vy d /\ Drop.vx d' = Drop.vx d
    /\ Drop.phase d' = Drop.phase d /\ Drop.vphase d' = Drop.vphase d
    /\ Drop.alpha d' = Drop.alpha d
    /\ (fst (sideBounds (Drop.side d')) <= Drop.x d ->
        Drop.x d <= snd (sideBounds (Drop.side d')) ->
        Drop.x d' = Drop.x d)
    /\ (fst (sideBounds (Drop.side d')) <= snd (sideBounds (Drop.side d')) ->
        inBand d').
Proof.
  revert i0 k i. induction drops as [|d0 rest IH]; intros i0 k i Hi; [discriminate|].
  cbn [assignSides]. cbn [Drop.with_side Drop.side].
  destruct (sideBounds (sides !! i0)) as [minX maxX] eqn:Eb.
  rewrite !bind_run. cbn [ret fst].
  destruct i as [|i]; cbn in Hi.
  - injection Hi as ->. rewrite Nat.add_0_r. cbn [lookup list_lookup].
    change (Drop.x (Drop.with_side d (sides !! i0))) with (Drop.x d).
    destruct (JS.ltb (Drop.x d) minX || JS.ltb maxX (Drop.x d)) eqn:Eo.
    + rewrite bind_run. unfold rand. rewrite bind_run.
      unfold Math_random at 1. cbn [ret fst Drop.with_x Drop.with_side].
      eexists. split; [reflexivity|].
      unfold Drop.with_x, Drop.with_side.
      cbn [Drop.side Drop.icon Drop.size Drop.y Drop.vy Drop.vx Drop.phase
           Drop.vphase Drop.alpha Drop.x].
      unfold inBand. cbn [Drop.side Drop.x]. rewrite Eb. cbn [fst snd].
      destruct (rnd_unit k) as [U0 U1].
      apply orb_true_iff in Eo.
      split; [reflexivity|]. do 8 (split; [reflexivity|]). split.
      * intros A B. exfalso.
        destruct Eo as [Eo | Eo]; apply ltb_true in Eo; lra.
      * intros Hord. split; nra.
    + cbn [ret fst]. eexists. split; [reflexivity|].
      unfold Drop.with_side.
      cbn [Drop.side Drop.icon Drop.size Drop.y Drop.vy Drop.vx Drop.phase
           Drop.vphase Drop.alpha Drop.x].
      unfold inBand. cbn [Drop.side Drop.x]. rewrite Eb. cbn [fst snd].
      apply orb_false_iff in Eo as [E1 E2].
      apply ltb_false in E1. apply ltb_false in E2.
      split; [reflexivity|]. do 8 (split; [reflexivity|]). split.
      * intros _ _. reflexivity.
      * intros _. split; lra.
  - cbn [lookup list_lookup].
    match goal with
    | |- context [assignSides sides (S i0) rest ?kk] =>
        destruct (IH (S i0) kk i Hi) as (d' & Hd' & Rest)
    end.
    exists d'. split; [exact Hd'|].
    replace (i0 + S i)%nat with (S i0 + i)%nat by lia. exact Rest.
Qed.

(** X15. A sync that does not reseed (the one a resize triggers) keeps the
    fall of the drops it keeps: every drop whose index is below the target
    count is still at that index with the same icon, size, height, speeds,
    sway and opacity; only its side is assigned anew, and its x is kept when
    it lies in the band of the new side. *)
Theorem sync_keeps_the_fall_of_existing_drops (s : Fx) (k i : nat) (d : Drop.t) :
  rainEnabled s = true ->
  rainDrops s !! i = Some d ->
  (Z.of_nat i < specTargetCount (innerWidth host))%Z ->
  exists d',
    rainDrops (fst (syncRainDrops false s k)) !! i = Some d'
    /\ Drop.icon d' = Drop.icon d /\ Drop.size d' = Drop.size d
    /\ Drop.y d' = Drop.y d /\ Drop.vy d' = Drop.vy d /\ Drop.vx d' = Drop.vx d
    /\ Drop.phase d' = Drop.phase d /\ Drop.vphase d' = Drop.vphase d
    /\ Drop.alpha d' = Drop.alpha d
    /\ (fst (sideBounds (Drop.side d')) <= Drop.x d ->
        Drop.x d <= snd (sideBounds (Drop.side d')) ->
        Drop.x d' = Drop.x d).
Proof.
  intros Hen Hi Hlt.
  destruct (syncRainDrops_stages false s k Hen)
    as (sized & sides & kb & kr & Lz & Keep & Er & _).
  rewrite Er.
  assert (Hs : sized !! i = Some d) by (apply Keep; [exact Hi | lia]).
  destruct (assignSides_lookup sides 0 sized kb i d Hs)
    as (d' & Hd' & _ & E1 & E2 & E3 & E4 & E5 & E6 & E7 & E8 & E9 & _).
  exists d'. repeat split; assumption.
Qed.

Lemma assignSides_inBand (sides : list Side) (i0 : nat) (drops : list Drop.t)
    (k : nat) :
  (20 <= innerWidth host)%Z ->
  Forall inBand (fst (assignSides sides i0 drops k)).
Proof.
  intros Hw. apply List.Forall_forall. intros d' Hin.
  apply list_elem_of_In, list_elem_of_lookup in Hin. destruct Hin as [i Hi].
  assert (Hlt : (i < length drops)%nat).
  { apply lookup_lt_Some in Hi. rewrite assignSides_length in Hi. exact Hi. }
  destruct (lookup_lt_is_Some_2 drops i Hlt) as [d Hd].
  destruct (assignSides_lookup sides i0 drops k i d Hd) as (d2 & Hd2 & Rest).
  rewrite Hd2 in Hi. injection Hi as <-.
  apply Rest. apply sideBounds_ordered. exact Hw.
Qed.

Lemma fxTick_inBand (ts : Q) (f : Fx) (k : nat) :
  (20 <= innerWidth host)%Z ->
  Forall inBand (rainDrops f) ->
  Forall inBand (rainDrops (fst (fxTick ts f k))).
Proof.
  intros Hw Hin.
  destruct (fxCtx host) eqn:Hctx; [|rewrite fxTick_no_surface by exact Hctx; exact Hin].
  destruct (fxTick_fields ts f k Hctx) as (Er & _). rewrite Er.
  rewrite renderFxFrame_rain. cbn [rainEnabled rainDrops].
  destruct (fxCtx host && rainEnabled f && (0 <? length (rainDrops f))%nat);
    [|exact Hin].
  apply (mapM_Forall _ (fun _ => True)).
  - intros d j _. apply renderDrop_inBand. exact Hw.
  - apply List.Forall_forall. intros; exact I.
Qed.

(** X16. In a viewport at least 20 wide a sync, reseeding or not, leaves
    every drop inside the band of its side, whatever positions the pool held
    before (for instance after the viewport changed), and every drop stays
    inside its band through any number of ticks that follow. *)
Theorem sync_puts_every_drop_in_its_band (reseed : bool) (tss : list Q) (s : Fx)
    (k k' : nat) :
  (20 <= innerWidth host)%Z ->
  rainEnabled s = true ->
  Forall inBand (rainDrops (fst (syncRainDrops reseed s k)))
  /\ Forall inBand
       (rainDrops (fst (fxTicks tss (fst (syncRainDrops reseed s k)) k'))).
Proof.
  intros Hw Hen.
  assert (S0 : Forall inBand (rainDrops (fst (syncRainDrops reseed s k)))).
  { destruct (syncRainDrops_stages reseed s k Hen)
      as (sized & sides & kb & kr & _ & _ & Er & _).
    rewrite Er. destruct reseed.
    - apply (mapM_Forall _ (fun _ => True)).
      + intros d j _. unfold inBand.
        destruct (resetDrop_x d true true j) as (u & U0 & U1 & E). rewrite E.
        pose proof (sideBounds_ordered
                      (Drop.side (fst (resetDrop d true true j))) Hw). nra.
      + apply List.Forall_forall. intros; exact I.
    - apply assignSides_inBand. exact Hw. }
  split; [exact S0|].
  generalize dependent (fst (syncRainDrops reseed s k)). intros f Hf. revert f k' Hf.
  induction tss as [|ts rest IH]; intros f k' Hf; [exact Hf|].
  rewrite fxTicks_cons. apply IH. apply fxTick_inBand; assumption.
Qed.

(** *** Guards of the FX layer *)

Lemma handle_fx_no_surface (e : Event) (s : App) (k : nat) :
  fxCtx host = false -> fx (fst (handle e s k)) = fx s.
Proof.
  intros Hctx.
  assert (Sp : forall x y n sp f j, fst (spawnConfetti x y n sp f j) = f).
  { intros. unfold spawnConfetti. rewrite Hctx. reflexivity. }
  assert (Fin : forall now a j, fx (fst (finishSpin now a j)) = fx a).
  { intros now a j. pose proof (finishSpin_run now a j) as F.
    destruct (wheelDiscRect host) as [[x y] w]. rewrite F. cbn [fx].
    rewrite Sp. apply ensureFxLoop_fields. exact Hctx. }
  destruct e as [now | ts | now |].
  - cbn [handle]. unfold spinClick. destruct (spinning (wheel s)); [reflexivity|].
    rewrite bind_run. reflexivity.
  - rewrite handle_frame.
    assert (Ef : fst ((if fxRunning (fx s) then fxTick ts (fx s) else ret (fx s)) k)
                 = fx s).
    { destruct (fxRunning (fx s)); [|reflexivity].
      rewrite fxTick_no_surface by exact Hctx. reflexivity. }
    assert (Wf : forall a j, fx (fst (wheelFrame ts a j)) = fx a).
    { intros a j. unfold wheelFrame.
      destruct (stage (wheel a)) as [|anim target| | |]; try reflexivity.
      - destruct (step ts anim (sounds a)) as [[[deg log] anim'] resolved].
        destruct resolved; reflexivity.
      - destruct (negb (prefersReducedMotion host)); [reflexivity|]. apply Fin. }
    rewrite Wf. cbn [fx]. exact Ef.
  - cbn [handle]. unfold settleTimeout.
    destruct (stage (wheel s)); try reflexivity. apply Fin.
  - cbn [handle]. rewrite bind_run. cbn [ret fst fx].
    unfold resizeFx. rewrite Hctx. reflexivity.
Qed.

(** X17. Without a rendering surface the FX layer is inert: start-up leaves
    the rain disabled, the pools empty and the loop stopped, spawnConfetti
    and fxTick return their argument, and no sequence of clicks, frames,
    timers and resizes changes the FX state, while the wheel still spins. *)
Theorem without_a_surface_the_fx_layer_is_inert (events : list Event) (s : App)
    (k : nat) (now ts x y spread : Q) (count : nat) (f : Fx) :
  fxCtx host = false ->
  initFx now k = (mkFx false 0 false [] [], k)
  /\ spawnConfetti x y count spread f k = (f, k)
  /\ fxTick ts f k = (f, k)
  /\ ensureFxLoop now f = f
  /\ fx (fst (run events s k)) = fx s
  /\ (spinning (wheel s) = false ->
      spinning (wheel (fst (handle (SpinClick now) s k))) = true).
Proof.
  intros Hctx.
  split; [unfold initFx, resizeFx; rewrite Hctx; reflexivity|].
  split; [unfold spawnConfetti; rewrite Hctx; reflexivity|].
  split; [apply fxTick_no_surface; exact Hctx|].
  split; [apply ensureFxLoop_fields; exact Hctx|].
  split.
  - revert s k. induction events as [|e rest IH]; intros s k; [reflexivity|].
    rewrite run_app, IH. apply handle_fx_no_surface. exact Hctx.
  - intros Hs. cbn [handle].
    destruct (spinClick_run now s k Hs) as (anim & E & _). rewrite E. reflexivity.
Qed.

(** X18. A resize touches nothing but the rain pool: the wheel, the sound
    log, the particles, the loop flag, the last timestamp and the rain
    switch are as before; with a surface and rain enabled the pool has the
    target count of the new width afterwards, and otherwise the whole state
    and the cursor of the random source are unchanged. *)
Theorem resize_touches_only_the_rain_pool (s : App) (k : nat) :
  let r := fst (handle Resize s k) in
  wheel r = wheel s
  /\ sounds r = sounds s
  /\ fxParticles (fx r) = fxParticles (fx s)
  /\ fxRunning (fx r) = fxRunning (fx s)
  /\ fxLastTs (fx r) = fxLastTs (fx s)
  /\ rainEnabled (fx r) = rainEnabled (fx s)
  /\ (fxCtx host = true -> rainEnabled (fx s) = true ->
      Z.of_nat (length (rainDrops (fx r))) = specTargetCount (innerWidth host))
  /\ (fxCtx host = false \/ rainEnabled (fx s) = false ->
      fx r = fx s /\ snd (handle Resize s k) = k).
Proof.
  intros r. unfold r. cbn [handle]. rewrite bind_run. cbn [ret fst snd wheel sounds fx].
  unfold resizeFx.
  destruct (fxCtx host) eqn:Hctx; cbn [negb].
  - destruct (rainEnabled (fx s)) eqn:Hen.
    + destruct (syncRainDrops_stages false (fx s) k Hen)
        as (sized & sides & kb & kr & Lz & _ & Er & Ep & Erun & El & Ee).
      pose proof (specTargetCount_range (innerWidth host)).
      do 6 (split; [first [reflexivity | assumption]|]).
      split.
      * intros _ _. rewrite Er, assignSides_length, Lz, Z2Nat.id by lia. reflexivity.
      * intros [F|F]; discriminate F.
    + unfold syncRainDrops. rewrite Hen. cbn [negb ret fst snd].
      do 6 (split; [first [reflexivity | exact Hen]|]).
      split; [intros _ F; discriminate F | intros _; split; reflexivity].
  - cbn [ret fst snd]. do 6 (split; [reflexivity|]).
    split; [intros F; discriminate F | intros _; split; reflexivity].
Qed.

(** X19. Start-up with a rendering surface: the rain is enabled, the loop
    is running from the start-up time, there are no particles, the pool has
    the target count of drops split between the sides with a difference of
    at most one, every drop starts between 120 above the top edge and 35% of
    the viewport height, and from then on the loop never stops. *)
Theorem startup_leaves_a_balanced_rain_running (now : Q) (tss : list Q) (k k' : nat) :
  fxCtx host = true ->
  (0 <= innerHeight host)%Z ->
  let f := fst (initFx now k) in
  rainEnabled f = true
  /\ fxRunning f = true
  /\ fxLastTs f = now
  /\ fxParticles f = []
  /\ Z.of_nat (length (rainDrops f)) = specTargetCount (innerWidth host)
  /\ sideCount Left (rainDrops f) = (length (rainDrops f) / 2)%nat
  /\ sideCount Right (rainDrops f)
     = (length (rainDrops f) - length (rainDrops f) / 2)%nat
  /\ Forall (fun d => -120 <= Drop.y d /\ Drop.y d <= H * 0.35) (rainDrops f)
  /\ fxRunning (fst (fxTicks tss f k')) = true.
Proof.
  intros Hctx Hh f.
  set (s0 := mkFx false 0 true [] []).
  assert (Ef : f = startFxLoop now (fst (syncRainDrops true s0 k))).
  { unfold f, initFx, resizeFx. rewrite Hctx. cbn [negb].
    unfold syncRainDrops at 1. cbn [rainEnabled negb].
    rewrite bind_run. cbn [ret fst snd fxRunning fxLastTs rainDrops fxParticles].
    rewrite bind_run. reflexivity. }
  destruct (syncRainDrops_stages true s0 k eq_refl)
    as (sized & sides & kb & kr & Lz & _ & Er & Ep & Erun & El & Ee).
  destruct (syncRainDrops_drops true s0 k eq_refl) as (L & CL & CR).
  set (s2 := fst (syncRainDrops true s0 k)) in *.
  cbn [s0 fxParticles fxRunning fxLastTs] in Ep, Erun, El.
  assert (Fields : rainEnabled f = true /\ fxRunning f = true /\ fxLastTs f = now
                   /\ fxParticles f = [] /\ rainDrops f = rainDrops s2).
  { rewrite Ef. unfold startFxLoop. rewrite Hctx, Erun. cbn [negb].
    cbn [rainEnabled fxRunning fxLastTs fxParticles rainDrops]. auto. }
  destruct Fields as (F1 & F2 & F3 & F4 & F5).
  pose proof (specTargetCount_range (innerWidth host)) as Hr.
  rewrite F5.
  repeat (split; [first [assumption | rewrite L, Z2Nat.id by lia; reflexivity]|]).
  split.
  - rewrite Er. apply (mapM_Forall _ (fun _ => True)).
    + intros d j _. apply resetDrop_recycled_y. exact Hh.
    + apply List.Forall_forall. intros; exact I.
  - apply fxTicks_keep_running; try assumption.
    rewrite F5. intros E0. rewrite E0 in L. cbn in L. lia.
Qed.

(** *** Bursts and trajectories of particles *)

Lemma spawnConfetti_run (x y : Q) (count : nat) (spread : Q) (f : Fx) (k : nat) :
  fxCtx host = true -> prefersReducedMotion host = false ->
  spawnConfetti x y count spread f k
  = (mkFx (fxRunning f) (fxLastTs f) (rainEnabled f) (rainDrops f)
       (fxParticles f
        ++ map (fun i : nat => fst (newParticle x y spread (k + 8 * i)%nat))
             (seq 0 count)),
     (k + 8 * count)%nat).
Proof.
  intros Hctx Hprm. unfold spawnConfetti. rewrite Hctx, Hprm. cbn [negb orb].
  rewrite bind_run, spawnLoop_run. reflexivity.
Qed.

Lemma burst_at_origin (x y spread : Q) (count k : nat) :
  Forall (fun p => Particle.x p = x /\ Particle.y p = y /\ Particle.a p = 1)
    (map (fun i : nat => fst (newParticle x y spread (k + 8 * i)%nat)) (seq 0 count)).
Proof.
  apply List.Forall_forall. intros p Hp. apply in_map_iff in Hp as (i & <- & _).
  rewrite newParticle_run. cbn [fst Particle.x Particle.y Particle.a]. auto.
Qed.

(** X20. Bursts add up: a second burst fired while particles of the first
    are still in the pool appends its own particles after them, each burst
    at its own origin with full opacity; the pool grows by the sum of the
    two counts, the rain pool is untouched and the random source advances
    by eight draws per particle. *)
Theorem overlapping_bursts_add_up (x1 y1 sp1 x2 y2 sp2 : Q) (n1 n2 : nat)
    (f : Fx) (k : nat) :
  fxCtx host = true -> prefersReducedMotion host = false ->
  let r1 := spawnConfetti x1 y1 n1 sp1 f k in
  let r2 := spawnConfetti x2 y2 n2 sp2 (fst r1) (snd r1) in
  exists b1 b2 : list Particle.t,
    fxParticles (fst r1) = fxParticles f ++ b1
    /\ fxParticles (fst r2) = fxParticles f ++ b1 ++ b2
    /\ length b1 = n1 /\ length b2 = n2
    /\ Forall (fun p => Particle.x p = x1 /\ Particle.y p = y1 /\ Particle.a p = 1) b1
    /\ Forall (fun p => Particle.x p = x2 /\ Particle.y p = y2 /\ Particle.a p = 1) b2
    /\ rainDrops (fst r2) = rainDrops f
    /\ snd r2 = (k + 8 * (n1 + n2))%nat.
Proof.
  intros Hctx Hprm r1 r2. unfold r2, r1.
  rewrite (spawnConfetti_run x1 y1 n1 sp1 f k Hctx Hprm). cbn [fst snd].
  rewrite (spawnConfetti_run x2 y2 n2 sp2 _ _ Hctx Hprm).
  cbn [fst snd fxParticles rainDrops].
  eexists _, _. split; [reflexivity|]. split; [rewrite <- app_assoc; reflexivity|].
  split; [rewrite length_map, length_seq; reflexivity|].
  split; [rewrite length_map, length_seq; reflexivity|].
  split; [apply burst_at_origin|]. split; [apply burst_at_origin|].
  split; [reflexivity | lia].
Qed.

Lemma updateParticleN_constants (n : nat) (p : Particle.t) :
  Particle.vx (updateParticleN n p) = Particle.vx p
  /\ Particle.g (updateParticleN n p) = Particle.g p
  /\ Particle.vr (updateParticleN n p) = Particle.vr p
  /\ Particle.va (updateParticleN n p) = Particle.va p
  /\ Particle.kind (updateParticleN n p) = Particle.kind p
  /\ Particle.r (updateParticleN n p) = Particle.r p
  /\ Particle.color (updateParticleN n p) = Particle.color p.
Proof.
  revert p. induction n as [|n IH]; intros p; [repeat split|].
  cbn [updateParticleN]. destruct (IH (updateParticle p)) as (A & B & C & D & E & F & G).
  rewrite A, B, C, D, E, F, G. repeat split.
Qed.

Lemma updateParticleN_motion (n : nat) (p : Particle.t) :
  let t := inject_Z (Z.of_nat n) in
  Particle.vy (updateParticleN n p) == Particle.vy p + t * Particle.g p
  /\ Particle.x (updateParticleN n p) == Particle.x p + t * Particle.vx p
  /\ Particle.y (updateParticleN n p)
     == Particle.y p + t * Particle.vy p + Particle.g p * (t * (t + 1) / 2)
  /\ Particle.rot (updateParticleN n p) == Particle.rot p + t * Particle.vr p.
Proof.
  revert p. induction n as [|n IH]; intros p.
  - cbn [updateParticleN Z.of_nat]. cbv zeta.
    repeat split; field.
  - cbn [updateParticleN]. cbv zeta.
    destruct (IH (updateParticle p)) as (A & B & C & D). cbv zeta in A, B, C, D.
    rewrite A, B, C, D.
    cbn [updateParticle Particle.vy Particle.g Particle.x Particle.vx Particle.y
         Particle.rot Particle.vr].
    rewrite Nat2Z.inj_succ. unfold Z.succ. rewrite inject_Z_plus.
    change (inject_Z 1) with 1.
    repeat split; field.
Qed.

Lemma updateParticleN_opacity (n : nat) (p : Particle.t) :
  0 <= Particle.va p -> 0 <= Particle.a p ->
  let rest := Particle.a p - inject_Z (Z.of_nat n) * Particle.va p in
  (0 <= rest -> Particle.a (updateParticleN n p) == rest)
  /\ (rest <= 0 -> Particle.a (updateParticleN n p) == 0).
Proof.
  revert p. induction n as [|n IH]; intros p Hva Ha.
  - cbn [updateParticleN]. cbv zeta. change (inject_Z (Z.of_nat 0)) with 0.
    split; intros; lra.
  - cbn [updateParticleN]. cbv zeta.
    assert (Hva' : 0 <= Particle.va (updateParticle p)) by exact Hva.
    assert (Ha' : 0 <= Particle.a (updateParticle p)).
    { cbn [updateParticle Particle.a].
      destruct (Math_max_spec 0 (Particle.a p - Particle.va p)) as [[L M] | [L M]];
        rewrite M; lra. }
    destruct (IH (updateParticle p) Hva' Ha') as (A & B). cbv zeta in A, B.
    cbn [updateParticle Particle.a Particle.va] in A, B.
    rewrite Nat2Z.inj_succ. unfold Z.succ. rewrite inject_Z_plus.
    change (inject_Z 1) with 1.
    assert (Hn : 0 <= inject_Z (Z.of_nat n)).
    { change 0 with (inject_Z 0). rewrite <- Zle_Qle. lia. }
    set (t := inject_Z (Z.of_nat n)) in *.
    destruct (Math_max_spec 0 (Particle.a p - Particle.va p)) as [[L M] | [L M]];
      rewrite M in A, B.
    + split; intros R.
      * rewrite A; nra.
      * apply B. nra.
    + split; intros R.
      * rewrite A; nra.
      * apply B. nra.
Qed.

(** X21. A particle follows a parabola in the frame count: whatever is in
    the pool after n frames was in it before, and has since moved by n
    times its horizontal velocity, gained n times its gravity in vertical
    velocity, fallen by n times the initial vertical velocity plus gravity
    times n(n+1)/2, turned by n times its spin, and lost n times its decay
    rate in opacity, with all the rates unchanged. *)
Theorem surviving_particle_follows_a_parabola (n : nat) (ps : list Particle.t)
    (q : Particle.t) :
  Forall (fun p => 0 <= Particle.va p /\ 0 <= Particle.a p) ps ->
  In q (stepParticlesN n ps) ->
  let t := inject_Z (Z.of_nat n) in
  exists p : Particle.t,
    In p ps
    /\ Particle.x q == Particle.x p + t * Particle.vx p
    /\ Particle.vy q == Particle.vy p + t * Particle.g p
    /\ Particle.y q
       == Particle.y p + t * Particle.vy p + Particle.g p * (t * (t + 1) / 2)
    /\ Particle.rot q == Particle.rot p + t * Particle.vr p
    /\ Particle.a q == Particle.a p - t * Particle.va p
    /\ Particle.vx q = Particle.vx p /\ Particle.g q = Particle.g p
    /\ Particle.vr q = Particle.vr p /\ Particle.va q = Particle.va p
    /\ Particle.kind q = Particle.kind p /\ Particle.color q = Particle.color p.
Proof.
  intros Hps Hq t.
  destruct (stepParticlesN_origin n ps q Hq) as (p & Hp & ->).
  exists p. split; [exact Hp|].
  destruct (updateParticleN_motion n p) as (A & B & C & D). cbv zeta in A, B, C, D.
  destruct (updateParticleN_constants n p) as (E1 & E2 & E3 & E4 & E5 & _ & E7).
  rewrite List.Forall_forall in Hps. destruct (Hps p Hp) as [Hva Ha].
  destruct (updateParticleN_opacity n p Hva Ha) as (O1 & O2). cbv zeta in O1, O2.
  fold t in A, B, C, D, O1, O2.
  repeat (split; [assumption|]).
  split; [|repeat (split; [assumption|]); assumption].
  destruct n as [|n].
  - unfold t. cbn [updateParticleN]. change (inject_Z (Z.of_nat 0)) with 0. lra.
  - assert (Alive : 0 < Particle.a (updateParticleN (S n) p)).
    { pose proof (stepParticlesN_alive (S n) ps ltac:(lia)) as F.
      rewrite List.Forall_forall in F. exact (F _ Hq). }
    destruct (Qlt_le_dec (Particle.a p - t * Particle.va p) 0) as [Neg | Pos].
    + rewrite O2 in Alive by lra. lra.
    + apply O1. exact Pos.
Qed.

(** *** The YES/NO game *)

Lemma noClick_ignored (s : Love) (log : list Sound) :
  loveLocked s || noDisabled s = true -> noClick s log = (s, log).
Proof. intros E. unfold noClick. rewrite E. reflexivity. Qed.

Lemma noClicksTimes_ignored (n : nat) (s : Love) (log : list Sound) :
  loveLocked s || noDisabled s = true -> noClicksTimes n s log = (s, log).
Proof.
  intros E. induction n as [|n IH]; [reflexivity|].
  cbn [noClicksTimes]. rewrite (noClick_ignored s log E). exact IH.
Qed.

Lemma clamp_compat (a b lo hi : Q) :
  lo <= hi -> a == b -> clamp a lo hi == clamp b lo hi.
Proof.
  intros Hlh Hab. apply Qle_antisym; apply clamp_mono; try exact Hlh; lra.
Qed.

Lemma clamp_min (v lo hi : Q) :
  lo <= hi -> lo <= v -> clamp v lo hi == Math_min hi v.
Proof.
  intros Hlh Hv. unfold clamp.
  destruct (Math_min_spec hi v) as [[L ->] | [L ->]];
    match goal with
    | |- context [Math_max ?x ?y] =>
        destruct (Math_max_spec x y) as [[? ->] | [? ->]]
    end; lra.
Qed.

Lemma clamp_max (v lo hi : Q) :
  lo <= hi -> v <= hi -> clamp v lo hi == Math_max lo v.
Proof.
  intros Hlh Hv. unfold clamp.
  destruct (Math_min_spec hi v) as [[L ->] | [L ->]];
    repeat match goal with
           | |- context [Math_max ?x ?y] =>
               destruct (Math_max_spec x y) as [[? ->] | [? ->]]
           end; lra.
Qed.

Lemma Qpower_nat_succ (a : Q) (n : nat) :
  a ^ Z.of_nat (S n) == a ^ Z.of_nat n * a.
Proof.
  rewrite Nat2Z.inj_succ. unfold Z.succ.
  rewrite Qpower_plus' by lia. change (a ^ 1) with a. reflexivity.
Qed.

Lemma Qpower_nat_range (a : Q) (n : nat) :
  (1 <= a -> 1 <= a ^ Z.of_nat n)
  /\ (0 <= a -> a <= 1 -> 0 <= a ^ Z.of_nat n /\ a ^ Z.of_nat n <= 1).
Proof.
  induction n as [|n [IH1 IH2]].
  - change (a ^ Z.of_nat 0) with 1. split; intros; lra.
  - split.
    + intros Ha. rewrite Qpower_nat_succ. specialize (IH1 Ha).
      set (x := a ^ Z.of_nat n) in *. nra.
    + intros Ha0 Ha1. rewrite Qpower_nat_succ. specialize (IH2 Ha0 Ha1).
      set (x := a ^ Z.of_nat n) in *. nra.
Qed.

Lemma noTexts_cycle (n : nat) :
  JS.get noTexts (Z.rem (Z.of_nat (S n) - 1) (Z.of_nat (length noTexts)))
  = noTexts !! (n mod 7)%nat.
Proof.
  replace (Z.of_nat (S n) - 1)%Z with (Z.of_nat n) by lia.
  change (Z.of_nat (length noTexts)) with 7%Z.
  rewrite Z.rem_mod_nonneg by lia.
  unfold JS.get.
  pose proof (Z.mod_pos_bound (Z.of_nat n) 7 ltac:(lia)) as B.
  destruct (Z.ltb_spec (Z.of_nat n mod 7) 0) as [L|_]; [lia|].
  f_equal. change 7%Z with (Z.of_nat 7). rewrite <- Nat2Z.inj_mod.
  apply Nat2Z.id.
Qed.

Lemma noClick_counts (n : nat) (r : Love) (lg : list Sound) :
  noClicks r = Z.of_nat n ->
  yesScale r == Math_min 3.2 (1.08 ^ Z.of_nat n) ->
  noScale r == Math_max 0.18 (0.92 ^ Z.of_nat n) ->
  loveLocked r = false -> noDisabled r = false ->
  let r' := fst (noClick r lg) in
  noClicks r' = Z.of_nat (S n)
  /\ yesScale r' == Math_min 3.2 (1.08 ^ Z.of_nat (S n))
  /\ noScale r' == Math_max 0.18 (0.92 ^ Z.of_nat (S n))
  /\ noText r' = noTexts !! (n mod 7)%nat
  /\ loveLocked r' = false /\ noDisabled r' = false
  /\ yesDisabled r' = yesDisabled r
  /\ snd (noClick r lg) = clickSound 620 0.03 0.05 lg.
Proof.
  intros C Y N L D. cbv zeta. unfold noClick. rewrite L, D. cbn [orb fst snd].
  cbn [noClicks yesScale noScale noText loveLocked noDisabled yesDisabled].
  destruct (Qpower_nat_range 1.08 n) as [P1 _]. specialize (P1 ltac:(lra)).
  destruct (Qpower_nat_range 0.92 n) as [_ P2].
  specialize (P2 ltac:(lra) ltac:(lra)).
  split; [lia|].
  split.
  { rewrite (clamp_compat _ (Math_min 3.2 (1.08 ^ Z.of_nat n) * 1.08))
      by (rewrite ?Y; lra).
    pose proof (Qpower_nat_succ 1.08 n) as Hs.
    set (x := 1.08 ^ Z.of_nat n) in *. set (x' := 1.08 ^ Z.of_nat (S n)) in *.
    destruct (Math_min_spec 3.2 x) as [[? ->] | [? ->]];
      rewrite clamp_min by lra;
      match goal with
      | |- Math_min ?a ?b == _ =>
          destruct (Math_min_spec a b) as [[? ->] | [? ->]]
      end;
      destruct (Math_min_spec 3.2 x') as [[? ->] | [? ->]]; lra. }
  split.
  { rewrite (clamp_compat _ (Math_max 0.18 (0.92 ^ Z.of_nat n) * 0.92))
      by (rewrite ?N; lra).
    pose proof (Qpower_nat_succ 0.92 n) as Hs.
    set (x := 0.92 ^ Z.of_nat n) in *. set (x' := 0.92 ^ Z.of_nat (S n)) in *.
    destruct (Math_max_spec 0.18 x) as [[? ->] | [? ->]];
      rewrite clamp_max by lra;
      match goal with
      | |- Math_max ?a ?b == _ =>
          destruct (Math_max_spec a b) as [[? ->] | [? ->]]
      end;
      destruct (Math_max_spec 0.18 x') as [[? ->] | [? ->]]; lra. }
  split.
  { rewrite C. replace (Z.of_nat n + 1)%Z with (Z.of_nat (S n)) by lia.
    apply noTexts_cycle. }
  repeat split; reflexivity.
Qed.

Lemma checkCovered_hit (yesRect noRect : Rect) (s : Love) :
  yesCoversNo yesRect noRect ->
  checkCovered yesRect noRect s
  = mkLove (noClicks s) (yesScale s) (noScale s) (loveLocked s) (yesDisabled s)
      true true true (noText s) (loveAfterHidden s).
Proof.
  intros (A & B & C & D). unfold checkCovered.
  apply leb_true in A, B, C, D. rewrite A, B, C, D. reflexivity.
Qed.

Lemma checkCovered_miss (yesRect noRect : Rect) (s : Love) :
  ~ yesCoversNo yesRect noRect -> checkCovered yesRect noRect s = s.
Proof.
  intros Hn. unfold checkCovered.
  destruct (JS.leb (rectLeft yesRect) (rectLeft noRect)) eqn:A;
    destruct (JS.leb (rectTop yesRect) (rectTop noRect)) eqn:B;
    destruct (JS.leb (rectRight noRect) (rectRight yesRect)) eqn:C;
    destruct (JS.leb (rectBottom noRect) (rectBottom yesRect)) eqn:D;
    cbn [andb]; try reflexivity.
  exfalso. apply Hn. apply leb_true in A, B, C, D. repeat split; assumption.
Qed.

Lemma loveRun_snoc (events : list LoveEvent) (e : LoveEvent) (s : Love)
    (log : list Sound) :
  loveRun (events ++ [e]) s log = loveStep (loveRun events s log) e.
Proof. unfold loveRun. rewrite fold_left_app. reflexivity. Qed.

Lemma clicksIn_snoc (events : list LoveEvent) (e : LoveEvent) :
  clicksIn (events ++ [e])
  = (clicksIn events + match e with NoClick => 1 | _ => 0 end)%nat.
Proof.
  unfold clicksIn. rewrite List.filter_app, length_app.
  destruct e; reflexivity.
Qed.

(* once NO is removed, neither clicks nor further checks change anything *)
Lemma loveRun_removed (events : list LoveEvent) (s : Love) (log : list Sound) :
  noDisabled s = true -> noOpacityZero s = true -> noPointerEventsNone s = true ->
  loveRun events s log = (s, log).
Proof.
  intros D O P. unfold loveRun.
  induction events as [|e rest IH]; [reflexivity|].
  cbn [fold_left]. replace (loveStep (s, log) e) with (s, log); [exact IH|].
  destruct e as [|yesRect noRect]; cbn [loveStep fst snd].
  - symmetry. apply noClick_ignored. rewrite D. apply orb_true_r.
  - f_equal. unfold checkCovered.
    match goal with |- _ = if ?c then _ else _ => destruct c end; [|reflexivity].
    destruct s. cbn in D, O, P. subst. reflexivity.
Qed.

(** X22. The NO button of a game nobody has answered YES, under clicks on
    NO and the bounding-box checks the clicks ask for, in any order.  As
    long as no check has found NO covered by YES, with n the number of
    clicks so far the click counter is n, the YES button has grown to
    min(3.2, 1.08^n) and the NO button has shrunk to max(0.18, 0.92^n), its
    label is entry (n-1) mod 7 of the text table, NO is enabled, and one
    620 Hz sound was requested per click unless reduced motion is
    preferred.  The first check that finds NO covered freezes all of that:
    NO is disabled, transparent and closed to the pointer, and whatever
    clicks and checks follow, the counter, the scales, the label and the
    sound log stay as they were at that check. *)
Theorem no_clicks_scale_the_buttons_until_covered (events post : list LoveEvent)
    (yesRect noRect : Rect) (log : list Sound) :
  Forall (fun e => ~ findsNoCovered e) events ->
  let n := clicksIn events in
  let open := loveRun events initLove log in
  let closed := loveRun (events ++ CoverCheck yesRect noRect :: post) initLove log in
  (noClicks (fst open) = Z.of_nat n
   /\ yesScale (fst open) == Math_min 3.2 (1.08 ^ Z.of_nat n)
   /\ noScale (fst open) == Math_max 0.18 (0.92 ^ Z.of_nat n)
   /\ noText (fst open) = match n with
                          | O => None
                          | S m => noTexts !! (m mod 7)%nat
                          end
   /\ loveLocked (fst open) = false /\ noDisabled (fst open) = false
   /\ yesDisabled (fst open) = false
   /\ snd open = log ++ (if prefersReducedMotion host then []
                         else repeat (mkSound 620 0.03 0.05) n))
  /\ (~ yesCoversNo yesRect noRect ->
      loveRun (events ++ [CoverCheck yesRect noRect]) initLove log = open)
  /\ (yesCoversNo yesRect noRect ->
      noDisabled (fst closed) = true /\ noOpacityZero (fst closed) = true
      /\ noPointerEventsNone (fst closed) = true
      /\ noClicks (fst closed) = Z.of_nat n
      /\ yesScale (fst closed) = yesScale (fst open)
      /\ noScale (fst closed) = noScale (fst open)
      /\ noText (fst closed) = noText (fst open)
      /\ loveLocked (fst closed) = false
      /\ snd closed = snd open).
Proof.
  intros HF n open closed.
  assert (Open : noClicks (fst open) = Z.of_nat n
                 /\ yesScale (fst open) == Math_min 3.2 (1.08 ^ Z.of_nat n)
                 /\ noScale (fst open) == Math_max 0.18 (0.92 ^ Z.of_nat n)
                 /\ noText (fst open) = match n with
                                        | O => None
                                        | S m => noTexts !! (m mod 7)%nat
                                        end
                 /\ loveLocked (fst open) = false /\ noDisabled (fst open) = false
                 /\ yesDisabled (fst open) = false
                 /\ snd open = log ++ (if prefersReducedMotion host then []
                                       else repeat (mkSound 620 0.03 0.05) n)).
  { unfold open, n. clear open closed n.
    induction events as [|e events IH] using rev_ind.
    - cbn [loveRun fold_left fst snd clicksIn List.filter length initLove noClicks
           yesScale noScale noText loveLocked noDisabled yesDisabled repeat].
      change (1.08 ^ Z.of_nat 0) with 1. change (0.92 ^ Z.of_nat 0) with 1.
      repeat split; try reflexivity.
      destruct (prefersReducedMotion host); rewrite app_nil_r; reflexivity.
    - apply Forall_app in HF as [HF He]. inversion He as [|e' l' Hmiss _]; subst.
      destruct (IH HF) as (C & Y & N & T & L & D & YD & Slog).
      rewrite loveRun_snoc, clicksIn_snoc.
      set (r := loveRun events initLove log) in *.
      destruct e as [|y0 n0]; cbn [loveStep].
      + replace (clicksIn events + 1)%nat with (S (clicksIn events)) by lia.
        destruct (noClick_counts (clicksIn events) (fst r) (snd r) C Y N L D)
          as (C' & Y' & N' & T' & L' & D' & YD' & S').
        do 6 (split; [assumption|]).
        split; [rewrite YD'; exact YD|].
        rewrite S', Slog. unfold clickSound.
        destruct (prefersReducedMotion host); [reflexivity|].
        rewrite <- app_assoc. f_equal.
        change (mkSound 620 0.03 0.05 :: repeat (mkSound 620 0.03 0.05)
                                           (clicksIn events))
          with (repeat (mkSound 620 0.03 0.05) (S (clicksIn events))).
        symmetry. apply repeat_cons.
      + replace (clicksIn events + 0)%nat with (clicksIn events) by lia.
        cbn [findsNoCovered] in Hmiss.
        rewrite (checkCovered_miss y0 n0 (fst r) Hmiss). cbn [fst snd].
        repeat (split; [assumption|]). assumption. }
  split; [exact Open|].
  destruct Open as (C & Y & N & T & L & D & YD & Slog).
  split.
  { intros Hmiss. rewrite loveRun_snoc. fold open. cbn [loveStep].
    rewrite (checkCovered_miss _ _ _ Hmiss). destruct open; reflexivity. }
  intros Hhit.
  assert (E : closed
              = (mkLove (noClicks (fst open)) (yesScale (fst open))
                   (noScale (fst open)) (loveLocked (fst open))
                   (yesDisabled (fst open)) true true true (noText (fst open))
                   (loveAfterHidden (fst open)),
                 snd open)).
  { unfold closed, loveRun. rewrite fold_left_app. cbn [fold_left].
    change (fold_left loveStep events (initLove, log)) with open.
    cbn [loveStep]. rewrite (checkCovered_hit _ _ _ Hhit).
    apply (loveRun_removed post); reflexivity. }
  rewrite E. cbn [fst snd noDisabled noOpacityZero noPointerEventsNone noClicks
                  yesScale noScale noText loveLocked].
  repeat split; assumption || reflexivity.
Qed.

(** X23. YES is final: the first YES click locks the game, disables both
    buttons, hides NO and shows the follow-up panel without touching the click
    counter, the scales or the NO label; with a surface and motion allowed
    it adds 160 particles at the centre of the button and leaves the FX loop
    running; afterwards NO clicks and further YES clicks change nothing and
    draw nothing from the random source. *)
Theorem yes_click_is_final (now : Q) (r : Rect) (s : Love) (f : Fx) (k : nat) :
  loveLocked s = false ->
  let s1 := fst (fst (yesClick now r s f k)) in
  let f1 := snd (fst (yesClick now r s f k)) in
  loveLocked s1 = true /\ yesDisabled s1 = true /\ noDisabled s1 = true
  /\ noOpacityZero s1 = true /\ loveAfterHidden s1 = false
  /\ noClicks s1 = noClicks s /\ yesScale s1 = yesScale s
  /\ noScale s1 = noScale s /\ noText s1 = noText s
  /\ rainDrops f1 = rainDrops f
  /\ (fxCtx host = true -> prefersReducedMotion host = false ->
      fxRunning f1 = true
      /\ exists burst : list Particle.t,
           fxParticles f1 = fxParticles f ++ burst
           /\ length burst = 160%nat
           /\ Forall (fun p => Particle.x p = rectLeft r + rectWidth r / 2
                               /\ Particle.y p = rectTop r + rectHeight r / 2
                               /\ Particle.a p = 1) burst)
  /\ (forall n log, noClicksTimes n s1 log = (s1, log))
  /\ (forall now' r' f' k', yesClick now' r' s1 f' k' = ((s1, f'), k')).
Proof.
  intros Hl s1 f1. unfold s1, f1, yesClick. rewrite Hl.
  rewrite bind_run. cbn [ret fst snd].
  cbn [loveLocked yesDisabled noDisabled noOpacityZero loveAfterHidden noClicks
       yesScale noScale noText].
  do 9 (split; [reflexivity|]).
  set (x := rectLeft r + rectWidth r / 2). set (y := rectTop r + rectHeight r / 2).
  destruct (ensureFxLoop_fields now (fst (spawnConfetti x y 160 3.8 f k)))
    as (Ep & Er & _ & Erun & _).
  split.
  { rewrite Er. unfold spawnConfetti.
    destruct (negb (fxCtx host) || prefersReducedMotion host); [reflexivity|].
    rewrite bind_run. reflexivity. }
  split.
  { intros Hctx Hprm. split; [apply Erun; exact Hctx|].
    rewrite Ep, (spawnConfetti_run x y 160 3.8 f k Hctx Hprm).
    cbn [fst fxParticles]. eexists. split; [reflexivity|].
    split; [rewrite length_map, length_seq; reflexivity | apply burst_at_origin]. }
  split.
  - intros n log. apply noClicksTimes_ignored. reflexivity.
  - intros. reflexivity.
Qed.

(** X24. The bounding-box check removes the NO button exactly when the YES
    rectangle contains the NO rectangle: then NO is disabled, transparent
    and closed to the pointer, the rest of the game is as before and no
    number of NO clicks changes anything any more; otherwise the check
    changes nothing. The check does not look at whether the game is locked. *)
Theorem covered_no_button_is_removed (yesRect noRect : Rect) (s : Love) :
  let inside :=
    rectLeft yesRect <= rectLeft noRect /\ rectTop yesRect <= rectTop noRect
    /\ rectLeft noRect + rectWidth noRect <= rectLeft yesRect + rectWidth yesRect
    /\ rectTop noRect + rectHeight noRect <= rectTop yesRect + rectHeight yesRect in
  let s' := checkCovered yesRect noRect s in
  (inside ->
     noDisabled s' = true /\ noOpacityZero s' = true /\ noPointerEventsNone s' = true
     /\ noClicks s' = noClicks s /\ yesScale s' = yesScale s
     /\ noScale s' = noScale s /\ loveLocked s' = loveLocked s
     /\ yesDisabled s' = yesDisabled s /\ noText s' = noText s
     /\ loveAfterHidden s' = loveAfterHidden s
     /\ checkCovered yesRect noRect s' = s'
     /\ forall n log, noClicksTimes n s' log = (s', log))
  /\ (~ inside -> s' = s).
Proof.
  intros inside s'. unfold s', checkCovered, rectRight, rectBottom, JS.leb.
  destruct (Qle_bool (rectLeft yesRect) (rectLeft noRect)) eqn:E1;
    destruct (Qle_bool (rectTop yesRect) (rectTop noRect)) eqn:E2;
    destruct (Qle_bool (rectLeft noRect + rectWidth noRect)
                (rectLeft yesRect + rectWidth yesRect)) eqn:E3;
    destruct (Qle_bool (rectTop noRect + rectHeight noRect)
                (rectTop yesRect + rectHeight yesRect)) eqn:E4;
    cbn [andb].
  1: { split.
       - intros _.
         cbn [noDisabled noOpacityZero noPointerEventsNone noClicks yesScale noScale
              loveLocked yesDisabled noText loveAfterHidden].
         do 11 (split; [reflexivity|]).
         intros n log. apply noClicksTimes_ignored. cbn [noDisabled].
         apply orb_true_r.
       - intros Hn. exfalso. apply Hn. unfold inside.
         rewrite <- !Qle_bool_iff. auto. }
  all: split; [|reflexivity].
  all: intros (I1 & I2 & I3 & I4); exfalso.
  all: apply Qle_bool_iff in I1, I2, I3, I4; congruence.
Qed.

(** *** Focus trap and prize modal *)

Lemma last_In {A : Type} (rest : list A) (first : A) :
  In (List.last rest first) (first :: rest).
Proof.
  revert first. induction rest as [|x rest IH]; intros first; [left; reflexivity|].
  right. change (List.last (x :: rest) first)
    with (match rest with [] => x | _ :: _ => List.last rest first end).
  destruct rest as [|y rest'] eqn:E; [left; reflexivity|].
  rewrite <- E in *. specialize (IH x).
  replace (List.last rest first) with (List.last rest x); [exact IH|].
  rewrite E. clear. revert y. induction rest' as [|z r IH]; intros y; [reflexivity|].
  change (List.last (y :: z :: r) x) with (List.last (z :: r) x).
  change (List.last (y :: z :: r) first) with (List.last (z :: r) first).
  apply IH.
Qed.

Lemma focusables_spec (matched : list Element.t) (el : Element.t) :
  In el (focusables matched) ->
  In el matched /\ Element.disabled el = false
  /\ truthy (Element.ariaHidden el) = false.
Proof.
  unfold focusables. intros Hin. apply filter_In in Hin as [Hin Hf].
  apply andb_true_iff in Hf as [Hd Ha].
  apply negb_true_iff in Hd, Ha. auto.
Qed.

(** X25. The focus trap moves the focus only on Tab, only together with
    preventDefault, and only to a node the selector matched that is neither
    disabled nor hidden from assistive technology: the last such node on
    Shift+Tab, the first one on Tab from the last. Tab from the last node
    followed by Shift+Tab from the first brings the focus back to the last. *)
Theorem trapFocus_moves_focus_only_to_enabled_nodes (matched : list Element.t)
    (active : option nat) (contains : bool) (event : KeyEvent) :
  let e := trapFocus matched active contains event in
  (forall el, focusTarget e = Some el ->
     In el matched /\ Element.disabled el = false
     /\ truthy (Element.ariaHidden el) = false
     /\ defaultPrevented e = true /\ key event = "Tab"%string
     /\ exists first rest,
          focusables matched = first :: rest
          /\ (if shiftKey event
              then el = List.last rest first
                   /\ (isActive active first = true \/ contains = false)
              else el = first /\ isActive active (List.last rest first) = true))
  /\ (focusTarget e = None -> defaultPrevented e = false)
  /\ (forall first rest, focusables matched = first :: rest ->
        focusTarget (trapFocus matched (Some (Element.id (List.last rest first)))
                       contains (mkKeyEvent "Tab" false))
        = Some first
        /\ focusTarget (trapFocus matched (Some (Element.id first)) contains
                          (mkKeyEvent "Tab" true))
           = Some (List.last rest first)).
Proof.
  intros e. unfold e, trapFocus. split; [|split].
  - intros el.
    destruct (String.eqb (key event) "Tab") eqn:Ek; cbn [negb]; [|discriminate].
    apply String.eqb_eq in Ek.
    destruct (focusables matched) as [|first rest] eqn:Ef; [discriminate|].
    assert (Hfirst : In first (focusables matched)) by (rewrite Ef; left; reflexivity).
    assert (Hlast : In (List.last rest first) (focusables matched))
      by (rewrite Ef; apply last_In).
    destruct (shiftKey event).
    + destruct (isActive active first || negb contains) eqn:Ec; [|discriminate].
      cbn [focusTarget defaultPrevented]. intros [= <-].
      destruct (focusables_spec _ _ Hlast) as (A & B & C).
      do 5 (split; [assumption || reflexivity|]).
      exists first, rest. split; [reflexivity|]. split; [reflexivity|].
      apply orb_true_iff in Ec as [Ec|Ec]; [left; exact Ec|].
      right. apply negb_true_iff in Ec. exact Ec.
    + destruct (isActive active (List.last rest first)) eqn:Ec; [|discriminate].
      cbn [focusTarget defaultPrevented]. intros [= <-].
      destruct (focusables_spec _ _ Hfirst) as (A & B & C).
      do 5 (split; [assumption || reflexivity|]).
      exists first, rest. split; [reflexivity|]. split; [reflexivity | exact Ec].
  - destruct (negb (String.eqb (key event) "Tab")); [reflexivity|].
    destruct (focusables matched) as [|first rest]; [reflexivity|].
    destruct (shiftKey event).
    + destruct (isActive active first || negb contains); [discriminate | reflexivity].
    + destruct (isActive active (List.last rest first)); [discriminate | reflexivity].
  - intros first rest Ef. rewrite Ef.
    cbn [key shiftKey String.eqb Ascii.eqb Bool.eqb negb isActive].
    rewrite !Nat.eqb_refl. cbn [orb focusTarget]. split; reflexivity.
Qed.

(** X26. Claiming the prize closes the prize modal and leaves the wheel
    where it stopped: rotation, spinning flag, stage, sound log and the rain
    are unchanged, 120 particles are added at the centre of the button when
    there is a surface and motion is allowed, a closed modal ignores every
    key, an open one is closed by Escape, and a wheel that is not spinning
    accepts the next spin. *)
Theorem claim_closes_the_prize_modal (now now' : Q) (r : Rect) (s : App) (k k' : nat)
    (matched : list Element.t) (active : option nat) (contains : bool)
    (event : KeyEvent) :
  let s' := fst (claimClick now r s k) in
  prizeModalOpen (wheel s') = false
  /\ wheelRotation (wheel s') = wheelRotation (wheel s)
  /\ spinning (wheel s') = spinning (wheel s)
  /\ stage (wheel s') = stage (wheel s)
  /\ sounds s' = sounds s
  /\ rainDrops (fx s') = rainDrops (fx s)
  /\ (fxCtx host = true -> prefersReducedMotion host = false ->
      fxRunning (fx s') = true
      /\ exists burst : list Particle.t,
           fxParticles (fx s') = fxParticles (fx s) ++ burst
           /\ length burst = 120%nat
           /\ Forall (fun p => Particle.x p = rectLeft r + rectWidth r / 2
                               /\ Particle.y p = rectTop r + rectHeight r / 2
                               /\ Particle.a p = 1) burst)
  /\ prizeKeydown matched active contains event (wheel s')
     = (wheel s', mkFocusEffect false None)
  /\ (prizeModalOpen (wheel s) = true ->
      fst (prizeKeydown matched active contains (mkKeyEvent "Escape" false) (wheel s))
      = wheel s')
  /\ (spinning (wheel s) = false ->
      spinning (wheel (fst (handle (SpinClick now') s' k'))) = true).
Proof.
  intros s'. unfold s', claimClick. rewrite bind_run. cbn [ret fst snd wheel sounds fx].
  set (x := rectLeft r + rectWidth r / 2). set (y := rectTop r + rectHeight r / 2).
  destruct (ensureFxLoop_fields now (fst (spawnConfetti x y 120 3.1 (fx s) k)))
    as (Ep & Er & _ & Erun & _).
  cbn [closePrizeModal prizeModalOpen wheelRotation spinning stage].
  do 5 (split; [reflexivity|]).
  split.
  { rewrite Er. unfold spawnConfetti.
    destruct (negb (fxCtx host) || prefersReducedMotion host); [reflexivity|].
    rewrite bind_run. reflexivity. }
  split.
  { intros Hctx Hprm. split; [apply Erun; exact Hctx|].
    rewrite Ep, (spawnConfetti_run x y 120 3.1 (fx s) k Hctx Hprm).
    cbn [fst fxParticles]. eexists. split; [reflexivity|].
    split; [rewrite length_map, length_seq; reflexivity | apply burst_at_origin]. }
  split; [reflexivity|].
  split.
  { intros Ho. unfold prizeKeydown. rewrite Ho. reflexivity. }
  intros Hs. cbn [handle].
  match goal with
  | |- context [spinClick now' ?a k'] =>
      destruct (spinClick_run now' a k' Hs) as (anim & E & _); rewrite E
  end.
  reflexivity.
Qed.

(** *** Chocolate modal *)

Lemma chocoRun_token (ops : list ChocoOp) (s : Choco) :
  chocoOpenToken (chocoRun ops s) = (chocoOpenToken s + Z.of_nat (length ops))%Z.
Proof.
  unfold chocoRun. revert s. induction ops as [|op ops IH]; intros s.
  - cbn [fold_left length Z.of_nat]. lia.
  - cbn [fold_left length]. rewrite IH.
    destruct op; cbn [chocoStep openChocoModal closeChocoModal fst chocoOpenToken]; lia.
Qed.

(** X27. Every opening and every closing of the chocolate modal advances
    the token by one, and the answer of a Giphy request is applied only to
    the opening that started it: once anything was opened or closed since,
    the answer changes nothing; without that, a non-empty answer replaces
    the image source and nothing else, and an empty one changes nothing. *)
Theorem stale_giphy_answer_is_dropped (index : Q) (s : Choco) (ops : list ChocoOp)
    (directUrl : option string) :
  let s1 := fst (openChocoModal index s) in
  let token := (chocoOpenToken s + 1)%Z in
  chocoOpenToken s1 = token
  /\ (forall t u, snd (openChocoModal index s) = Some (t, u) -> t = token)
  /\ chocoOpenToken (chocoRun ops s1) = (token + Z.of_nat (length ops))%Z
  /\ (ops <> [] -> applyResolved token directUrl (chocoRun ops s1) = chocoRun ops s1)
  /\ (truthy directUrl = false -> applyResolved token directUrl s1 = s1)
  /\ (truthy directUrl = true ->
      applyResolved token directUrl s1
      = mkChoco (chocoIndex s1) token (chocoMsg s1) directUrl (chocoSelected s1)
          false true).
Proof.
  intros s1 token.
  assert (E1 : chocoOpenToken s1 = token) by reflexivity.
  split; [exact E1|].
  split.
  { intros t u. unfold openChocoModal. cbn [snd].
    destruct (arrayAt chocoGiphyPageUrls _) as [url|]; [|discriminate].
    destruct (truthy (Some url)); [|discriminate]. intros [= <- _]. reflexivity. }
  split; [rewrite chocoRun_token, E1; reflexivity|].
  split.
  { intros Hne. unfold applyResolved. rewrite chocoRun_token, E1.
    destruct (Z.eqb_spec token (token + Z.of_nat (length ops))) as [E|_];
      [|reflexivity].
    destruct ops; [contradiction | cbn [length] in E; lia]. }
  split.
  - intros Ht. unfold applyResolved. rewrite E1, Z.eqb_refl, Ht. reflexivity.
  - intros Ht. unfold applyResolved. rewrite E1, Z.eqb_refl, Ht. reflexivity.
Qed.

Lemma arrayAt_int {A : Type} (arr : list A) (j : Z) :
  (0 <= j)%Z -> arrayAt arr (inject_Z j) = arr !! Z.to_nat j.
Proof.
  intros Hj. unfold arrayAt. rewrite Qfloor_Z, Qeq_bool_refl. unfold JS.get.
  destruct (Z.ltb_spec j 0); [lia | reflexivity].
Qed.

Lemma cleared_lookup (buttons : list bool) (b : nat) (v : bool) :
  map (fun _ => false) buttons !! b = Some v ->
  v = false /\ (b < length buttons)%nat.
Proof.
  revert b. induction buttons as [|x rest IH]; intros b; [destruct b; discriminate|].
  destruct b as [|b]; cbn [map length].
  - intros [= <-]. split; [reflexivity | lia].
  - intros Hb. destruct (IH b Hb). split; [assumption | lia].
Qed.

Lemma table_entry {A : Type} (arr : list A) (n : nat) :
  (n < length arr)%nat -> exists v, arr !! n = Some v.
Proof.
  intros Hn. destruct (lookup_lt_is_Some_2 arr n Hn) as [v E]. exists v. exact E.
Qed.

(** X28. Opening the chocolate modal with an integer index shows the slot
    nearest to it in 0..9: the message, the fallback image and the Giphy
    request are those of the clamped slot and all three exist, the modal is
    visible, the warm-up is marked as done, and among the pieces exactly the
    one at the clamped slot is selected, whichever were selected before. *)
Theorem openChocoModal_shows_the_clamped_slot (i : Z) (s : Choco) :
  let j := Z.to_nat (Z.max 0 (Z.min 9 i)) in
  let s1 := fst (openChocoModal (inject_Z i) s) in
  chocoIndex s1 = inject_Z (Z.max 0 (Z.min 9 i))
  /\ (j < 10)%nat
  /\ chocoMsg s1 = chocolateMessages !! j /\ (exists m, chocoMsg s1 = Some m)
  /\ chocoGif s1 = chocoGifs !! j /\ truthy (chocoGif s1) = true
  /\ (exists url, chocoGiphyPageUrls !! j = Some url
        /\ snd (openChocoModal (inject_Z i) s) = Some ((chocoOpenToken s + 1)%Z, url))
  /\ chocoModalHidden s1 = false /\ chocoPreloaded s1 = true
  /\ length (chocoSelected s1) = length (chocoSelected s)
  /\ (forall b v, chocoSelected s1 !! b = Some v -> (v = true <-> b = j))
  /\ ((j < length (chocoSelected s))%nat -> chocoSelected s1 !! j = Some true).
Proof.
  intros j s1.
  assert (Hc : clamp (inject_Z i) 0
                 (inject_Z (Z.of_nat (length chocolateMessages)) - 1)
               = inject_Z (Z.max 0 (Z.min 9 i))).
  { change (inject_Z (Z.of_nat (length chocolateMessages)) - 1) with (inject_Z 9).
    change 0 with (inject_Z 0). apply clamp_inject_Z. }
  assert (Hj0 : (0 <= Z.max 0 (Z.min 9 i))%Z) by lia.
  assert (Hj : (j < 10)%nat) by (unfold j; lia).
  unfold s1, openChocoModal. cbv zeta. rewrite Hc.
  cbn [fst snd chocoIndex chocoMsg chocoGif chocoModalHidden chocoPreloaded
       chocoSelected].
  rewrite !arrayAt_int by exact Hj0. fold j.
  split; [reflexivity|]. split; [exact Hj|]. split; [reflexivity|].
  split; [apply table_entry; exact Hj|].
  assert (Hg : truthy (chocoGifs !! j) = true).
  { do 10 (destruct j as [|j]; [reflexivity|]). cbn in Hj. lia. }
  rewrite Hg. split; [reflexivity|]. split; [exact Hg|].
  split.
  { assert (Hu : exists url, chocoGiphyPageUrls !! j = Some url
                             /\ truthy (Some url) = true).
    { do 10 (destruct j as [|j]; [eexists; split; reflexivity|]). cbn in Hj. lia. }
    destruct Hu as (url & Eu & Tu). exists url. rewrite Eu, Tu. auto. }
  split; [reflexivity|]. split; [reflexivity|].
  unfold selectChocolate. rewrite arrayAt_int by exact Hj0. rewrite Qfloor_Z. fold j.
  set (cleared := map (fun _ => false) (chocoSelected s)).
  assert (Lc : length cleared = length (chocoSelected s)) by apply length_map.
  destruct (cleared !! j) as [c|] eqn:Ej.
  - destruct (cleared_lookup _ _ _ Ej) as [_ Hlt].
    split; [rewrite length_insert; exact Lc|].
    split.
    + intros b v Hb. destruct (Nat.eq_dec b j) as [->|Hne].
      * rewrite list_lookup_insert_eq in Hb by lia. injection Hb as <-.
        split; auto.
      * rewrite list_lookup_insert_ne in Hb by auto.
        destruct (cleared_lookup _ _ _ Hb) as [-> _].
        split; [discriminate | contradiction].
    + intros _. apply list_lookup_insert_eq. lia.
  - split; [exact Lc|].
    assert (Hge : (length (chocoSelected s) <= j)%nat).
    { rewrite <- Lc. apply lookup_ge_None_1. exact Ej. }
    split.
    + intros b v Hb. destruct (cleared_lookup _ _ _ Hb) as [-> Hlt].
      split; [discriminate | lia].
    + lia.
Qed.

(** X29. Giphy answers are cached once per URL: after a call for a
    non-empty URL the cache holds the answer under that URL and every other
    entry is as before; a later call returns the same answer without a
    request, whatever the network would now bring, so a failure is never
    retried; a request is made only on a cache miss for a URL that is not a
    direct image, and a direct image URL resolves to itself. *)
Theorem giphy_answers_are_cached_once (url : string) (resp resp' : FetchResponse)
    (cache : gmap string (option string)) :
  url <> ""%string ->
  let v := fst (fst (resolveGiphyDirectImageUrl url resp cache)) in
  let cache' := snd (fst (resolveGiphyDirectImageUrl url resp cache)) in
  let fetched := snd (resolveGiphyDirectImageUrl url resp cache) in
  cache' !! url = Some v
  /\ resolveGiphyDirectImageUrl url resp' cache' = (v, cache', false)
  /\ (forall u, u <> url -> cache' !! u = cache !! u)
  /\ (fetched = true -> cache !! url = None /\ directImage url = false)
  /\ (cache !! url = None -> directImage url = true -> v = Some url)
  /\ (forall w, cache !! url = Some w -> v = w /\ cache' = cache)
  /\ (cache !! url = None -> directImage url = false -> fetched = true)
  /\ (forall w, v = Some w -> cache !! url = None -> w <> ""%string).
Proof.
  intros Hne v cache' fetched.
  assert (Again : forall (w : option string) (c : gmap string (option string)),
            c !! url = Some w ->
            resolveGiphyDirectImageUrl url resp' c = (w, c, false)).
  { intros w c Hc. unfold resolveGiphyDirectImageUrl.
    apply String.eqb_neq in Hne. rewrite Hne, Hc. reflexivity. }
  pose proof Hne as Hne'. apply String.eqb_neq in Hne'.
  unfold v, cache', fetched.
  remember (resolveGiphyDirectImageUrl url resp cache) as r eqn:Er.
  unfold resolveGiphyDirectImageUrl in Er. rewrite Hne' in Er.
  destruct (cache !! url) as [w|] eqn:Hc.
  - subst r. cbn [fst snd]. split; [exact Hc|]. split; [apply Again; exact Hc|].
    split; [reflexivity|]. split; [discriminate|]. split; [discriminate|].
    split; [intros w' [= <-]; auto|]. split; discriminate.
  - assert (Ins : forall w : option string,
              <[url := w]> cache !! url = Some w
              /\ resolveGiphyDirectImageUrl url resp' (<[url := w]> cache)
                 = (w, <[url := w]> cache, false)
              /\ (forall u, u <> url -> <[url := w]> cache !! u = cache !! u)).
    { intros w. pose proof (lookup_insert_eq cache url w) as L.
      split; [exact L|]. split; [apply Again; exact L|].
      intros u Hu. apply lookup_insert_ne. auto. }
    destruct (directImage url) eqn:Hd.
    + subst r. cbn [fst snd]. destruct (Ins (Some url)) as (A & B & C).
      do 3 (split; [assumption|]). split; [discriminate|].
      split; [reflexivity|]. split; [discriminate|]. split; [discriminate|].
      intros w [= <-] _. exact Hne.
    + assert (Fail : r = (None, <[url := None]> cache, true) \/
                     exists u, u <> ""%string
                               /\ r = (Some u, <[url := Some u]> cache, true)).
      { destruct resp as [|ok json]; [left; exact Er|].
        destruct ok; [|left; exact Er].
        destruct json as [[u|]|]; try (left; exact Er).
        destruct (String.eqb u "") eqn:Eu; [left; exact Er|].
        right. exists u. split; [apply String.eqb_neq; exact Eu | exact Er]. }
      clear Er. destruct Fail as [-> | (u & Hu & ->)]; cbn [fst snd].
      * destruct (Ins None) as (A & B & C).
        do 3 (split; [assumption|]). split; [auto|]. split; [discriminate|].
        split; [discriminate|]. split; [reflexivity|]. discriminate.
      * destruct (Ins (Some u)) as (A & B & C).
        do 3 (split; [assumption|]). split; [auto|]. split; [discriminate|].
        split; [discriminate|]. split; [reflexivity|].
        intros w [= <-] _. exact Hu.
Qed.

End App.

(** ** The properties at concrete inputs *)

Lemma tape_unit : forall k : nat, 0 <= Sample.tape k /\ Sample.tape k < 1.
Proof.
  intros k. unfold Sample.tape, Qle, Qlt. cbn [Qnum Qden].
  pose proof (Nat.mod_upper_bound k 7 ltac:(lia)). lia.
Qed.

Lemma half_unit : forall k : nat, 0 <= Sample.half k /\ Sample.half k < 1.
Proof. intros k. unfold Sample.half. split; lra. Qed.

(* C1 at rotation 0 with every draw 1/2: offset 180, eight extra turns *)
Lemma spin_target_is_forward_and_on_prize_sector_witness :
  fst (spinTarget Sample.half 0 0%nat) == 3060
  /\ 0 < fst (spinTarget Sample.half 0 0%nat) - 0
  /\ sectorIndexAt (fst (spinTarget Sample.half 0 0%nat)) == prizeIndex.
Proof.
  pose proof (spin_target_is_forward_and_on_prize_sector Sample.desktop
                Sample.half Sample.cos Sample.sin Sample.PI half_unit
                0 0%nat 0 18144 Sample.idleApp 2%nat)
    as (A & _ & _ & _ & B & _).
  split; [vm_compute; reflexivity | split; assumption].
Defined.

(** C2, what the spec's wording would give against what the program does:
   after one frame of half a second the particle p0 (gravity 1, decay 1/10)
   has vertical velocity 1 and opacity 9/10, not 1/2 and 19/20; and the same
   34 ms spent in one frame or in two leave different pools *)
Lemma particle_advance_counts_frames_not_seconds :
  fxParticles (fst (renderFxFrame Sample.desktop Sample.half Sample.PI (1 # 2) true
                      Sample.oneParticle 0%nat))
  = [updateParticle Sample.p0]
  /\ Particle.vy (updateParticle Sample.p0) == 1
  /\ Particle.vy (specAdvanceParticle (1 # 2) Sample.p0) == 1 # 2
  /\ Particle.a (updateParticle Sample.p0) == 9 # 10
  /\ Particle.a (specAdvanceParticle (1 # 2) Sample.p0) == 19 # 20
  /\ 0.034 == 0.017 + 0.017
  /\ map Particle.vy
       (fxParticles (fst (renderFrames Sample.desktop Sample.half Sample.PI
                            [0.034] Sample.oneParticle 0%nat)))
     = [1]
  /\ map Particle.vy
       (fxParticles (fst (renderFrames Sample.desktop Sample.half Sample.PI
                            [0.017; 0.017] Sample.oneParticle 0%nat)))
     = [2]
  /\ fxParticles (fst (renderFrames Sample.desktop Sample.half Sample.PI
                         [0.034] Sample.oneParticle 0%nat))
     <> fxParticles (fst (renderFrames Sample.desktop Sample.half Sample.PI
                            [0.017; 0.017] Sample.oneParticle 0%nat)).
Proof.
  repeat split; try (vm_compute; reflexivity).
  intros E. apply (f_equal (map Particle.vy)) in E. vm_compute in E. discriminate E.
Qed.

Lemma particle_step_is_per_frame_witness :
  fxParticles (fst (renderFxFrame Sample.desktop Sample.half Sample.PI (1 # 60) true
                      Sample.oneParticle 0%nat))
  = fxParticles (fst (renderFxFrame Sample.desktop Sample.half Sample.PI (1 # 2) true
                        Sample.oneParticle 0%nat)).
Proof.
  destruct (particle_step_is_per_frame Sample.desktop Sample.half Sample.PI
              (1 # 60) (1 # 2) 0 0 [] [] Sample.oneParticle 0 eq_refl)
    as (_ & E & _).
  exact E.
Defined.

(* C3: the default burst of 90 particles with spread 3.6 *)
Lemma spawnConfetti_appends_count_particles_witness :
  length (fxParticles
            (fst (spawnConfetti Sample.desktop Sample.tape Sample.cos Sample.sin
                    Sample.PI 0 0 90 3.6 Sample.emptyFx 0%nat)))
  = 90%nat
  /\ fst (spawnConfetti Sample.reduced Sample.tape Sample.cos Sample.sin
            Sample.PI 0 0 90 3.6 Sample.emptyFx 0%nat)
     = Sample.emptyFx.
Proof.
  split.
  - destruct (spawnConfetti_appends_count_particles Sample.desktop Sample.tape
                Sample.cos Sample.sin Sample.PI tape_unit 0 0 90 3.6
                Sample.emptyFx 0%nat) as (Hon & _ & _).
    destruct (Hon eq_refl eq_refl) as (fresh & E & L & _).
    rewrite E, length_app, L. reflexivity.
  - destruct (spawnConfetti_appends_count_particles Sample.reduced Sample.tape
                Sample.cos Sample.sin Sample.PI tape_unit 0 0 90 3.6
                Sample.emptyFx 0%nat) as (_ & Hoff & _).
    exact (proj1 (Hoff eq_refl)).
Defined.

(* C5: the scenario of the 1000-wide viewport *)
Lemma rain_layout_follows_viewport_width_witness :
  let drops :=
    rainDrops (fst (syncRainDrops Sample.desktop Sample.tape Sample.PI true
                      Sample.rainFx 0%nat)) in
  length drops = 22%nat
  /\ sideBandWidth Sample.desktop == 220
  /\ sideCount Left drops = 11%nat
  /\ sideCount Right drops = 11%nat.
Proof.
  destruct (rain_layout_follows_viewport_width Sample.desktop Sample.tape Sample.PI
              tape_unit true Sample.rainFx 0 eq_refl) as (_ & _ & _ & Hk).
  exact (Hk eq_refl).
Defined.

(* C6: a sync of the empty pool in the 15-wide viewport: 12 drops, 6 and 6 *)
Lemma sync_reaches_target_and_balances_sides_witness :
  let drops :=
    rainDrops (fst (syncRainDrops Sample.narrow Sample.tape Sample.PI false
                      Sample.rainFx 3%nat)) in
  inject_Z (Z.of_nat (length drops)) == desiredRainCount Sample.narrow
  /\ (sideCount Left drops + sideCount Right drops = length drops)%nat
  /\ (sideCount Left drops <= sideCount Right drops)%nat
  /\ (sideCount Right drops <= sideCount Left drops + 1)%nat.
Proof.
  exact (sync_reaches_target_and_balances_sides Sample.narrow Sample.tape Sample.PI
           tape_unit false Sample.rainFx 3 eq_refl).
Defined.

(** C7 at the failing input: in a viewport 15 wide the right band runs from
   10 down to 5; a right-side drop at x = 7.5 is put on 5 by one advance,
   below the lower edge 10 of its band, and stays outside the band *)
Lemma right_drop_leaves_band_at_width_15 :
  sideBounds Sample.narrow (Some Right) = (10, 5)
  /\ Drop.x (advanceDrop Sample.narrow (1 # 60) Sample.rightDrop) = 5
  /\ Drop.vx (advanceDrop Sample.narrow (1 # 60) Sample.rightDrop) = - (3)
  /\ JS.ltb (Drop.x (advanceDrop Sample.narrow (1 # 60) Sample.rightDrop))
       (fst (sideBounds Sample.narrow (Some Right))) = true
  /\ ~ inBand Sample.narrow (advanceDrop Sample.narrow (1 # 60) Sample.rightDrop).
Proof.
  repeat split; try (vm_compute; reflexivity).
  apply (right_band_inverted_below_20 Sample.narrow (1 # 60) Sample.rightDrop);
    [vm_compute | ]; reflexivity.
Qed.

(* C9: p0 has opacity 1 and decay 1/10, within the bounds of a spawned
   particle; 84 frames empty the pool *)
Lemma particle_opacity_nonnegative_and_pool_drains_witness :
  fxParticles
    (fst (renderFrames Sample.desktop Sample.half Sample.PI
            (replicate 84 (1 # 60)) Sample.oneParticle 0%nat))
  = [].
Proof.
  destruct (particle_opacity_nonnegative_and_pool_drains Sample.desktop Sample.half
              Sample.PI (replicate 84 (1 # 60)) Sample.oneParticle 0 eq_refl)
    as (_ & _ & _ & _ & _ & Hdrain).
  apply Hdrain.
  - rewrite length_replicate. lia.
  - cbn [Sample.oneParticle fxParticles]. constructor; [|constructor].
    split; vm_compute; discriminate.
Defined.

(* C10: a whole reduced-motion spin, from the click to the prize modal *)
Lemma no_tick_under_reduced_motion_witness :
  sounds
    (fst (run Sample.reduced Sample.tape Sample.cos Sample.sin Sample.PI
            [SpinClick 0; AnimationFrame 0; AnimationFrame 625; AnimationFrame 1250;
             AnimationFrame 2500; AnimationFrame 2516; AnimationFrame 2532]
            Sample.idleApp 0%nat))
  = [].
Proof.
  exact (proj1 (no_tick_under_reduced_motion Sample.reduced Sample.tape Sample.cos
                  Sample.sin Sample.PI
                  [SpinClick 0; AnimationFrame 0; AnimationFrame 625;
                   AnimationFrame 1250; AnimationFrame 2500; AnimationFrame 2516;
                   AnimationFrame 2532]
                  Sample.idleApp 0 eq_refl)).
Defined.

(* the same events on the two hosts: under reduced motion the angle is
   seen in sectors 0, 4 and 3 and ends on the prize sector, in silence;
   without the preference the frames at 625 and 1250 ms each tick *)
Example reduced_motion_spin_crosses_sectors_in_silence :
  let angles (events : list Event) :=
    sectorIndexAt
      (wheelRotation
         (wheel (fst (run Sample.reduced Sample.tape Sample.cos Sample.sin
                        Sample.PI events Sample.idleApp 0%nat)))) in
  angles [SpinClick 0; AnimationFrame 0] == 0
  /\ angles [SpinClick 0; AnimationFrame 0; AnimationFrame 625] == 4
  /\ angles [SpinClick 0; AnimationFrame 0; AnimationFrame 625; AnimationFrame 1250] == 3
  /\ angles [SpinClick 0; AnimationFrame 0; AnimationFrame 625; AnimationFrame 1250;
             AnimationFrame 2500] == prizeIndex
  /\ length
       (sounds
          (fst (run Sample.desktop Sample.tape Sample.cos Sample.sin Sample.PI
                  [SpinClick 0; AnimationFrame 0; AnimationFrame 625;
                   AnimationFrame 1250]
                  Sample.idleApp 0%nat)))
     = 2%nat.
Proof. repeat split; vm_compute; reflexivity. Qed.


(** *** The further properties at concrete inputs *)

(* X6: a spin from rest on the desktop host takes between 16.8 and 24 s *)
Lemma spin_duration_is_proportional_to_travel_witness :
  exists (anim : Animation) (target : Q),
    stage (wheel (fst (spinClick Sample.desktop Sample.half 0 Sample.idleApp 0%nat)))
    = Animating anim target
    /\ 16800 <= durationMs anim /\ durationMs anim < 24000.
Proof.
  destruct (stage (wheel (fst (spinClick Sample.desktop Sample.half 0
                                 Sample.idleApp 0%nat))))
    as [|anim target| | |] eqn:E; try (vm_compute in E; discriminate E).
  exists anim, target. split; [reflexivity|].
  destruct (spin_duration_is_proportional_to_travel Sample.desktop Sample.half
              half_unit 0 Sample.idleApp 0%nat anim target eq_refl E) as [_ Hd].
  destruct (Hd eq_refl) as [_ R]. exact R.
Defined.

(* X7: the angle at 1 s is not beyond the angle at 2 s *)
Lemma wheel_angle_never_turns_back_witness :
  exists (anim : Animation) (target : Q),
    stage (wheel (fst (spinClick Sample.desktop Sample.half 0 Sample.idleApp 0%nat)))
    = Animating anim target
    /\ angleAt Sample.desktop 1000 anim <= angleAt Sample.desktop 2000 anim.
Proof.
  destruct (stage (wheel (fst (spinClick Sample.desktop Sample.half 0
                                 Sample.idleApp 0%nat))))
    as [|anim target| | |] eqn:E; try (vm_compute in E; discriminate E).
  exists anim, target. split; [reflexivity|].
  destruct (wheel_angle_never_turns_back Sample.desktop Sample.half half_unit
              0 1000 2000 Sample.idleApp 0%nat anim target eq_refl E)
    as (_ & R & _); [vm_compute; discriminate | exact R].
Defined.

(* X8: a click at 0, frames at 1000 and 2000 ms while the wheel turns, the
   frames at 24000, 24016 and 24032 ms, and the timer *)
Lemma full_spin_session_ends_on_the_prize_witness :
  sectorIndexAt
    (wheelRotation
       (wheel (fst (run Sample.desktop Sample.half Sample.cos Sample.sin Sample.PI
                      (((SpinClick 0 :: map AnimationFrame [1000; 2000])
                        ++ [AnimationFrame 24000; AnimationFrame 24016;
                            AnimationFrame 24032])
                       ++ [SettleTimeout 24682])
                      Sample.idleApp 0%nat))))
  == prizeIndex.
Proof.
  destruct (stage (wheel (fst (spinClick Sample.desktop Sample.half 0
                                 Sample.idleApp 0%nat))))
    as [|anim target| | |] eqn:E; try (vm_compute in E; discriminate E).
  pose proof (spinClick_duration_floor Sample.desktop Sample.half half_unit 0
                Sample.idleApp 0%nat anim target eq_refl E) as Lo.
  pose proof (spinClick_duration_range Sample.desktop Sample.half half_unit 0
                Sample.idleApp 0%nat anim target eq_refl E) as [_ Hi].
  cbn [Sample.desktop prefersReducedMotion] in Lo.
  destruct (full_spin_session_ends_on_the_prize Sample.desktop Sample.half
              Sample.cos Sample.sin Sample.PI half_unit
              0 24000 24016 24032 24682 [1000; 2000] Sample.idleApp 0%nat
              anim target eq_refl eq_refl E)
    as (_ & _ & _ & _ & _ & _ & R & _).
  - repeat constructor; lra.
  - lra.
  - exact R.
Defined.

(* X9: under reduced motion, frames at 1000 and 2000 ms and the frames at
   2500, 2516 and 2532 ms *)
Lemma reduced_motion_session_needs_no_timer_witness :
  prizeModalOpen
    (wheel (fst (run Sample.reduced Sample.half Sample.cos Sample.sin Sample.PI
                   ((SpinClick 0 :: map AnimationFrame [1000; 2000])
                    ++ [AnimationFrame 2500; AnimationFrame 2516;
                        AnimationFrame 2532])
                   Sample.idleApp 0%nat)))
  = true.
Proof.
  destruct (reduced_motion_session_needs_no_timer Sample.reduced Sample.half
              Sample.cos Sample.sin Sample.PI half_unit
              0 2500 2516 2532 2800 [1000; 2000] [] Sample.idleApp 0%nat
              eq_refl eq_refl)
    as (_ & R & _).
  - repeat constructor; vm_compute; reflexivity.
  - vm_compute; discriminate.
  - rewrite R. reflexivity.
Defined.

(* X10: two ticks over a pool of one right-side drop *)
Lemma ticks_keep_every_drop_on_its_side_witness :
  map Drop.side
    (rainDrops (fst (fxTicks Sample.desktop Sample.tape Sample.PI [16; 32]
                       (mkFx true 0 true [Sample.rightDrop] []) 0%nat)))
  = [Some Right].
Proof.
  destruct (ticks_keep_every_drop_on_its_side Sample.desktop Sample.tape Sample.PI
              [16; 32] (mkFx true 0 true [Sample.rightDrop] []) 0%nat)
    as (_ & R & _); [|exact R].
  constructor; [discriminate | constructor].
Defined.

(* X11: a drop recycled on the desktop host *)
Lemma resetDrop_output_ranges_witness :
  let d' := fst (resetDrop Sample.desktop Sample.tape Sample.PI Sample.rightDrop
                   true false 0%nat) in
  18 <= Drop.size d' /\ Drop.size d' < 30.
Proof.
  destruct (resetDrop_output_ranges Sample.desktop Sample.tape Sample.PI tape_unit
              Sample.rightDrop true false 0%nat)
    as (_ & _ & R & _); [vm_compute; discriminate | exact R].
Defined.

(* X12: a tick 16 ms after the last one *)
Lemma tick_moves_each_drop_by_a_capped_step_witness :
  0 <= tickDt 16 (mkFx true 0 true [Sample.rightDrop] [])
  /\ tickDt 16 (mkFx true 0 true [Sample.rightDrop] []) <= 0.034.
Proof.
  destruct (tick_moves_each_drop_by_a_capped_step Sample.desktop Sample.tape
              Sample.PI tape_unit 16 (mkFx true 0 true [Sample.rightDrop] [])
              0%nat 0%nat Sample.rightDrop eq_refl eq_refl)
    as (A & B & _);
    [vm_compute; discriminate | reflexivity | vm_compute; discriminate |].
  split; assumption.
Defined.

(* X14: a shuffle of four numbers *)
Lemma shuffleInPlace_rearranges_witness :
  fst (shuffleInPlace Sample.tape [1; 2; 3; 4]%nat 0%nat) ≡ₚ [1; 2; 3; 4]%nat.
Proof.
  destruct (shuffleInPlace_rearranges Sample.tape tape_unit [1; 2; 3; 4]%nat
              0%nat) as (R & _); [vm_compute; discriminate | exact R].
Defined.

(* X15: a resize sync over a pool that holds one falling drop *)
Lemma sync_keeps_the_fall_of_existing_drops_witness :
  exists d' : Drop.t,
    rainDrops (fst (syncRainDrops Sample.desktop Sample.tape Sample.PI false
                      (mkFx true 0 true [Sample.rightDrop] []) 0%nat)) !! 0%nat
    = Some d'
    /\ Drop.y d' = Drop.y Sample.rightDrop
    /\ Drop.vy d' = Drop.vy Sample.rightDrop.
Proof.
  destruct (sync_keeps_the_fall_of_existing_drops Sample.desktop Sample.tape
              Sample.PI tape_unit (mkFx true 0 true [Sample.rightDrop] [])
              0%nat 0%nat Sample.rightDrop eq_refl eq_refl)
    as (d' & L & _ & _ & Y & V & _); [vm_compute; reflexivity|].
  exists d'. split; [exact L | split; assumption].
Defined.

(* X16: the start-up sync on the desktop host *)
Lemma sync_puts_every_drop_in_its_band_witness :
  Forall (inBand Sample.desktop)
    (rainDrops (fst (syncRainDrops Sample.desktop Sample.tape Sample.PI true
                       Sample.rainFx 0%nat))).
Proof.
  destruct (sync_puts_every_drop_in_its_band Sample.desktop Sample.tape Sample.PI
              tape_unit true [16] Sample.rainFx 0%nat 0%nat)
    as (R & _); [vm_compute; discriminate | reflexivity | exact R].
Defined.

(* X17: a host without a canvas context *)
Lemma without_a_surface_the_fx_layer_is_inert_witness :
  fx (fst (run (mkHost false false 1000 800 (350, 100, 300)) Sample.tape
             Sample.cos Sample.sin Sample.PI
             [Resize; SpinClick 0; AnimationFrame 16] Sample.idleApp 0%nat))
  = fx Sample.idleApp.
Proof.
  destruct (without_a_surface_the_fx_layer_is_inert
              (mkHost false false 1000 800 (350, 100, 300)) Sample.tape
              Sample.cos Sample.sin Sample.PI
              [Resize; SpinClick 0; AnimationFrame 16] Sample.idleApp 0%nat
              0 0 0 0 1 0%nat Sample.emptyFx eq_refl)
    as (_ & _ & _ & _ & R & _).
  exact R.
Defined.

(* X19: start-up on the desktop host *)
Lemma startup_leaves_a_balanced_rain_running_witness :
  let f := fst (initFx Sample.desktop Sample.tape Sample.PI 0 0%nat) in
  rainEnabled f = true /\ fxRunning f = true
  /\ Z.of_nat (length (rainDrops f)) = 22%Z.
Proof.
  destruct (startup_leaves_a_balanced_rain_running Sample.desktop Sample.tape
              Sample.PI tape_unit 0 [] 0%nat 0%nat eq_refl)
    as (A & B & _ & _ & C & _); [vm_compute; discriminate|].
  split; [exact A | split; [exact B | exact C]].
Defined.

(* X20: a burst of three and a burst of two *)
Lemma overlapping_bursts_add_up_witness :
  let r1 := spawnConfetti Sample.desktop Sample.tape Sample.cos Sample.sin
              Sample.PI 10 20 3 3.6 Sample.emptyFx 0%nat in
  let r2 := spawnConfetti Sample.desktop Sample.tape Sample.cos Sample.sin
              Sample.PI 30 40 2 3.1 (fst r1) (snd r1) in
  snd r2 = 40%nat.
Proof.
  destruct (overlapping_bursts_add_up Sample.desktop Sample.tape Sample.cos
              Sample.sin Sample.PI 10 20 3.6 30 40 3.1 3 2 Sample.emptyFx 0%nat
              eq_refl eq_refl)
    as (b1 & b2 & _ & _ & _ & _ & _ & _ & _ & R).
  exact R.
Defined.

(* X21: the particle p0 after three frames *)
Lemma surviving_particle_follows_a_parabola_witness :
  exists p : Particle.t,
    In p [Sample.p0]
    /\ Particle.y (updateParticleN 3 Sample.p0)
       == Particle.y p + 3 * Particle.vy p + Particle.g p * (3 * (3 + 1) / 2).
Proof.
  destruct (surviving_particle_follows_a_parabola Sample.desktop 3 [Sample.p0]
              (updateParticleN 3 Sample.p0))
    as (p & Hp & _ & _ & Y & _).
  - constructor; [split; vm_compute; discriminate | constructor].
  - vm_compute. left. reflexivity.
  - exists p. split; [exact Hp | exact Y].
Defined.

(* X23: YES on a fresh game *)
Lemma yes_click_is_final_witness :
  let s1 := fst (fst (yesClick Sample.desktop Sample.tape Sample.cos Sample.sin
                        Sample.PI 0 (mkRect 100 200 80 40) initLove
                        Sample.emptyFx 0%nat)) in
  loveLocked s1 = true /\ noClicksTimes Sample.desktop 3 s1 [] = (s1, []).
Proof.
  destruct (yes_click_is_final Sample.desktop Sample.tape Sample.cos Sample.sin
              Sample.PI 0 (mkRect 100 200 80 40) initLove Sample.emptyFx 0%nat
              eq_refl)
    as (A & _ & _ & _ & _ & _ & _ & _ & _ & _ & _ & N & _).
  split; [exact A | exact (N 3%nat [])].
Defined.

(* X29: a request that failed is not repeated when the network is back *)
Lemma giphy_answers_are_cached_once_witness :
  let first := resolveGiphyDirectImageUrl (fun _ => false) "https://giphy.com/gifs/x"
                 NetworkError ∅ in
  resolveGiphyDirectImageUrl (fun _ => false) "https://giphy.com/gifs/x"
    (HttpResponse true (Some (Some "https://media.giphy.com/x.gif"%string)))
    (snd (fst first))
  = (fst (fst first), snd (fst first), false).
Proof.
  destruct (giphy_answers_are_cached_once (fun _ => false)
              "https://giphy.com/gifs/x" NetworkError
              (HttpResponse true (Some (Some "https://media.giphy.com/x.gif"%string)))
              ∅)
    as (_ & R & _); [discriminate | exact R].
Defined.


(* X22: a click, a check that finds NO beside YES, a second click, a check
   that finds NO covered, and two more clicks: the counter stays at 2 *)
Lemma no_clicks_scale_the_buttons_until_covered_witness :
  noClicks
    (fst (loveRun Sample.desktop
            ([NoClick; CoverCheck (mkRect 0 0 100 50) (mkRect 120 0 80 40); NoClick]
             ++ CoverCheck (mkRect 0 0 300 150) (mkRect 120 0 80 40)
                :: [NoClick; NoClick])
            initLove []))
  = 2%Z.
Proof.
  destruct (no_clicks_scale_the_buttons_until_covered Sample.desktop
              [NoClick; CoverCheck (mkRect 0 0 100 50) (mkRect 120 0 80 40); NoClick]
              [NoClick; NoClick] (mkRect 0 0 300 150) (mkRect 120 0 80 40) [])
    as (_ & _ & Hit).
  - constructor; [intros []|]. constructor; [|constructor; [intros []|constructor]].
    intros (_ & _ & C & _). vm_compute in C. apply C. reflexivity.
  - destruct Hit as (_ & _ & _ & N & _); [|exact N].
    repeat split; vm_compute; discriminate.
Defined.
